(** * Pathplanner: a shallow embedding of app/pathplanning/pathplanning.py

    The Python class [Pathplanner] keeps its pairwise tables in mutable
    containers (a list of distance tuples and a dict of dicts of paths) and
    hands shallow copies of them to each query.  The embedding therefore
    keeps those containers in an explicit object heap addressed by
    references, so that sharing between the planner's tables and the
    per-query copies is visible.  Effects (heap, the cache file, the calls
    made to the grid search) are threaded through a small state-and-exception
    monad.

    Code outside the repository is taken as a parameter of the development:
    the grid search [skimage.graph.route_through_array], the tour optimiser
    [mlrose.genetic_alg] and the digest of [hashlib.sha1].

    Of app/main.py the development covers [get_left_right_direction], the
    one function of the web application that computes on its own. *)

From stdpp Require Import base option list gmap strings numbers sorting.
From Stdlib Require Import ZArith Lia.

Local Open Scope Z_scope.
Local Open Scope nat_scope.

(** ** Data *)

(** A grid coordinate [(row, column)]; Python integers, possibly negative.
    Stop ids and node indices are the non-negative integers the planner
    numbers its stops with, as in the module's [__main__] block. *)
Definition coord : Type := Z * Z.

(** A path is the coordinate sequence returned by the grid search. *)
Definition path : Type := list coord.

(** A distance tuple [(src, target, cost)].  The cost is the number returned
    by the grid search; the planner only compares it with zero and hands it
    to the optimiser. *)
Definition edge : Type := nat * nat * Z.

(** The cost surface: a two-dimensional array of 8-bit values. *)
Abbreviation grid := (list (list Z)) (only parsing).

(** References into the object heap. *)
Abbreviation loc := nat (only parsing).

(** The mutable containers of the program: a list of distance tuples, an
    inner dict [end -> path], and an outer dict [start -> inner dict]. *)
Inductive obj : Type :=
| OList (l : list edge)
| ODict (d : gmap nat path)
| OTable (t : gmap nat loc).

(** What is pickled under one locations hash. *)
Record cache_entry : Type := CacheEntry {
  product_distances : list edge;
  product_paths : gmap nat (gmap nat path)
}.

(** The content of the cache file, by what [pickle.load] does on it:
    - [Pickled data]: the pickle of a dict from hashes to entries, as
      [_store_distance_and_paths] writes it; [pickle.load] returns it;
    - [EmptyFile]: a content on which [pickle.load] raises [EOFError], which
      is a file of length zero and also a pickle stream that was cut short
      (the two bytes [b'\x80\x04'], say);
    - [Corrupt]: a content on which [pickle.load] raises
      [pickle.UnpicklingError], such as the bytes [b'garbage'].
    A complete pickle of something that is no dict of such entries is not
    among the states: no statement below speaks of such a file. *)
Inductive file : Type :=
| Pickled (data : gmap string cache_entry)
| EmptyFile
| Corrupt.

(** The exceptions that the modelled code can raise. *)
Inductive exn : Type :=
| OutOfBounds (l : coord)   (* ValueError raised by raise_if_out_of_bounds *)
| AssertionError
| KeyError
| IndexError
| ValueError
| TypeError
| EOFError
| UnpicklingError
| FileNotFoundError
| AttributeError
| SearchError               (* raised inside route_through_array *)
| SolverError.              (* raised inside mlrose *)

Global Instance exn_eq_dec : EqDecision exn.
Proof. solve_decision. Defined.

(** ** The planner object *)

(** The attributes of a [Pathplanner] instance ([self_map] is [self.map]).
    The two tables are references into the heap; [dummy_id] is [None]
    until a query assigns it.  ([cache_path] is the constant
    ['/tmp/path_cache.pickle'].) *)
Record Pathplanner : Type := MkPathplanner {
  self_map : grid;
  product_locations : list coord;
  locations_hash : string;
  num_products : nat;
  inter_product_distances : loc;
  inter_product_paths : loc;
  dummy_id : option nat
}.

Definition set_tables (d p : loc) (self : Pathplanner) : Pathplanner :=
  MkPathplanner (self_map self) (product_locations self) (locations_hash self)
    (num_products self) d p (dummy_id self).

Definition set_dummy_id (n : nat) (self : Pathplanner) : Pathplanner :=
  MkPathplanner (self_map self) (product_locations self) (locations_hash self)
    (num_products self) (inter_product_distances self)
    (inter_product_paths self) (Some n).

(** The state the program runs in: the planner instance ([None] before it
    is constructed), the object heap, the file at [/tmp/path_cache.pickle]
    ([None] when it does not exist), and the log of the calls made to the
    grid search, oldest first. *)
Record world : Type := World {
  planner : option Pathplanner;
  heap : list obj;
  cache_file : option file;
  searches : list (coord * coord)
}.

Definition set_planner (p : Pathplanner) (w : world) : world :=
  World (Some p) (heap w) (cache_file w) (searches w).
Definition set_heap (h : list obj) (w : world) : world :=
  World (planner w) h (cache_file w) (searches w).
Definition set_cache_file (f : option file) (w : world) : world :=
  World (planner w) (heap w) f (searches w).
Definition log_search (c : coord * coord) (w : world) : world :=
  World (planner w) (heap w) (cache_file w) (searches w ++ [c]).

(** ** The state-and-exception monad *)

Inductive result (A : Type) : Type :=
| Ok (a : A) (w : world)
| Raise (e : exn) (w : world).
Global Arguments Ok {A} a w.
Global Arguments Raise {A} e w.

Definition M (A : Type) : Type := world → result A.

(** The world a computation ends in, whether it returns or raises. *)
Definition final {A} (r : result A) : world :=
  match r with Ok _ w => w | Raise _ w => w end.

Global Instance M_ret : MRet M := λ A a w, Ok a w.
Global Instance M_bind : MBind M := λ A B f m w,
  match m w with
  | Ok a w' => f a w'
  | Raise e w' => Raise e w'
  end.

Definition raise {A} (e : exn) : M A := λ w, Raise e w.

(** [try: m except (e1, ..., en): h] *)
Definition try_except {A} (m : M A) (es : list exn) (h : M A) : M A := λ w,
  match m w with
  | Ok a w' => Ok a w'
  | Raise e w' => if bool_decide (e ∈ es) then h w' else Raise e w'
  end.

(** [assert b] *)
Definition assert (b : bool) : M unit :=
  if b then mret tt else raise AssertionError.

(** [for i, x in enumerate(l): body (i0 + i) x], the loop of
    [for i, x in enumerate(l)] with the offset the body adds to [i]. *)
Fixpoint for_enumerate {A} (i0 : nat) (l : list A) (body : nat → A → M unit) : M unit :=
  match l with
  | [] => mret tt
  | x :: l' => body i0 x ≫= λ _, for_enumerate (S i0) l' body
  end.

(** ** The instance *)

(** Reading an attribute of [self]. *)
Definition get_self : M Pathplanner := λ w,
  match planner w with
  | Some self => Ok self w
  | None => Raise AttributeError w
  end.

(** Assigning attributes of [self]. *)
Definition update_self (f : Pathplanner → Pathplanner) : M unit := λ w,
  match planner w with
  | Some self => Ok tt (set_planner (f self) w)
  | None => Raise AttributeError w
  end.

(** Binding a fresh instance: the attributes assigned at the top of
    [__init__]. *)
Definition new_self (self : Pathplanner) : M unit := λ w,
  Ok tt (set_planner self w).

(** ** Heap primitives *)

Definition alloc (o : obj) : M loc := λ w,
  Ok (length (heap w)) (set_heap (heap w ++ [o]) w).

(** Allocation of several objects at once, in the order given. *)
Definition alloc_many (os : list obj) : M (list loc) := λ w,
  Ok (seq (length (heap w)) (length os)) (set_heap (heap w ++ os) w).

Definition get_heap : M (list obj) := λ w, Ok (heap w) w.

Definition get_obj (r : loc) : M obj := λ w,
  match heap w !! r with
  | Some o => Ok o w
  | None => Raise TypeError w
  end.

Definition put_obj (r : loc) (o : obj) : M unit := λ w,
  Ok tt (set_heap (<[r := o]> (heap w)) w).

Definition read_list (r : loc) : M (list edge) :=
  o ← get_obj r; match o with OList l => mret l | _ => raise TypeError end.

Definition read_dict (r : loc) : M (gmap nat path) :=
  o ← get_obj r; match o with ODict d => mret d | _ => raise TypeError end.

Definition read_table (r : loc) : M (gmap nat loc) :=
  o ← get_obj r; match o with OTable t => mret t | _ => raise TypeError end.

(** [l.append(e)] *)
Definition list_append (r : loc) (e : edge) : M unit :=
  l ← read_list r; put_obj r (OList (l ++ [e])).

(** [l.copy()] *)
Definition list_copy (r : loc) : M loc :=
  l ← read_list r; alloc (OList l).

(** [t.copy()]: a shallow copy, the inner dicts stay shared. *)
Definition table_copy (r : loc) : M loc :=
  t ← read_table r; alloc (OTable t).

(** [t[k] = dict()] *)
Definition table_set_new_dict (r : loc) (k : nat) : M unit :=
  t ← read_table r; d ← alloc (ODict ∅); put_obj r (OTable (<[k := d]> t)).

(** [t[k]], a [KeyError] when [k] is absent. *)
Definition table_get (r : loc) (k : nat) : M loc :=
  t ← read_table r;
  match t !! k with Some d => mret d | None => raise KeyError end.

(** [t[a][b]] *)
Definition table_get2 (r : loc) (a b : nat) : M path :=
  d ← table_get r a;
  m ← read_dict d;
  match m !! b with Some p => mret p | None => raise KeyError end.

(** [t[a][b] = p] *)
Definition table_set2 (r : loc) (a b : nat) (p : path) : M unit :=
  d ← table_get r a;
  m ← read_dict d;
  put_obj d (ODict (<[b := p]> m)).

(** ** Stitching *)

(** [_route_to_path]: piece together the paths between the route
    destinations.  The loop carries the local list [path] and [start]. *)
Fixpoint _route_to_path_loop (paths : loc) (acc : path) (start : nat)
    (targets : list nat) : M path :=
  match targets with
  | [] => mret acc
  | target :: rest =>
      let end_ := target in
      path_part ← try_except (table_get2 paths start end_) [KeyError]
                     (p ← table_get2 paths end_ start; mret (reverse p));
      _route_to_path_loop paths (acc ++ path_part) end_ rest
  end.

Definition _route_to_path (route : list nat) (paths : loc) : M path :=
  match route with
  | [] => raise IndexError
  | start :: targets => _route_to_path_loop paths [] start targets
  end.

(** ** numpy and list helpers *)

(** [np.clip(v, lo, hi)] on one element: [minimum(hi, maximum(v, lo))]. *)
Definition np_clip (v lo hi : Z) : Z := Z.min hi (Z.max v lo).

(** [255 - v] in the 8-bit unsigned arithmetic of the image array. *)
Definition uint8_rsub255 (v : Z) : Z := ((255 - v) mod 256)%Z.

(** [np.clip(255 - image, 1, 255)], element by element. *)
Definition cost_of_intensity (v : Z) : Z := np_clip (uint8_rsub255 v) 1 255.

Definition cost_grid (image : grid) : grid :=
  (λ row : list Z, cost_of_intensity <$> row) <$> image.

(** [np.shape] of a two-dimensional array. *)
Definition np_shape (g : grid) : nat * nat :=
  (length g, match g with [] => 0 | r :: _ => length r end).

(** [list(l).index(x)]: the first position of [x]. *)
Definition list_index (x : nat) (l : list nat) : option nat :=
  fst <$> list_find (x =.) l.

(** [np.max] of a non-empty list. *)
Definition np_max (l : list nat) : option nat :=
  match l with
  | [] => None
  | x :: l' => Some (foldl Nat.max x l')
  end.

(** [a.argmax()]: the first position of the largest element. *)
Fixpoint argmax_from (best_i : nat) (best : Z) (i : nat) (l : list Z) : nat :=
  match l with
  | [] => best_i
  | x :: l' =>
      if decide (best < x)%Z then argmax_from i x (S i) l'
      else argmax_from best_i best (S i) l'
  end.

Definition argmax (l : list Z) : option nat :=
  match l with
  | [] => None
  | x :: l' => Some (argmax_from 0 x 1 l')
  end.

(** [l.sort(key=lambda x: x[0])]: Python's sort is stable, so a tuple is
    put before the tuples of the same key that followed it in the list. *)
Fixpoint insert_by_src (e : edge) (l : list edge) : list edge :=
  match l with
  | [] => [e]
  | x :: l' =>
      if decide (e.1.1 ≤ x.1.1) then e :: x :: l' else x :: insert_by_src e l'
  end.

Definition sort_by_src (l : list edge) : list edge := foldr insert_by_src [] l.

(** Modelled from the spec: the attribute [user_position_id] is read by the
    class but assigned nowhere in it; the specification fixes the
    current-position sentinel at node index 0. *)
Definition user_position_id : nat := 0.

(** ** The cache file *)

(** [os.path.exists(self.cache_path)] *)
Definition path_exists : M bool := λ w,
  Ok (bool_decide (is_Some (cache_file w))) w.

(** [with open(self.cache_path, 'rb') as f: pickle.load(f)]: [open] raises
    [FileNotFoundError] when there is no file; [pickle.load] returns the
    pickled dict, or raises the exception that names the state of the
    file. *)
Definition pickle_load : M (gmap string cache_entry) := λ w,
  match cache_file w with
  | None => Raise FileNotFoundError w
  | Some (Pickled data) => Ok data w
  | Some EmptyFile => Raise EOFError w
  | Some Corrupt => Raise UnpicklingError w
  end.

(** [with open(self.cache_path, 'wb') as f: pickle.dump(data, f)] *)
Definition pickle_dump (data : gmap string cache_entry) : M unit := λ w,
  Ok tt (set_cache_file (Some (Pickled data)) w).

Definition as_dict (o : obj) : option (gmap nat path) :=
  match o with ODict d => Some d | _ => None end.

(** The value [pickle] writes for an outer dict: every inner dict is
    followed through the heap. *)
Definition pickle_table (h : list obj) (t : gmap nat loc) : gmap nat (gmap nat path) :=
  omap (λ r, h !! r ≫= as_dict) t.

(** The objects [pickle.load] builds for the entry that is kept: a fresh
    list, a fresh inner dict per start index and a fresh outer dict. *)
Definition unpickle_entry (e : cache_entry) : M (loc * loc) :=
  d ← alloc (OList (product_distances e));
  let kvs := map_to_list (product_paths e) in
  rs ← alloc_many (ODict <$> kvs.*2);
  t ← alloc (OTable (list_to_map (zip kvs.*1 rs)));
  mret (d, t).

Section Planner.

(** [skimage.graph.route_through_array(map, start, end, fully_connected=True)]:
    the path and its cost, or [None] when the library raises. *)
Variable route_through_array : grid → coord → coord → option (path * Z).

(** [mlrose.genetic_alg] on the [TSPOpt] problem built from the distance
    list and the number of nodes: the best state found, or [None] when
    the library raises. *)
Variable genetic_alg : list edge → nat → option (list nat).

(** [hashlib.sha1(str(locations).encode('utf-8')).hexdigest()] *)
Variable sha1_hexdigest : list coord → string.

(** A call to the grid search; the call is logged. *)
Definition route_search (g : grid) (start end_ : coord) : M (path * Z) := λ w,
  match route_through_array g start end_ with
  | Some r => Ok r (log_search (start, end_) w)
  | None => Raise SearchError (log_search (start, end_) w)
  end.

Definition _get_hash_of_locations (locations : list coord) : string :=
  sha1_hexdigest locations.

Definition _load_distance_and_paths : M bool :=
  self ← get_self;
  ex ← path_exists;
  if negb ex then mret false
  else
    data ← try_except (d ← pickle_load; mret (Some d)) [EOFError] (mret None);
    match data with
    | None => mret false
    | Some data =>
        match data !! locations_hash self with
        | None => mret false
        | Some e =>
            '(d, p) ← unpickle_entry e;
            update_self (set_tables d p);;
            mret true
        end
    end.

Definition _store_distance_and_paths : M unit :=
  self ← get_self;
  data ← try_except pickle_load [FileNotFoundError; EOFError] (mret ∅);
  l ← read_list (inter_product_distances self);
  t ← read_table (inter_product_paths self);
  h ← get_heap;
  pickle_dump (<[locations_hash self := CacheEntry l (pickle_table h t)]> data).

Definition raise_if_out_of_bounds (map_bounds : nat * nat) (l : coord) : M unit :=
  if bool_decide (l.1 >= Z.of_nat map_bounds.1 ∨ l.2 >= Z.of_nat map_bounds.2
                  ∨ l.1 < 0 ∨ l.2 < 0)%Z
  then raise (OutOfBounds l) else mret tt.

Definition _calculate_inter_product_routes : M (loc * loc) :=
  self ← get_self;
  _ ← alloc (OList []);
  _ ← alloc (OTable ∅);
  let map_bounds := np_shape (self_map self) in
  let product_locations := product_locations self in
  inter_product_paths ← alloc (OTable ∅);
  inter_product_distances ← alloc (OList []);
  for_enumerate 1 (take (length product_locations - 1) product_locations)
    (λ i_start loc_start,
      table_set_new_dict inter_product_paths i_start;;
      raise_if_out_of_bounds map_bounds loc_start;;
      for_enumerate (i_start + 1) (drop i_start product_locations)
        (λ i_end loc_end,
          raise_if_out_of_bounds map_bounds loc_end;;
          '(path, cost) ← route_search (self_map self) loc_start loc_end;
          assert (bool_decide (cost > 0)%Z);;
          table_set2 inter_product_paths i_start i_end path;;
          list_append inter_product_distances (i_start, i_end, cost)));;
  mret (inter_product_distances, inter_product_paths).

(** [Pathplanner.__init__]; the image read by [skimage.io.imread] is the
    argument [map_image]. *)
Definition __init__ (map_image : grid) (locations : list coord) : M unit :=
  let map := cost_grid map_image in
  d ← alloc (OList []);
  p ← alloc (OTable ∅);
  new_self (MkPathplanner map locations (_get_hash_of_locations locations)
              (length locations) d p None);;
  loaded ← _load_distance_and_paths;
  if negb loaded then
    '(d, p) ← _calculate_inter_product_routes;
    update_self (set_tables d p);;
    _store_distance_and_paths
  else mret tt.

(** *** Queries *)

Definition _calculate_user_product_routes (user_loc : coord) : M (loc * loc) :=
  self ← get_self;
  paths ← table_copy (inter_product_paths self);
  dists ← list_copy (inter_product_distances self);
  table_set_new_dict paths user_position_id;;
  for_enumerate 1 (product_locations self)
    (λ prod_id loc_prod,
      '(path, cost) ← route_search (self_map self) user_loc loc_prod;
      table_set2 paths user_position_id prod_id path;;
      list_append dists (user_position_id, prod_id, cost));;
  mret (dists, paths).

Definition _get_max_index_value_in_dists (dists : loc) : M nat :=
  l ← read_list dists;
  match np_max ((λ dist_point : edge, Nat.max dist_point.1.1 dist_point.1.2) <$> l) with
  | Some m => mret m
  | None => raise ValueError
  end.

Definition _get_indices_in_dist (dists : loc) : M (list nat) :=
  l ← read_list dists;
  let indices : gset nat := list_to_set ((λ d : edge, d.1.1) <$> l) in
  let indices := indices ∪ list_to_set ((λ d : edge, d.1.2) <$> l) in
  mret (elements indices).

(** Insert a dummy node between the user node and the last node. *)
Definition _insert_dummy_node (dists : loc) (end_id : nat) : M loc :=
  indices ← _get_indices_in_dist dists;
  assert (bool_decide (end_id ∈ indices));;
  m ← _get_max_index_value_in_dists dists;
  update_self (set_dummy_id (m + 1));;
  list_append dists (user_position_id, m + 1, 1%Z);;
  list_append dists (m + 1, end_id, 1%Z);;
  mret dists.

(** Do the actual travelling salesperson. *)
Definition _do_tsp (dist_list : loc) : M (list nat) :=
  l ← read_list dist_list;
  put_obj dist_list (OList (sort_by_src l));;
  m ← _get_max_index_value_in_dists dist_list;
  let length := m + 1 in
  l ← read_list dist_list;
  match genetic_alg l length with
  | Some best_state => mret best_state
  | None => raise SolverError
  end.

(** Roll the route such that the start_id is at the start of the route. *)
Definition _roll_route (start_id end_id : nat) (route : list nat) : M (list nat) :=
  match list_index start_id route with
  | None => raise ValueError
  | Some k =>
      let route := rotate k route in
      match route !! 1 with
      | None => raise IndexError
      | Some r1 =>
          if decide (r1 = end_id) then mret (reverse (rotate 1 route))
          else mret route
      end
  end.

Definition _filter_dists (selected_product_ids : list nat) (dist_list : loc) : M loc :=
  let is_in_spid (src target : nat) : bool :=
    bool_decide (src ∈ selected_product_ids) && bool_decide (target ∈ selected_product_ids) in
  dists ← alloc (OList []);
  l ← read_list dist_list;
  for_enumerate 0 l
    (λ _ '(src, target, dist),
      if is_in_spid src target then
        match list_index src selected_product_ids,
              list_index target selected_product_ids with
        | Some new_src_idx, Some new_target_idx =>
            list_append dists (new_src_idx, new_target_idx, dist)
        | _, _ => raise ValueError
        end
      else mret tt);;
  mret dists.

(** [[selected_product_ids[route_point] for route_point in route if route_point != -1]] *)
Fixpoint select_route_points (selected_product_ids : list nat) (route : list Z)
    : M (list nat) :=
  match route with
  | [] => mret []
  | route_point :: rest =>
      if decide (route_point ≠ (-1)%Z) then
        match selected_product_ids !! Z.to_nat route_point with
        | Some s => r ← select_route_points selected_product_ids rest; mret (s :: r)
        | None => raise IndexError
        end
      else select_route_points selected_product_ids rest
  end.

Definition _map_to_selected_product_id_indices (selected_product_ids : list nat)
    (route : list nat) : M (list nat) :=
  match selected_product_ids with
  | [] => raise IndexError
  | s0 :: _ =>
      assert (bool_decide (s0 = user_position_id));;
      let route := Z.of_nat <$> route in
      match argmax route with
      | None => raise ValueError
      | Some i =>
          let route := <[i := (-1)%Z]> route in
          select_route_points selected_product_ids route
      end
  end.

Definition get_path (user_loc : coord) (selected_product_ids : list nat)
    (end_at_id : nat) : M (path * list nat) :=
  self ← get_self;
  assert (bool_decide (end_at_id ∈ selected_product_ids));;
  match list_index end_at_id selected_product_ids with
  | None => raise ValueError
  | Some end_at_id =>
      if decide (num_products self = 0) then mret ([], [])
      else
        let selected_product_ids :=
          if bool_decide (user_position_id ∉ selected_product_ids)
          then [user_position_id] ++ selected_product_ids
          else selected_product_ids in
        '(dist_list, paths) ← _calculate_user_product_routes user_loc;
        dist_list ← _filter_dists selected_product_ids dist_list;
        dist_list ← _insert_dummy_node dist_list end_at_id;
        route ← _do_tsp dist_list;
        route ← _map_to_selected_product_id_indices selected_product_ids route;
        rolled_route ← _roll_route 0 end_at_id route;
        path ← _route_to_path rolled_route paths;
        mret (path, rolled_route)
  end.

End Planner.

(** ** app/main.py: which way to the goal tag *)

(** [l.index(t)] on a list of tags, [None] where Python raises
    [ValueError]. *)
Definition tag_index (t : string) (l : list string) : option nat :=
  fst <$> list_find (t =.) l.

(** The tags on the shelf, in shelf order. *)
Definition known_tags : list string :=
  ["0003376"; "0000305"; "0007873"; "0119704"; "0001847"].

(** The loop of [get_left_right_direction] over the detected tags: a tag
    that is not known is skipped, the first known one decides. *)
Fixpoint direction_loop (goal_ndx : nat) (detected_tags : list string) : option Z :=
  match detected_tags with
  | [] => None
  | t :: rest =>
      match tag_index t known_tags with
      | Some current_ndx => Some (Z.of_nat goal_ndx - Z.of_nat current_ndx)%Z
      | None => direction_loop goal_ndx rest
      end
  end.

Definition get_left_right_direction (detected_tags : list string) (goal_tag : string)
    : option Z :=
  match tag_index goal_tag known_tags with
  | None => None
  | Some goal_ndx => direction_loop goal_ndx detected_tags
  end.

(** ** Stand-ins for the libraries, used to run the model on concrete inputs *)

Module Demo.

Definition sgn_step (a b : Z) : Z :=
  if decide (a < b)%Z then (a + 1)%Z else if decide (b < a)%Z then (a - 1)%Z else a.

Fixpoint walk (fuel : nat) (c target : coord) : path :=
  match fuel with
  | 0 => [c]
  | S n => c :: walk n (sgn_step c.1 target.1, sgn_step c.2 target.2) target
  end.

Definition chebyshev (a b : coord) : Z :=
  Z.max (Z.abs (a.1 - b.1)) (Z.abs (a.2 - b.2)).

Definition in_grid (g : grid) (c : coord) : bool :=
  bool_decide (0 ≤ c.1 < Z.of_nat (np_shape g).1 ∧ 0 ≤ c.2 < Z.of_nat (np_shape g).2)%Z.

(** A grid search for surfaces of uniform cost 1: a diagonal-first walk,
    its cost the number of steps; it refuses endpoints outside the array. *)
Definition uniform_search (g : grid) (start end_ : coord) : option (path * Z) :=
  if in_grid g start && in_grid g end_
  then Some (walk (Z.to_nat (chebyshev start end_)) start end_, chebyshev start end_)
  else None.

(** The same search with numpy's convention for negative indices, which
    count from the end of the axis. *)
Definition wrap_index (n : nat) (i : Z) : Z :=
  if decide (i < 0)%Z then (Z.of_nat n + i)%Z else i.

Definition wrapping_search (g : grid) (start end_ : coord) : option (path * Z) :=
  let norm (c : coord) : coord :=
    (wrap_index (np_shape g).1 c.1, wrap_index (np_shape g).2 c.2) in
  uniform_search g (norm start) (norm end_).

(** The fitness of a closed tour: the sum of the listed distances of its
    consecutive pairs, [None] (infinite) when a pair is not listed. *)
Definition pair_dist (dists : list edge) (a b : nat) : option Z :=
  (λ e : edge, e.2) <$>
    list_find (λ e : edge, e.1 = (Nat.min a b, Nat.max a b)
                           ∨ e.1 = (Nat.max a b, Nat.min a b)) dists
    ≫= λ p, Some p.2.

Fixpoint tour_cost_from (dists : list edge) (first prev : nat) (rest : list nat)
    : option Z :=
  match rest with
  | [] => pair_dist dists prev first
  | x :: rest' =>
      d ← pair_dist dists prev x;
      c ← tour_cost_from dists first x rest';
      Some (d + c)%Z
  end.

Definition tour_cost (dists : list edge) (state : list nat) : option Z :=
  match state with
  | [] => Some 0%Z
  | x :: rest => tour_cost_from dists x x rest
  end.

Definition better (a b : option Z) : bool :=
  match a, b with
  | Some x, Some y => bool_decide (x < y)%Z
  | Some _, None => true
  | None, _ => false
  end.

(** An exact optimiser: the first tour of least cost among all
    permutations of the nodes.  It takes every distance list, also one
    with a distance that is not positive, which [mlrose.TravellingSales]
    refuses; [strict_tsp] below makes that check. *)
Definition exact_tsp (dists : list edge) (length : nat) : option (list nat) :=
  match permutations (seq 0 length) with
  | [] => None
  | s :: ss =>
      Some (foldl (λ best t, if better (tour_cost dists t) (tour_cost dists best)
                             then t else best) s ss)
  end.

(** The exact optimiser behind the check that [mlrose.TravellingSales]
    makes of its distance list: a list with a distance that is not
    positive is refused. *)
Definition strict_tsp (dists : list edge) (length : nat) : option (list nat) :=
  if bool_decide (Forall (λ e : edge, (0 < e.2)%Z) dists)
  then exact_tsp dists length
  else None.

Definition no_hash (_ : list coord) : string := "h".

Definition uniform5 : grid := replicate 5 (replicate 5 254%Z).

Definition stops3 : list coord := [(0, 0); (4, 4); (2, 2)]%Z.

Definition empty_world : world := World None [] None [].

(** A planner for [stops3] whose tables are still the empty containers of
    the top of [__init__], and the world it lives in. *)
Definition planner3 : Pathplanner :=
  MkPathplanner (cost_grid uniform5) stops3 "h" 3 0 1 None.

Definition fresh_world3 : world :=
  World (Some planner3) [OList []; OTable ∅] None [].

(** The world after constructing a planner with an empty registry. *)
Definition world0 : world :=
  final (__init__ uniform_search no_hash uniform5 [] empty_world).

(** The visit order a query returned, if it returned. *)
Definition route_of (r : result (path * list nat)) : option (list nat) :=
  match r with
  | Ok (_, route) _ => Some route
  | Raise _ _ => None
  end.

(** An optimiser that answers with the tour [t] when all its legs are in
    the distance list, and fails otherwise. *)
Definition fixed_tsp (t : list nat) (dists : list edge) (length : nat)
    : option (list nat) :=
  match tour_cost dists t with
  | Some _ => Some t
  | None => None
  end.

(** Whether a query returned a visit order whose last stop is [stop];
    queries that raised are not counted against it. *)
Definition ends_at (stop : nat) (r : result (path * list nat)) : bool :=
  match route_of r with
  | Some route => bool_decide (last route = Some stop)
  | None => true
  end.

(** The world after constructing a planner for [stops3] on [uniform5],
    starting without a cache file. *)
Definition world3 : world :=
  final (__init__ uniform_search no_hash uniform5 stops3 empty_world).

End Demo.


(** ** Derived notions used in the statements *)

(** Weakest precondition: [Q] on return, [R] on an exception. *)
Definition wp {A} (m : M A) (Q : A → world → Prop) (R : exn → world → Prop)
    (w : world) : Prop :=
  match m w with
  | Ok a w' => Q a w'
  | Raise e w' => R e w'
  end.

(** The stored segment for [(a, b)] as the heap holds it. *)
Definition stored (h : list obj) (paths : loc) (a b : nat) : option path :=
  match h !! paths with
  | Some (OTable t) =>
      match t !! a with
      | Some d => match h !! d with Some (ODict m) => m !! b | _ => None end
      | None => None
      end
  | _ => None
  end.

(** The segment used for the pair [(a, b)]: the one stored for [(a, b)],
    else the one stored for [(b, a)] reversed. *)
Definition segment (h : list obj) (paths : loc) (a b : nat) : option path :=
  match stored h paths a b with
  | Some p => Some p
  | None => reverse <$> stored h paths b a
  end.

(** The segments of the consecutive pairs of a route. *)
Fixpoint segments (seg : nat → nat → option path) (start : nat) (targets : list nat)
    : option (list path) :=
  match targets with
  | [] => Some []
  | t :: rest =>
      match seg start t, segments seg t rest with
      | Some p, Some ps => Some (p :: ps)
      | _, _ => None
      end
  end.

(** Stitching as the specification words it: the segments in order, the
    first coordinate of every segment after the first one dropped. *)
Definition spec_stitch (ps : list path) : path :=
  match ps with
  | [] => []
  | p :: rest => p ++ concat (tail <$> rest)
  end.

(** A table whose inner references all point to dicts. *)
Definition wf_table (h : list obj) (paths : loc) : Prop :=
  match h !! paths with
  | Some (OTable t) => map_Forall (λ _ d, is_Some (h !! d ≫= as_dict)) t
  | _ => False
  end.

Global Instance wf_table_dec h paths : Decision (wf_table h paths).
Proof.
  unfold wf_table. destruct (h !! paths) as [[| |t]|]; apply _.
Defined.

(** Two instances that agree on every attribute assigned by the
    constructor; only [dummy_id] may differ. *)
Definition same_attrs (p q : option Pathplanner) : Prop :=
  match p, q with
  | Some a, Some b =>
      self_map a = self_map b ∧ product_locations a = product_locations b ∧
      locations_hash a = locations_hash b ∧ num_products a = num_products b ∧
      inter_product_distances a = inter_product_distances b ∧
      inter_product_paths a = inter_product_paths b
  | None, None => True
  | _, _ => False
  end.

(** [ext w0 w]: every object of the heap of [w0] is still there and
    unchanged in [w] (the heap only grew), the cache file is the same, the
    instance has the same attributes, and the search log only grew. *)
Definition ext (w0 w : world) : Prop :=
  heap w0 `prefix_of` heap w ∧ cache_file w = cache_file w0 ∧
  same_attrs (planner w0) (planner w) ∧ searches w0 `prefix_of` searches w.

(** Computations that leave the state as it is, also when they raise. *)
Definition read_only {A} (m : M A) : Prop := ∀ w, final (m w) = w.

(** Computations that make no call to the grid search. *)
Definition quiet {A} (m : M A) : Prop := ∀ w, searches (final (m w)) = searches w.

(** The result of a grid search, with a default where the library
    raises. *)
Definition search_result (rta : grid → coord → coord → option (path * Z))
    (g : grid) (a b : coord) : path * Z :=
  default ([], 0%Z) (rta g a b).

(** The distance tuples a query adds for the current position: one per
    registered stop, from node [user_position_id] to stop [1 + k]. *)
Definition user_edges (rta : grid → coord → coord → option (path * Z))
    (g : grid) (user_loc : coord) (locs : list coord) : list edge :=
  imap (λ k loc, (user_position_id, 1 + k, (search_result rta g user_loc loc).2)) locs.

(** The searches a query makes for the current position. *)
Definition user_calls (user_loc : coord) (locs : list coord) : list (coord * coord) :=
  (λ loc, (user_loc, loc)) <$> locs.

(** After the current-position tables are built, a query writes only to
    objects it allocated itself and makes no further search: [fr w0 sl w]
    says that [w] extends [w0] and that the search log is [sl]. *)
Definition fr (w0 : world) (sl : list (coord * coord)) (w : world) : Prop :=
  ext w0 w ∧ searches w = sl.

(** *** The pairwise precomputation, described as values *)

(** The grid test of [raise_if_out_of_bounds], negated. *)
Definition in_bounds (g : grid) (c : coord) : Prop :=
  (0 ≤ c.1 < Z.of_nat (np_shape g).1 ∧ 0 ≤ c.2 < Z.of_nat (np_shape g).2)%Z.

Global Instance in_bounds_dec g c : Decision (in_bounds g c).
Proof. unfold in_bounds. apply _. Defined.

(** A dict filled by successive assignments [d[k] = v]. *)
Definition dict_of (kvs : list (nat * path)) : gmap nat path :=
  foldl (λ d kv, <[kv.1 := kv.2]> d) ∅ kvs.

(** Row [i] of the precomputation: from stop [i] at [ci] to the stops that
    follow it, numbered from [i + 1]. *)
Definition row_edges (rta : grid → coord → coord → option (path * Z)) (g : grid)
    (i : nat) (ci : coord) (targets : list coord) : list edge :=
  imap (λ k cj, (i, i + 1 + k, (search_result rta g ci cj).2)) targets.

Definition row_paths (rta : grid → coord → coord → option (path * Z)) (g : grid)
    (i : nat) (ci : coord) (targets : list coord) : list (nat * path) :=
  imap (λ k cj, (i + 1 + k, (search_result rta g ci cj).1)) targets.

Definition row_calls (ci : coord) (targets : list coord) : list (coord * coord) :=
  (λ cj, (ci, cj)) <$> targets.

(** The rows of the stops in [done], a prefix of the registry [locs]. *)
Definition rows_edges (rta : grid → coord → coord → option (path * Z)) (g : grid)
    (locs done : list coord) : list edge :=
  concat (imap (λ k ck, row_edges rta g (1 + k) ck (drop (1 + k) locs)) done).

Definition rows_calls (locs done : list coord) : list (coord * coord) :=
  concat (imap (λ k ck, row_calls ck (drop (1 + k) locs)) done).

Definition rows_dicts (rta : grid → coord → coord → option (path * Z)) (g : grid)
    (locs done : list coord) : list (gmap nat path) :=
  imap (λ k ck, dict_of (row_paths rta g (1 + k) ck (drop (1 + k) locs))) done.

(** The outer dict after [m] rows, when the first inner dict was allocated
    at reference [r0]: row [1 + k] points to [r0 + k]. *)
Fixpoint row_table (r0 m : nat) : gmap nat loc :=
  match m with
  | 0 => ∅
  | S m' => <[1 + m' := r0 + m']> (row_table r0 m')
  end.

(** The stops that have a row: all but the last. *)
Definition row_stops (locs : list coord) : list coord :=
  take (length locs - 1) locs.

(** All distance tuples and all searches of the precomputation. *)
Definition pair_edges (rta : grid → coord → coord → option (path * Z)) (g : grid)
    (locs : list coord) : list edge :=
  rows_edges rta g locs (row_stops locs).

Definition pair_calls (locs : list coord) : list (coord * coord) :=
  rows_calls locs (row_stops locs).

(** The state during the precomputation started in [w0]: the heap of [w0]
    followed by the four containers allocated at the start (the last two
    are the outer dict [T] and the distance list [E]) and the inner dicts
    [Ds]; [calls] are the searches made so far. *)
Definition pre_state (w0 : world) (T : gmap nat loc) (E : list edge)
    (Ds : list (gmap nat path)) (calls : list (coord * coord)) (w : world) : Prop :=
  heap w = heap w0 ++ [OList []; OTable ∅; OTable T; OList E] ++ (ODict <$> Ds) ∧
  planner w = planner w0 ∧ cache_file w = cache_file w0 ∧
  searches w = searches w0 ++ calls.

(** Why the precomputation can raise: a registered stop outside the grid,
    or a pair of stops (at positions [i < j] of the registry) on which the
    search raises or returns a cost that is not positive. *)
Definition pre_failure (rta : grid → coord → coord → option (path * Z)) (g : grid)
    (locs : list coord) (e : exn) : Prop :=
  match e with
  | OutOfBounds c => c ∈ locs ∧ ¬ in_bounds g c
  | SearchError =>
      ∃ i j a b, i < j ∧ locs !! i = Some a ∧ locs !! j = Some b ∧ rta g a b = None
  | AssertionError =>
      ∃ i j a b r, i < j ∧ locs !! i = Some a ∧ locs !! j = Some b ∧
                   rta g a b = Some r ∧ (r.2 ≤ 0)%Z
  | _ => False
  end.

(** Both endpoints of every search in the list are inside the grid. *)
Definition calls_in_bounds (g : grid) (calls : list (coord * coord)) : Prop :=
  Forall (λ c, in_bounds g c.1 ∧ in_bounds g c.2) calls.

(** How the precomputation ends when it raises: in a state of the same
    shape, all searches made so far between points of the grid, and for
    one of the three reasons of [pre_failure]. *)
Definition pre_raise (rta : grid → coord → coord → option (path * Z))
    (w0 : world) (g : grid) (locs : list coord) (e : exn) (w : world) : Prop :=
  (∃ T E Ds cs, pre_state w0 T E Ds cs w ∧ calls_in_bounds g cs) ∧
  pre_failure rta g locs e.

(** *** The cache file at construction *)

(** The entries the cache file holds when reading it is a miss for the
    hash [h]: none when the file is missing or empty, and those of the
    pickled dict when it has no entry for [h]. *)
Definition cache_miss (h : string) (f : option file)
    (data0 : gmap string cache_entry) : Prop :=
  match f with
  | None | Some EmptyFile => data0 = ∅
  | Some (Pickled data) => data0 = data ∧ data !! h = None
  | Some Corrupt => False
  end.

(** The instance as the top of [__init__] leaves it, in a world whose heap
    had [n] objects before. *)
Definition initial_self (sha : list coord → string) (map_image : grid)
    (locations : list coord) (n : nat) : Pathplanner :=
  MkPathplanner (cost_grid map_image) locations (sha locations) (length locations)
    n (S n) None.

(** The world in which [__init__] starts reading the cache. *)
Definition initial_world (sha : list coord → string) (map_image : grid)
    (locations : list coord) (w : world) : world :=
  World (Some (initial_self sha map_image locations (length (heap w))))
    (heap w ++ [OList []; OTable ∅]) (cache_file w) (searches w).

(** The planner's two tables as values: the distance list and the path
    table with every inner dict read through the heap; [None] unless the
    references are well formed. *)
Definition tables_view (w : world) : option (list edge * gmap nat (gmap nat path)) :=
  match planner w with
  | None => None
  | Some self =>
      match heap w !! inter_product_distances self,
            heap w !! inter_product_paths self with
      | Some (OList l), Some (OTable t) =>
          if decide (wf_table (heap w) (inter_product_paths self))
          then Some (l, pickle_table (heap w) t) else None
      | _, _ => None
      end
  end.

(** *** Invariants of the planner *)

(** A distance tuple between two regular stops: node 0, the current
    position, is not in it, and the lower index comes first. *)
Definition edge_clean (e : edge) : Prop := 1 ≤ e.1.1 ∧ e.1.1 < e.1.2.

(** Pairwise tables in which no tuple and no segment involves node 0. *)
Definition entry_clean (en : cache_entry) : Prop :=
  Forall edge_clean (product_distances en) ∧
  ∀ i m j, product_paths en !! i = Some m → is_Some (m !! j) → 1 ≤ i ∧ i < j.

Definition cache_clean (f : option file) : Prop :=
  match f with
  | Some (Pickled data) => ∀ h en, data !! h = Some en → entry_clean en
  | _ => True
  end.

(** The invariant: the persisted cache is clean, and a constructed planner
    counts its stops right and holds well-formed, clean tables. *)
Definition planner_inv (w : world) : Prop :=
  cache_clean (cache_file w) ∧
  match planner w with
  | None => True
  | Some self =>
      num_products self = length (product_locations self) ∧
      ∃ l t, tables_view w = Some (l, t) ∧ entry_clean (CacheEntry l t)
  end.

(** The states the program can be in: it starts without a cache file; a
    process may be restarted, which keeps only the file; a planner may be
    constructed; and the planner may be queried.  Constructions and queries
    that raise count as well. *)
Inductive reachable (rta : grid → coord → coord → option (path * Z))
    (ga : list edge → nat → option (list nat)) (sha : list coord → string)
    : world → Prop :=
| reach_boot : reachable rta ga sha (World None [] None [])
| reach_restart w :
    reachable rta ga sha w → reachable rta ga sha (World None [] (cache_file w) [])
| reach_init w map_image locations :
    reachable rta ga sha w →
    reachable rta ga sha (final (__init__ rta sha map_image locations w))
| reach_query w user_loc selected end_at_id :
    reachable rta ga sha w →
    reachable rta ga sha (final (get_path rta ga user_loc selected end_at_id w)).

(** A query: current position, requested stops, mandatory end. *)
Definition query : Type := coord * list nat * nat.

(** The state after a sequence of queries. *)
Definition after_queries (rta : grid → coord → coord → option (path * Z))
    (ga : list edge → nat → option (list nat)) (qs : list query) (w : world) : world :=
  foldl (λ w q, final (get_path rta ga q.1.1 q.1.2 q.2 w)) w qs.

(** The cell of a two-dimensional array. *)
Definition cell (g : grid) (r c : nat) : option Z := g !! r ≫= λ row, row !! c.

(** Clamping as the specification words it. *)
Definition spec_clamp (x lo hi : Z) : Z := Z.max lo (Z.min x hi).

(** Computations that never raise the error of [raise_if_out_of_bounds]. *)
Definition no_bounds_error {A} (m : M A) : Prop :=
  ∀ w e w', m w = Raise e w' → ∀ c, e ≠ OutOfBounds c.

(** *** The steps of a query, described as values *)

(** The distance tuples [_filter_dists] keeps, as a value: the tuples whose
    two nodes are both selected, each node replaced by its first position
    in the selection. *)
Definition filter_edges (selected_product_ids : list nat) (l : list edge) : list edge :=
  omap (λ e : edge,
          a ← list_index e.1.1 selected_product_ids;
          b ← list_index e.1.2 selected_product_ids;
          Some (a, b, e.2)) l.

(** The nodes that occur in a list of distance tuples. *)
Definition is_node (l : list edge) (i : nat) : Prop :=
  ∃ e : edge, e ∈ l ∧ (e.1.1 = i ∨ e.1.2 = i).

(** The largest node of a list of distance tuples. *)
Definition is_max_node (l : list edge) (m : nat) : Prop :=
  is_node l m ∧ ∀ e : edge, e ∈ l → e.1.1 ≤ m ∧ e.1.2 ≤ m.

(** The entries of the cache file as [_store_distance_and_paths] reads
    them: those of the pickled dict, none when the file is missing or
    empty. *)
Definition cache_entries (f : option file) : gmap string cache_entry :=
  match f with
  | Some (Pickled data) => data
  | _ => ∅
  end.

(** The segment a query walks from node [a] to node [b], in terms of the
    state [w] the query starts in: from the current position to stop [b]
    it is the path the search returns for the location of [b]; between two
    stops it is the segment of the planner's table, reversed when the
    table has it the other way round. *)
Definition query_segment (rta : grid → coord → coord → option (path * Z))
    (w : world) (self : Pathplanner) (user_loc : coord) (a b : nat) : option path :=
  if decide (a = user_position_id) then
    if decide (1 ≤ b) then
      (λ loc, (search_result rta (self_map self) user_loc loc).1) <$>
        product_locations self !! (b - 1)
    else None
  else segment (heap w) (inter_product_paths self) a b.

(** A planner whose tables hold a segment for every pair of registered
    stops, the lower index first. *)
Definition tables_complete (w : world) (self : Pathplanner) : Prop :=
  num_products self = length (product_locations self) ∧
  is_Some (tables_view w) ∧
  ∀ i j, 1 ≤ i → i < j → j ≤ length (product_locations self) →
         is_Some (stored (heap w) (inter_product_paths self) i j).

(** The segment from node [a] to node [b] in terms of the searches alone,
    for a planner whose tables were computed on the grid [g] for the stops
    [locs]: from the current position the search from [user_loc]; between
    two stops the search from the stop of lower index to the other one,
    reversed when [a] has the higher index. *)
Definition search_segment (rta : grid → coord → coord → option (path * Z))
    (g : grid) (locs : list coord) (user_loc : coord) (a b : nat) : option path :=
  if decide (a = user_position_id) then
    if decide (1 ≤ b) then
      (λ loc, (search_result rta g user_loc loc).1) <$> locs !! (b - 1)
    else None
  else if decide (a < b) then
    ca ← locs !! (a - 1); cb ← locs !! (b - 1);
    Some (search_result rta g ca cb).1
  else if decide (1 ≤ b ∧ b < a) then
    ca ← locs !! (a - 1); cb ← locs !! (b - 1);
    Some (reverse (search_result rta g cb ca).1)
  else None.

(** The segment from node [a] to node [b] for a planner that took its
    tables from the cache: from the current position the search on the
    planner's own grid, between two stops the search on the grid for which
    the tables were computed. *)
Definition cached_segment (rta' : grid → coord → coord → option (path * Z)) (g' : grid)
    (rta : grid → coord → coord → option (path * Z)) (g : grid)
    (locs : list coord) (user_loc : coord) (a b : nat) : option path :=
  if decide (a = user_position_id) then search_segment rta' g' locs user_loc a b
  else search_segment rta g locs user_loc a b.

(** ** Reasoning about the monad *)

Lemma wp_bind {A B} (m : M A) (f : A → M B) Q R w :
  wp (m ≫= f) Q R w ↔ wp m (λ a, wp (f a) Q R) R w.
Proof. unfold wp, mbind, M_bind. destruct (m w); reflexivity. Qed.

Lemma wp_ret {A} (a : A) Q R w : wp (mret a) Q R w ↔ Q a w.
Proof. reflexivity. Qed.

Lemma wp_raise {A} e (Q : A → world → Prop) R w : wp (raise e) Q R w ↔ R e w.
Proof. reflexivity. Qed.

Lemma wp_mono {A} (m : M A) (Q Q' : A → world → Prop) (R R' : exn → world → Prop) w :
  wp m Q R w → (∀ a w', Q a w' → Q' a w') → (∀ e w', R e w' → R' e w') →
  wp m Q' R' w.
Proof. unfold wp. destruct (m w); auto. Qed.

Lemma bind_Ok {A B} (m : M A) (f : A → M B) w b w2 :
  (m ≫= f) w = Ok b w2 ↔ ∃ a w1, m w = Ok a w1 ∧ f a w1 = Ok b w2.
Proof.
  unfold mbind, M_bind. destruct (m w) as [a w1|e w1]; split.
  - eauto.
  - intros (? & ? & [= -> ->] & ?); done.
  - done.
  - intros (? & ? & ? & ?); done.
Qed.

(** ** Stitching *)

Lemma table_get2_run h_w paths a b :
  wf_table (heap h_w) paths →
  table_get2 paths a b h_w =
    match stored (heap h_w) paths a b with
    | Some p => Ok p h_w
    | None => Raise KeyError h_w
    end.
Proof.
  unfold wf_table. intros Hwf.
  unfold table_get2, table_get, read_table, read_dict, get_obj, stored,
    mbind, M_bind, mret, M_ret, raise.
  destruct (heap h_w !! paths) as [[| |t]|]; try done.
  destruct (t !! a) as [d|] eqn:Ha; [|done].
  destruct (Hwf _ _ Ha) as (m & Hm).
  destruct (heap h_w !! d) as [[|m'|]|]; try done.
  by destruct (m' !! b).
Qed.

Lemma route_to_path_loop_run w paths acc start targets :
  wf_table (heap w) paths →
  _route_to_path_loop paths acc start targets w =
    match segments (segment (heap w) paths) start targets with
    | Some ps => Ok (acc ++ concat ps) w
    | None => Raise KeyError w
    end.
Proof.
  intros Hwf. revert acc start.
  induction targets as [|t rest IH]; intros acc start; simpl.
  - by rewrite app_nil_r.
  - unfold mbind, M_bind, try_except at 1.
    rewrite !table_get2_run by done. unfold segment at 1.
    destruct (stored (heap w) paths start t) as [p|] eqn:Hst.
    + rewrite IH. destruct (segments _ t rest); [|done].
      by rewrite <- app_assoc.
    + simpl. unfold mbind, M_bind. rewrite table_get2_run by done.
      destruct (stored (heap w) paths t start) as [p|] eqn:Hts; simpl; [|done].
      rewrite IH. destruct (segments _ t rest); [|done].
      by rewrite <- app_assoc.
Qed.

(** C2, as stated, fails: on the planner built for three stops the route
    [1; 2; 3] is stitched to a path in which the junction coordinate of
    the two segments occurs twice, so it differs from the concatenation
    with the duplicated boundary coordinate removed. *)
Lemma C2_junction_kept :
  ∃ ps, segments (segment (heap Demo.world3) 4) 1 [2; 3] = Some ps ∧
        _route_to_path [1; 2; 3] 4 Demo.world3 = Ok (concat ps) Demo.world3 ∧
        concat ps ≠ spec_stitch ps.
Proof.
  eexists. split; [vm_compute; reflexivity|]. split; [vm_compute; reflexivity|].
  vm_compute. discriminate.
Qed.

(** C2, amended: for every route and well-formed segment table,
    [_route_to_path] takes for each consecutive pair [(a, b)] the stored
    segment for [(a, b)], else the reversed stored segment for [(b, a)],
    and returns the plain concatenation of these segments, nothing removed;
    it raises [KeyError] when a pair is stored in neither direction, and
    leaves the state as it was. *)
Theorem C2_route_to_path_concat w paths start targets :
  wf_table (heap w) paths →
  _route_to_path (start :: targets) paths w =
    match segments (segment (heap w) paths) start targets with
    | Some ps => Ok (concat ps) w
    | None => Raise KeyError w
    end.
Proof. intros Hwf. simpl. by rewrite route_to_path_loop_run. Qed.

Lemma C2_route_to_path_concat_witness :
  wf_table (heap Demo.world3) 4 ∧
  _route_to_path [1; 2; 3] 4 Demo.world3 =
    Ok ([(0, 0); (1, 1); (2, 2); (3, 3); (4, 4)] ++ [(4, 4); (3, 3); (2, 2)])%Z
       Demo.world3.
Proof.
  assert (Hwf : wf_table (heap Demo.world3) 4)
    by (apply (bool_decide_unpack _); vm_compute; reflexivity).
  split; [exact Hwf|].
  rewrite (C2_route_to_path_concat Demo.world3 4 1 [2; 3] Hwf).
  vm_compute. reflexivity.
Defined.

(** The three-stop reading of C2: for a route [[a; b; c]] the result is
    the segment for [(a, b)] followed by the whole segment for [(b, c)]. *)
Corollary route_to_path_three w paths a b c p1 p2 :
  wf_table (heap w) paths →
  segment (heap w) paths a b = Some p1 →
  segment (heap w) paths b c = Some p2 →
  _route_to_path [a; b; c] paths w = Ok (p1 ++ p2) w.
Proof.
  intros Hwf H1 H2.
  change (_route_to_path [a; b; c] paths w)
    with (_route_to_path_loop paths [] a [b; c] w).
  rewrite route_to_path_loop_run by done.
  simpl. rewrite H1, H2. simpl. by rewrite app_nil_r.
Qed.

(** ** Frame rules *)

Lemma same_attrs_refl p : same_attrs p p.
Proof. destruct p; simpl; auto 10. Qed.

Lemma same_attrs_trans p q r : same_attrs p q → same_attrs q r → same_attrs p r.
Proof.
  destruct p, q, r; simpl; try tauto.
  intros (-> & -> & -> & -> & -> & ->) (-> & -> & -> & -> & -> & ->). auto 10.
Qed.

Lemma ext_refl w : ext w w.
Proof. repeat split; auto using same_attrs_refl. Qed.

Lemma ext_trans w0 w1 w2 : ext w0 w1 → ext w1 w2 → ext w0 w2.
Proof.
  intros (H1 & H2 & H3 & H4) (G1 & G2 & G3 & G4). repeat split.
  - by etrans.
  - congruence.
  - by eapply same_attrs_trans.
  - by etrans.
Qed.

Lemma prefix_insert_ge {A} (h0 h : list A) r o :
  h0 `prefix_of` h → length h0 ≤ r → h0 `prefix_of` <[r := o]> h.
Proof.
  intros [k ->] Hr. rewrite insert_app_r_alt by done. by eexists.
Qed.

Lemma ext_alloc w0 w o :
  ext w0 w → ext w0 (set_heap (heap w ++ [o]) w).
Proof.
  intros (H1 & H2 & H3 & H4). repeat split; simpl; auto.
  by apply prefix_app_r.
Qed.

Lemma ext_put w0 w r o :
  ext w0 w → length (heap w0) ≤ r → ext w0 (set_heap (<[r := o]> (heap w)) w).
Proof.
  intros (H1 & H2 & H3 & H4) Hr. repeat split; simpl; auto.
  by apply prefix_insert_ge.
Qed.

Lemma ext_log w0 w c : ext w0 w → ext w0 (log_search c w).
Proof.
  intros (H1 & H2 & H3 & H4). repeat split; simpl; auto.
  by apply prefix_app_r.
Qed.

Lemma ext_length w0 w : ext w0 w → length (heap w0) ≤ length (heap w).
Proof. intros (H1 & _). by apply prefix_length. Qed.

(** The loop rule: an invariant over the part of the list already
    processed. *)
Lemma wp_for_enumerate {A} (Inv : list A → world → Prop) i0 (l : list A)
    (body : nat → A → M unit) R w :
  Inv [] w →
  (∀ done x todo w', l = done ++ x :: todo → Inv done w' →
     wp (body (i0 + length done) x) (λ _, Inv (done ++ [x])) R w') →
  wp (for_enumerate i0 l body) (λ _, Inv l) R w.
Proof.
  revert Inv i0 w. induction l as [|x l IH]; intros Inv i0 w H0 Hstep.
  - exact H0.
  - simpl. apply wp_bind.
    pose proof (Hstep [] x l w eq_refl H0) as H1. simpl in H1.
    rewrite Nat.add_0_r in H1.
    eapply wp_mono; [exact H1| |auto].
    intros u w' Hw'. simpl in Hw'. clear u.
    apply (IH (λ done, Inv (x :: done)) (S i0) w' Hw').
    intros done y todo w'' -> Hinv.
    specialize (Hstep (x :: done) y todo w'' eq_refl Hinv).
    simpl in Hstep. rewrite Nat.add_succ_r in Hstep. exact Hstep.
Qed.

Lemma wp_alloc o (Q : loc → world → Prop) R w :
  Q (length (heap w)) (set_heap (heap w ++ [o]) w) → wp (alloc o) Q R w.
Proof. done. Qed.

Lemma wp_put_obj r o (Q : unit → world → Prop) R w :
  Q tt (set_heap (<[r := o]> (heap w)) w) → wp (put_obj r o) Q R w.
Proof. done. Qed.

Lemma wp_read_list r (Q : list edge → world → Prop) (R : exn → world → Prop) w :
  (∀ l, heap w !! r = Some (OList l) → Q l w) → R TypeError w →
  wp (read_list r) Q R w.
Proof.
  intros HQ HR. unfold wp, read_list, get_obj, mbind, M_bind.
  destruct (heap w !! r) as [[l| |]|]; simpl; auto.
Qed.

Lemma wp_read_table r (Q : gmap nat loc → world → Prop) (R : exn → world → Prop) w :
  (∀ t, heap w !! r = Some (OTable t) → Q t w) → R TypeError w →
  wp (read_table r) Q R w.
Proof.
  intros HQ HR. unfold wp, read_table, get_obj, mbind, M_bind.
  destruct (heap w !! r) as [[| |t]|]; simpl; auto.
Qed.

Lemma wp_read_dict r (Q : gmap nat path → world → Prop) (R : exn → world → Prop) w :
  (∀ d, heap w !! r = Some (ODict d) → Q d w) → R TypeError w →
  wp (read_dict r) Q R w.
Proof.
  intros HQ HR. unfold wp, read_dict, get_obj, mbind, M_bind.
  destruct (heap w !! r) as [[|d|]|]; simpl; auto.
Qed.

Lemma wp_list_append r e (Q : unit → world → Prop) (R : exn → world → Prop) w :
  (∀ l, heap w !! r = Some (OList l) →
        Q tt (set_heap (<[r := OList (l ++ [e])]> (heap w)) w)) →
  R TypeError w →
  wp (list_append r e) Q R w.
Proof.
  intros HQ HR. unfold list_append. apply wp_bind.
  apply wp_read_list; [|done]. intros l Hl. apply wp_put_obj. auto.
Qed.

Lemma wp_assert b (Q : unit → world → Prop) (R : exn → world → Prop) w :
  (b = true → Q tt w) → (b = false → R AssertionError w) → wp (assert b) Q R w.
Proof. destruct b; unfold wp; simpl; auto. Qed.

Lemma wp_get_self (Q : Pathplanner → world → Prop) (R : exn → world → Prop) w :
  (∀ self, planner w = Some self → Q self w) →
  (planner w = None → R AttributeError w) →
  wp get_self Q R w.
Proof.
  intros HQ HR. unfold wp, get_self. destruct (planner w); auto.
Qed.

Lemma wp_update_self f (Q : unit → world → Prop) (R : exn → world → Prop) w :
  (∀ self, planner w = Some self → Q tt (set_planner (f self) w)) →
  (planner w = None → R AttributeError w) →
  wp (update_self f) Q R w.
Proof.
  intros HQ HR. unfold wp, update_self. destruct (planner w); auto.
Qed.

(** ** Heap bookkeeping *)

Lemma lookup_app_at {A} (h l : list A) k : (h ++ l) !! (length h + k) = l !! k.
Proof. rewrite lookup_app_r by lia. f_equal. lia. Qed.

Lemma lookup_app_at0 {A} (h l : list A) : (h ++ l) !! length h = l !! 0.
Proof. rewrite <- (lookup_app_at h l 0). f_equal. lia. Qed.

Lemma lookup_app_at1 {A} (h l : list A) : (h ++ l) !! S (length h) = l !! 1.
Proof. rewrite <- (lookup_app_at h l 1). f_equal. lia. Qed.

Lemma lookup_app_at2 {A} (h l : list A) : (h ++ l) !! S (S (length h)) = l !! 2.
Proof. rewrite <- (lookup_app_at h l 2). f_equal. lia. Qed.

Lemma insert_app_at {A} (h l : list A) k x :
  <[length h + k := x]> (h ++ l) = h ++ <[k := x]> l.
Proof. apply insert_app_r. Qed.

Lemma insert_app_at0 {A} (h l : list A) x :
  <[length h := x]> (h ++ l) = h ++ <[0 := x]> l.
Proof. rewrite <- insert_app_at. f_equal. lia. Qed.

Lemma insert_app_at1 {A} (h l : list A) x :
  <[S (length h) := x]> (h ++ l) = h ++ <[1 := x]> l.
Proof. rewrite <- insert_app_at. f_equal. lia. Qed.

Lemma insert_app_at2 {A} (h l : list A) x :
  <[S (S (length h)) := x]> (h ++ l) = h ++ <[2 := x]> l.
Proof. rewrite <- insert_app_at. f_equal. lia. Qed.

Lemma length_snoc {A} (h : list A) x : length (h ++ [x]) = S (length h).
Proof. rewrite length_app. simpl. lia. Qed.

Lemma user_edges_snoc rta g uloc done x :
  user_edges rta g uloc (done ++ [x]) =
  user_edges rta g uloc done ++
    [(user_position_id, 1 + length done, (search_result rta g uloc x).2)].
Proof.
  unfold user_edges. rewrite imap_app. simpl. by rewrite Nat.add_0_r.
Qed.

Lemma user_calls_snoc uloc done x :
  user_calls uloc (done ++ [x]) = user_calls uloc done ++ [(uloc, x)].
Proof. unfold user_calls. by rewrite fmap_app. Qed.

Section Queries.

Variable route_through_array : grid → coord → coord → option (path * Z).
Variable genetic_alg : list edge → nat → option (list nat).

(** What [_calculate_user_product_routes] does: it copies the two tables
    into fresh objects, adds a fresh inner dict under [user_position_id],
    and appends one distance tuple per registered stop to the copy,
    calling the grid search once per stop. *)
Lemma calculate_user_product_routes_spec user_loc w self :
  planner w = Some self →
  wp (_calculate_user_product_routes route_through_array user_loc)
    (λ '(dists, paths) w',
      ∃ t l D,
        heap w !! inter_product_paths self = Some (OTable t) ∧
        heap w !! inter_product_distances self = Some (OList l) ∧
        paths = length (heap w) ∧ dists = S (length (heap w)) ∧
        heap w' = heap w ++
          [OTable (<[user_position_id := S (S (length (heap w)))]> t);
           OList (l ++ user_edges route_through_array (self_map self) user_loc
                         (product_locations self));
           ODict D] ∧
        planner w' = planner w ∧ cache_file w' = cache_file w ∧
        searches w' = searches w ++ user_calls user_loc (product_locations self))
    (λ e w', ext w w' ∧ (e = TypeError ∨ e = SearchError)) w.
Proof.
  intros Hself. unfold _calculate_user_product_routes.
  apply wp_bind, wp_get_self; [|congruence].
  intros self' Hself'. assert (self' = self) as -> by congruence. clear Hself'.
  unfold table_copy. rewrite !wp_bind.
  apply wp_read_table; [|split; [apply ext_refl|auto]].
  intros t Ht. apply wp_alloc. unfold list_copy. rewrite !wp_bind.
  apply wp_read_list; [|split; [apply ext_alloc, ext_refl|auto]].
  simpl. intros l Hl.
  assert (heap w !! inter_product_distances self = Some (OList l)) as Hl0.
  { destruct (decide (inter_product_distances self < length (heap w))).
    - by rewrite lookup_app_l in Hl.
    - rewrite lookup_app_r in Hl by lia.
      destruct (inter_product_distances self - length (heap w)); done. }
  clear Hl. apply wp_alloc. simpl.
  unfold table_set_new_dict. rewrite !wp_bind.
  rewrite <- app_assoc, length_snoc. simpl.
  apply wp_read_table.
  2:{ split; [|auto]. repeat split; simpl; auto using same_attrs_refl.
      by apply prefix_app_r. }
  simpl. rewrite lookup_app_at0. simpl. intros ? [= <-].
  apply wp_bind, wp_alloc. simpl. apply wp_put_obj. simpl.
  rewrite length_app. simpl.
  rewrite <- app_assoc. simpl. rewrite insert_app_at0. simpl.
  replace (length (heap w) + 2) with (S (S (length (heap w)))) by lia.
  set (t' := <[user_position_id := S (S (length (heap w)))]> t).
  rewrite wp_bind. eapply wp_mono.
  - apply (wp_for_enumerate (λ done w',
      ∃ D, heap w' = heap w ++
             [OTable t'; OList (l ++ user_edges route_through_array (self_map self)
                                       user_loc done); ODict D] ∧
           planner w' = planner w ∧ cache_file w' = cache_file w ∧
           searches w' = searches w ++ user_calls user_loc done)).
    + exists ∅. simpl. by rewrite !app_nil_r.
    + intros done x todo w' Hlist (D & Hh & Hp & Hc & Hs).
      assert (ext w w') as Hext.
      { repeat split; [rewrite Hh; by apply prefix_app_r|done|
          rewrite Hp; apply same_attrs_refl|rewrite Hs; by apply prefix_app_r]. }
      rewrite !wp_bind. unfold wp at 1, route_search.
      destruct (route_through_array (self_map self) user_loc x) as [[pth cost]|] eqn:Hrta.
      2:{ instantiate (1 := λ e w', ext w w' ∧ (e = TypeError ∨ e = SearchError)).
          simpl. split; [by apply ext_log|auto]. }
      simpl. unfold table_set2, table_get. rewrite !wp_bind.
      apply wp_read_table; [|split; [by apply ext_log|auto]].
      simpl. rewrite Hh. rewrite lookup_app_at0. simpl. intros ? [= <-].
      unfold t' at 1. rewrite lookup_insert_eq. rewrite wp_ret, wp_bind.
      apply wp_read_dict; [|split; [by apply ext_log|auto]].
      simpl. rewrite Hh. rewrite lookup_app_at2. simpl. intros ? [= <-].
      apply wp_put_obj. simpl. rewrite Hh. rewrite insert_app_at2. simpl.
      apply wp_list_append.
      2:{ simpl. split; [|auto]. repeat split; simpl;
            [by apply prefix_app_r|done|rewrite Hp; apply same_attrs_refl|].
          rewrite Hs, <- app_assoc. by apply prefix_app_r. }
      simpl. rewrite lookup_app_at1. simpl. intros ? [= <-].
      rewrite insert_app_at1. simpl.
      eexists. split; [|split; [done|split; [done|]]].
      * rewrite user_edges_snoc, app_assoc. unfold search_result. rewrite Hrta. done.
      * rewrite Hs, user_calls_snoc, app_assoc. done.
  - intros [] w' (D & Hh & Hp & Hc & Hs). rewrite wp_ret.
    exists t, l, D. repeat split; auto.
  - auto.
Qed.

Lemma fr_alloc w0 sl w o : fr w0 sl w → fr w0 sl (set_heap (heap w ++ [o]) w).
Proof. intros [H1 H2]. split; [by apply ext_alloc|done]. Qed.

Lemma fr_put w0 sl w r o :
  fr w0 sl w → length (heap w0) ≤ r → fr w0 sl (set_heap (<[r := o]> (heap w)) w).
Proof. intros [H1 H2] Hr. split; [by apply ext_put|done]. Qed.

Lemma fr_set_dummy w0 sl w self n :
  fr w0 sl w → planner w = Some self → fr w0 sl (set_planner (set_dummy_id n self) w).
Proof.
  intros [(H1 & H2 & H3 & H4) H5] Hp. repeat split; simpl; auto.
  eapply same_attrs_trans; [exact H3|]. rewrite Hp. simpl. auto 10.
Qed.

Lemma wp_list_append_fr w0 sl w r e :
  fr w0 sl w → length (heap w0) ≤ r →
  wp (list_append r e) (λ _, fr w0 sl) (λ _, fr w0 sl) w.
Proof.
  intros Hfr Hr. apply wp_list_append; [|done]. intros l _. by apply fr_put.
Qed.

Lemma filter_dists_frame w0 sl w sel dl :
  fr w0 sl w →
  wp (_filter_dists sel dl)
    (λ f w', fr w0 sl w' ∧ length (heap w0) ≤ f) (λ _, fr w0 sl) w.
Proof.
  intros Hfr. unfold _filter_dists. rewrite wp_bind. apply wp_alloc.
  pose proof (ext_length _ _ (proj1 Hfr)) as Hlen.
  rewrite wp_bind. apply wp_read_list; [|by apply fr_alloc].
  intros l _. rewrite wp_bind.
  eapply (wp_mono _ (λ _, fr w0 sl) _ (λ _, fr w0 sl)).
  - apply (wp_for_enumerate (λ _ w', fr w0 sl w')); [by apply fr_alloc|].
    intros done [[src target] dist] todo w' _ Hw'.
    destruct (_ && _); [|by rewrite wp_ret].
    destruct (list_index src sel); [|by rewrite wp_raise].
    destruct (list_index target sel); [|by rewrite wp_raise].
    by apply wp_list_append_fr.
  - intros ? w' Hw'. rewrite wp_ret. done.
  - auto.
Qed.

Lemma wp_get_max_index_fr w0 sl w dists (Q : nat → world → Prop) :
  fr w0 sl w → (∀ m, Q m w) →
  wp (_get_max_index_value_in_dists dists) Q (λ _, fr w0 sl) w.
Proof.
  intros Hfr HQ. unfold _get_max_index_value_in_dists. rewrite wp_bind.
  apply wp_read_list; [|done]. intros l _.
  destruct (np_max _); [by rewrite wp_ret|by rewrite wp_raise].
Qed.

Lemma insert_dummy_node_frame w0 sl w dists end_id :
  fr w0 sl w → length (heap w0) ≤ dists →
  wp (_insert_dummy_node dists end_id)
    (λ r w', fr w0 sl w' ∧ r = dists) (λ _, fr w0 sl) w.
Proof.
  intros Hfr Hd. unfold _insert_dummy_node, _get_indices_in_dist.
  rewrite !wp_bind. apply wp_read_list; [|done]. intros l _.
  rewrite wp_ret, wp_bind. apply wp_assert; [|done]. intros _.
  rewrite wp_bind. apply wp_get_max_index_fr; [done|]. intros m.
  rewrite wp_bind. apply wp_update_self; [|done]. intros self Hself.
  rewrite wp_bind. eapply wp_mono.
  - apply wp_list_append_fr; [by eapply fr_set_dummy|done].
  - intros ? w1 Hw1. simpl. rewrite wp_bind. eapply wp_mono.
    + apply wp_list_append_fr; [exact Hw1|exact Hd].
    + intros ? w2 Hw2. simpl. rewrite wp_ret. split; [exact Hw2|done].
    + auto.
  - auto.
Qed.

Lemma do_tsp_frame w0 sl w dist_list :
  fr w0 sl w → length (heap w0) ≤ dist_list →
  wp (_do_tsp genetic_alg dist_list) (λ _, fr w0 sl) (λ _, fr w0 sl) w.
Proof.
  intros Hfr Hd. unfold _do_tsp. rewrite wp_bind.
  apply wp_read_list; [|done]. intros l _.
  rewrite wp_bind. apply wp_put_obj.
  rewrite wp_bind. apply wp_get_max_index_fr; [by apply fr_put|]. intros m.
  rewrite wp_bind. apply wp_read_list; [|by apply fr_put]. intros l' _.
  destruct (genetic_alg _ _); [rewrite wp_ret|rewrite wp_raise]; by apply fr_put.
Qed.

(** *** Steps that only read *)

Lemma read_only_ret {A} (a : A) : read_only (mret a).
Proof. done. Qed.

Lemma read_only_raise {A} e : read_only (@raise A e).
Proof. done. Qed.

Lemma read_only_bind {A B} (m : M A) (f : A → M B) :
  read_only m → (∀ a, read_only (f a)) → read_only (m ≫= f).
Proof.
  intros Hm Hf w. unfold mbind, M_bind. specialize (Hm w).
  destruct (m w) as [a w'|e w']; simpl in *; subst; [apply Hf|done].
Qed.

Lemma read_only_try {A} (m h : M A) es :
  read_only m → read_only h → read_only (try_except m es h).
Proof.
  intros Hm Hh w. unfold try_except. specialize (Hm w).
  destruct (m w) as [a w'|e w']; simpl in *; subst; [done|].
  destruct (bool_decide _); [apply Hh|done].
Qed.

Lemma read_only_assert b : read_only (assert b).
Proof. by destruct b. Qed.

Lemma read_only_get_obj r : read_only (get_obj r).
Proof. intros w. unfold get_obj. by destruct (heap w !! r). Qed.

Lemma read_only_read_table r : read_only (read_table r).
Proof.
  apply read_only_bind; [apply read_only_get_obj|]. by intros [].
Qed.

Lemma read_only_read_dict r : read_only (read_dict r).
Proof.
  apply read_only_bind; [apply read_only_get_obj|]. by intros [].
Qed.

Lemma read_only_table_get2 r a b : read_only (table_get2 r a b).
Proof.
  unfold table_get2, table_get.
  apply read_only_bind.
  - apply read_only_bind; [apply read_only_read_table|].
    intros t. by destruct (t !! a).
  - intros d. apply read_only_bind; [apply read_only_read_dict|].
    intros m. by destruct (m !! b).
Qed.

Lemma read_only_route_to_path route paths : read_only (_route_to_path route paths).
Proof.
  destruct route as [|start targets]; [done|]. simpl.
  generalize (@nil coord) as acc. revert start.
  induction targets as [|t rest IH]; intros start acc; [done|]. simpl.
  apply read_only_bind; [|intros ?; apply IH].
  apply read_only_try; [apply read_only_table_get2|].
  apply read_only_bind; [apply read_only_table_get2|done].
Qed.

Lemma read_only_select_route_points sel route :
  read_only (select_route_points sel route).
Proof.
  induction route as [|rp rest IH]; [done|]. simpl.
  destruct (decide _); [|done].
  destruct (sel !! _); [|done].
  apply read_only_bind; [done|done].
Qed.

Lemma read_only_map_to_selected sel route :
  read_only (_map_to_selected_product_id_indices sel route).
Proof.
  destruct sel as [|s0 sel]; [done|]. simpl.
  apply read_only_bind; [apply read_only_assert|]. intros _.
  destruct (argmax _); [apply read_only_select_route_points|done].
Qed.

Lemma read_only_roll_route start_id end_id route :
  read_only (_roll_route start_id end_id route).
Proof.
  unfold _roll_route. destruct (list_index _ _); [|done].
  destruct (_ !! 1); [|done]. by destruct (decide _).
Qed.

Lemma wp_read_only {A} (m : M A) (Q : A → world → Prop) (R : exn → world → Prop) w :
  read_only m → (∀ a, Q a w) → (∀ e, R e w) → wp m Q R w.
Proof.
  intros Hm HQ HR. unfold wp. specialize (Hm w).
  destruct (m w); simpl in Hm; subst; auto.
Qed.

(** *** The frame of a query *)

(** Whatever a query does, and whether it returns or raises, every object
    that was in the heap before the call is unchanged, the cache file is
    unchanged, the instance keeps its attributes, and, when the query
    returns with a non-empty registry, its searches are exactly those from
    the current position to every registered stop. *)
Lemma get_path_frame user_loc selected end_at_id w :
  wp (get_path route_through_array genetic_alg user_loc selected end_at_id)
    (λ r w', ext w w' ∧
       ∀ self, planner w = Some self →
         if decide (num_products self = 0) then w' = w ∧ r = ([], [])
         else searches w' =
              searches w ++ user_calls user_loc (product_locations self))
    (λ _ w', ext w w') w.
Proof.
  unfold get_path. rewrite wp_bind.
  apply wp_get_self; [|intros; apply ext_refl]. intros self Hself.
  rewrite wp_bind. apply wp_assert; [|intros; apply ext_refl]. intros _.
  destruct (list_index end_at_id selected) as [end_idx|];
    [|rewrite wp_raise; apply ext_refl].
  destruct (decide (num_products self = 0)) as [Hn|Hn].
  { rewrite wp_ret. split; [apply ext_refl|]. intros self' Hself'.
    assert (self' = self) as -> by congruence. by rewrite decide_True. }
  rewrite wp_bind. eapply wp_mono.
  { by apply calculate_user_product_routes_spec. }
  2:{ intros e w' [H _]. exact H. }
  intros [dists paths] w1 (t & l & D & Ht & Hl & -> & -> & Hh & Hp & Hc & Hs).
  set (sl := searches w ++ user_calls user_loc (product_locations self)).
  assert (fr w sl w1) as Hfr.
  { split; [|done]. repeat split;
      [rewrite Hh; by apply prefix_app_r|done|rewrite Hp; apply same_attrs_refl|
       rewrite Hs; by apply prefix_app_r]. }
  assert (∀ (r : path * list nat) w', fr w sl w' →
    ext w w' ∧ ∀ self0, planner w = Some self0 →
      if decide (num_products self0 = 0) then w' = w ∧ r = ([], [])
      else searches w' = searches w ++ user_calls user_loc (product_locations self0))
    as Hdone.
  { intros r w' [Hext Hsl]. split; [done|]. intros self' Hself'.
    assert (self' = self) as -> by congruence. by rewrite decide_False. }
  rewrite wp_bind.
  eapply (wp_mono _ (λ f w', fr w sl w' ∧ length (heap w) ≤ f) _ (λ _, fr w sl)).
  { by apply filter_dists_frame. }
  2:{ intros e w' [H _]. exact H. }
  intros f w2 [Hw2 Hf]. rewrite wp_bind.
  eapply (wp_mono _ (λ r w', fr w sl w' ∧ r = f) _ (λ _, fr w sl)).
  { by apply insert_dummy_node_frame. }
  2:{ intros e w' [H _]. exact H. }
  intros ? w3 [Hw3 ->]. rewrite wp_bind.
  eapply (wp_mono _ (λ _, fr w sl) _ (λ _, fr w sl)).
  { by apply do_tsp_frame. }
  2:{ intros e w' [H _]. exact H. }
  intros route w4 Hw4. rewrite wp_bind.
  apply wp_read_only; [apply read_only_map_to_selected| |intros; apply Hw4].
  intros route'. rewrite wp_bind.
  apply wp_read_only; [apply read_only_roll_route| |intros; apply Hw4].
  intros rolled. rewrite wp_bind.
  apply wp_read_only; [apply read_only_route_to_path| |intros; apply Hw4].
  intros pth. rewrite wp_ret. by apply Hdone.
Qed.

End Queries.

(** ** The pairwise precomputation *)

Lemma shape_lookup_2 {A} (h0 : list A) a b c d ds :
  (h0 ++ a :: b :: c :: d :: ds) !! (length h0 + 2) = Some c.
Proof. by rewrite lookup_app_at. Qed.

Lemma shape_lookup_3 {A} (h0 : list A) a b c d ds :
  (h0 ++ a :: b :: c :: d :: ds) !! (length h0 + 3) = Some d.
Proof. by rewrite lookup_app_at. Qed.

Lemma shape_lookup_row {A} (h0 : list A) a b c d ds k :
  (h0 ++ a :: b :: c :: d :: ds) !! (length h0 + 4 + k) = ds !! k.
Proof. rewrite <- Nat.add_assoc. by rewrite lookup_app_at. Qed.

Lemma shape_insert_2 {A} (h0 : list A) a b c d ds x :
  <[length h0 + 2 := x]> (h0 ++ a :: b :: c :: d :: ds) = h0 ++ a :: b :: x :: d :: ds.
Proof. by rewrite insert_app_at. Qed.

Lemma shape_insert_3 {A} (h0 : list A) a b c d ds x :
  <[length h0 + 3 := x]> (h0 ++ a :: b :: c :: d :: ds) = h0 ++ a :: b :: c :: x :: ds.
Proof. by rewrite insert_app_at. Qed.

Lemma shape_insert_row {A} (h0 : list A) a b c d ds k x :
  <[length h0 + 4 + k := x]> (h0 ++ a :: b :: c :: d :: ds) =
  h0 ++ a :: b :: c :: d :: <[k := x]> ds.
Proof. rewrite <- Nat.add_assoc. by rewrite insert_app_at. Qed.

Lemma shape_length {A} (h0 : list A) a b c d ds :
  length (h0 ++ a :: b :: c :: d :: ds) = length h0 + 4 + length ds.
Proof. rewrite length_app. simpl. lia. Qed.

Lemma shape_snoc {A} (h0 : list A) a b c d ds x :
  (h0 ++ a :: b :: c :: d :: ds) ++ [x] = h0 ++ a :: b :: c :: d :: (ds ++ [x]).
Proof. by rewrite <- app_assoc. Qed.

Lemma lookup_snoc_last {A} (l : list A) x : (l ++ [x]) !! length l = Some x.
Proof. by rewrite lookup_app_at0. Qed.

Lemma insert_snoc_last {A} (l : list A) x y : <[length l := y]> (l ++ [x]) = l ++ [y].
Proof. by rewrite insert_app_at0. Qed.

Lemma wp_read_table_at r t (Q : gmap nat loc → world → Prop) (R : exn → world → Prop) w :
  heap w !! r = Some (OTable t) → Q t w → wp (read_table r) Q R w.
Proof.
  intros Hr HQ. unfold wp, read_table, get_obj, mbind, M_bind. by rewrite Hr.
Qed.

Lemma wp_read_dict_at r d (Q : gmap nat path → world → Prop) (R : exn → world → Prop) w :
  heap w !! r = Some (ODict d) → Q d w → wp (read_dict r) Q R w.
Proof.
  intros Hr HQ. unfold wp, read_dict, get_obj, mbind, M_bind. by rewrite Hr.
Qed.

Lemma wp_read_list_at r l (Q : list edge → world → Prop) (R : exn → world → Prop) w :
  heap w !! r = Some (OList l) → Q l w → wp (read_list r) Q R w.
Proof.
  intros Hr HQ. unfold wp, read_list, get_obj, mbind, M_bind. by rewrite Hr.
Qed.

Lemma wp_list_append_at r l e (Q : unit → world → Prop) (R : exn → world → Prop) w :
  heap w !! r = Some (OList l) →
  Q tt (set_heap (<[r := OList (l ++ [e])]> (heap w)) w) →
  wp (list_append r e) Q R w.
Proof.
  intros Hr HQ. unfold list_append. rewrite wp_bind.
  eapply wp_read_list_at; [done|]. by apply wp_put_obj.
Qed.

Lemma dict_of_snoc kvs k v : dict_of (kvs ++ [(k, v)]) = <[k := v]> (dict_of kvs).
Proof. unfold dict_of. by rewrite foldl_app. Qed.

Lemma row_edges_snoc rta g i ci done x :
  row_edges rta g i ci (done ++ [x]) =
  row_edges rta g i ci done ++ [(i, i + 1 + length done, (search_result rta g ci x).2)].
Proof. unfold row_edges. rewrite imap_app. simpl. by rewrite Nat.add_0_r. Qed.

Lemma row_paths_snoc rta g i ci done x :
  row_paths rta g i ci (done ++ [x]) =
  row_paths rta g i ci done ++ [(i + 1 + length done, (search_result rta g ci x).1)].
Proof. unfold row_paths. rewrite imap_app. simpl. by rewrite Nat.add_0_r. Qed.

Lemma row_calls_snoc ci done x :
  row_calls ci (done ++ [x]) = row_calls ci done ++ [(ci, x)].
Proof. unfold row_calls. by rewrite fmap_app. Qed.

Lemma rows_edges_snoc rta g locs done x :
  rows_edges rta g locs (done ++ [x]) =
  rows_edges rta g locs done ++
    row_edges rta g (1 + length done) x (drop (1 + length done) locs).
Proof.
  unfold rows_edges. rewrite imap_app, concat_app. simpl.
  by rewrite Nat.add_0_r, app_nil_r.
Qed.

Lemma rows_calls_snoc locs done x :
  rows_calls locs (done ++ [x]) =
  rows_calls locs done ++ row_calls x (drop (1 + length done) locs).
Proof.
  unfold rows_calls. rewrite imap_app, concat_app. simpl.
  by rewrite Nat.add_0_r, app_nil_r.
Qed.

Lemma rows_dicts_snoc rta g locs done x :
  rows_dicts rta g locs (done ++ [x]) =
  rows_dicts rta g locs done ++
    [dict_of (row_paths rta g (1 + length done) x (drop (1 + length done) locs))].
Proof. unfold rows_dicts. rewrite imap_app. simpl. by rewrite Nat.add_0_r. Qed.

Lemma rows_dicts_length rta g locs done :
  length (rows_dicts rta g locs done) = length done.
Proof. unfold rows_dicts. by rewrite length_imap. Qed.

Lemma pre_state_ext w0 T E Ds calls w : pre_state w0 T E Ds calls w → ext w0 w.
Proof.
  intros (Hh & Hp & Hc & Hs). repeat split.
  - rewrite Hh. by apply prefix_app_r.
  - done.
  - rewrite Hp. apply same_attrs_refl.
  - rewrite Hs. by apply prefix_app_r.
Qed.

Lemma pre_state_log w0 T E Ds calls w c :
  pre_state w0 T E Ds calls w →
  pre_state w0 T E Ds (calls ++ [c]) (log_search c w).
Proof.
  intros (Hh & Hp & Hc & Hs). repeat split; simpl; auto.
  by rewrite Hs, app_assoc.
Qed.

Section Precomputation.

Variable route_through_array : grid → coord → coord → option (path * Z).

Lemma wp_raise_if_out_of_bounds g c (Q : unit → world → Prop)
    (R : exn → world → Prop) w :
  (in_bounds g c → Q tt w) → (¬ in_bounds g c → R (OutOfBounds c) w) →
  wp (raise_if_out_of_bounds (np_shape g) c) Q R w.
Proof.
  intros HQ HR. unfold raise_if_out_of_bounds.
  case_bool_decide as Hb.
  - rewrite wp_raise. apply HR. unfold in_bounds. lia.
  - rewrite wp_ret. apply HQ. unfold in_bounds. lia.
Qed.

Lemma wp_route_search g a b (Q : path * Z → world → Prop) (R : exn → world → Prop) w :
  (∀ r, route_through_array g a b = Some r → Q r (log_search (a, b) w)) →
  (route_through_array g a b = None → R SearchError (log_search (a, b) w)) →
  wp (route_search route_through_array g a b) Q R w.
Proof.
  intros HQ HR. unfold wp, route_search.
  destruct (route_through_array g a b); auto.
Qed.

(** One row: the inner loop for stop [i] at [ci]. *)
Lemma inner_loop_spec w0 g locs T E Ds0 calls0 i pi ci targets w :
  T !! i = Some (length (heap w0) + 4 + length Ds0) →
  pre_state w0 T E (Ds0 ++ [∅]) calls0 w →
  calls_in_bounds g calls0 → in_bounds g ci →
  locs !! pi = Some ci →
  (∀ k c, targets !! k = Some c → locs !! (S pi + k) = Some c) →
  wp (for_enumerate (i + 1) targets
        (λ i_end loc_end,
          raise_if_out_of_bounds (np_shape g) loc_end;;
          '(path, cost) ← route_search route_through_array g ci loc_end;
          assert (bool_decide (cost > 0)%Z);;
          table_set2 (length (heap w0) + 2) i i_end path;;
          list_append (length (heap w0) + 3) (i, i_end, cost)))
    (λ _ w',
      pre_state w0 T (E ++ row_edges route_through_array g i ci targets)
        (Ds0 ++ [dict_of (row_paths route_through_array g i ci targets)])
        (calls0 ++ row_calls ci targets) w' ∧
      calls_in_bounds g (calls0 ++ row_calls ci targets))
    (pre_raise route_through_array w0 g locs) w.
Proof.
  intros HT Hst Hcb Hci Hpi Htg.
  apply (wp_for_enumerate (λ done w',
    pre_state w0 T (E ++ row_edges route_through_array g i ci done)
      (Ds0 ++ [dict_of (row_paths route_through_array g i ci done)])
      (calls0 ++ row_calls ci done) w' ∧
    calls_in_bounds g (calls0 ++ row_calls ci done))).
  { simpl. rewrite !app_nil_r. done. }
  intros done cj todo w' Htargets [Hst' Hcb'].
  assert (locs !! (S pi + length done) = Some cj) as Hpj.
  { apply Htg. rewrite Htargets. by apply list_lookup_middle. }
  assert (cj ∈ locs) as Hcjl by (by eapply list_elem_of_lookup_2).
  rewrite wp_bind. apply wp_raise_if_out_of_bounds.
  2:{ intros Hout. split; [eauto 10|]. simpl. done. }
  intros Hcj. rewrite wp_bind. apply wp_route_search.
  2:{ intros Hnone. split.
      - do 4 eexists. split; [by apply pre_state_log|].
        apply Forall_app. split; [done|]. by apply Forall_singleton.
      - simpl. exists pi, (S pi + length done), ci, cj.
        repeat split; auto. lia. }
  intros [pth cost] Hrta.
  assert (calls_in_bounds g ((calls0 ++ row_calls ci done) ++ [(ci, cj)])) as Hcb''.
  { apply Forall_app. split; [done|]. by apply Forall_singleton. }
  pose proof (pre_state_log _ _ _ _ _ _ (ci, cj) Hst') as Hst''.
  rewrite wp_bind. apply wp_assert.
  2:{ intros Hneg. split; [eauto 10|]. simpl.
      exists pi, (S pi + length done), ci, cj, (pth, cost).
      repeat split; auto; [lia|].
      apply bool_decide_eq_false in Hneg. simpl. lia. }
  intros Hpos. destruct Hst'' as (Hh & Hp & Hc & Hs).
  simpl in Hh, Hp, Hc, Hs.
  rewrite wp_bind. unfold table_set2, table_get. rewrite !wp_bind.
  eapply wp_read_table_at.
  { simpl. rewrite Hh. apply shape_lookup_2. }
  rewrite HT, wp_ret, wp_bind.
  eapply wp_read_dict_at.
  { simpl. rewrite Hh. simpl.
    rewrite shape_lookup_row, fmap_app, <- (length_fmap ODict).
    apply lookup_snoc_last. }
  apply wp_put_obj. simpl.
  eapply wp_list_append_at.
  { simpl. rewrite Hh. simpl. rewrite shape_insert_row. apply shape_lookup_3. }
  simpl. rewrite Hh. simpl. rewrite shape_insert_row, shape_insert_3.
  split.
  - repeat split; simpl; auto.
    + rewrite row_edges_snoc, row_paths_snoc, dict_of_snoc, app_assoc.
      unfold search_result. rewrite Hrta. simpl.
      rewrite !fmap_app. simpl. rewrite <- (length_fmap ODict Ds0) at 1.
      rewrite insert_snoc_last. done.
    + rewrite Hs, row_calls_snoc, !app_assoc. done.
  - rewrite row_calls_snoc, app_assoc. done.
Qed.

Lemma row_stops_subseteq (locs : list coord) : row_stops locs ⊆ locs.
Proof. apply subseteq_take. Qed.

(** What [_calculate_inter_product_routes] does when it returns: the two
    containers it returns are fresh, and their contents, the inner dicts
    and the searches made are those of [pair_edges], [rows_dicts] and
    [pair_calls]. *)
Lemma calculate_inter_product_routes_spec w self :
  planner w = Some self →
  wp (_calculate_inter_product_routes route_through_array)
    (λ '(dists, paths) w',
      dists = length (heap w) + 3 ∧ paths = length (heap w) + 2 ∧
      pre_state w
        (row_table (length (heap w) + 4) (length (row_stops (product_locations self))))
        (pair_edges route_through_array (self_map self) (product_locations self))
        (rows_dicts route_through_array (self_map self) (product_locations self)
           (row_stops (product_locations self)))
        (pair_calls (product_locations self)) w' ∧
      calls_in_bounds (self_map self) (pair_calls (product_locations self)))
    (pre_raise route_through_array w (self_map self) (product_locations self)) w.
Proof.
  intros Hself. unfold _calculate_inter_product_routes.
  rewrite wp_bind. apply wp_get_self; [|congruence].
  intros self' Hself'. assert (self' = self) as -> by congruence. clear Hself'.
  set (g := self_map self). set (locs := product_locations self).
  rewrite wp_bind. apply wp_alloc. rewrite wp_bind. apply wp_alloc.
  rewrite wp_bind. apply wp_alloc. rewrite wp_bind. apply wp_alloc. simpl.
  rewrite !length_snoc.
  replace (S (S (length (heap w)))) with (length (heap w) + 2) by lia.
  replace (S (length (heap w) + 2)) with (length (heap w) + 3) by lia.
  rewrite wp_bind.
  set (w1 := set_heap _ _).
  assert (pre_state w ∅ [] [] [] w1) as Hw1.
  { repeat split; simpl; rewrite ?app_nil_r; auto. by rewrite <- !app_assoc. }
  clearbody w1.
  eapply (wp_mono _ _ _ (pre_raise route_through_array w g locs)).
  - apply (wp_for_enumerate (λ done w',
      pre_state w (row_table (length (heap w) + 4) (length done))
        (rows_edges route_through_array g locs done)
        (rows_dicts route_through_array g locs done)
        (rows_calls locs done) w' ∧
      calls_in_bounds g (rows_calls locs done))).
    { split; [exact Hw1|constructor]. }
    intros done ci todo w' Hrows [(Hh & Hp & Hc & Hs) Hcb].
    assert (ci ∈ locs) as Hcil.
    { apply row_stops_subseteq. unfold row_stops. rewrite Hrows. set_solver. }
    unfold table_set_new_dict. rewrite !wp_bind.
    eapply wp_read_table_at.
    { rewrite Hh. apply shape_lookup_2. }
    rewrite wp_bind. apply wp_alloc. apply wp_put_obj. simpl.
    rewrite Hh. simpl. rewrite shape_snoc, shape_insert_2, shape_length.
    rewrite length_fmap, rows_dicts_length.
    rewrite wp_bind. apply wp_raise_if_out_of_bounds.
    2:{ intros Hout. split; [|done].
        eexists _, _, (rows_dicts route_through_array g locs done ++ [∅]), _.
        split; [|exact Hcb]. repeat split; simpl; rewrite ?fmap_app; eauto. }
    intros Hci. eapply wp_mono.
    + apply (inner_loop_spec w g locs
        (<[1 + length done := length (heap w) + 4 + length done]>
           (row_table (length (heap w) + 4) (length done)))
        (rows_edges route_through_array g locs done)
        (rows_dicts route_through_array g locs done)
        (rows_calls locs done) (1 + length done) (length done) ci
        (drop (1 + length done) locs)); try done.
      * rewrite rows_dicts_length. apply lookup_insert_eq.
      * repeat split; simpl; auto. by rewrite fmap_app.
      * apply (f_equal (λ l, l !! length done)) in Hrows.
        rewrite list_lookup_middle in Hrows by done.
        apply lookup_take_Some in Hrows. apply Hrows.
      * intros k c Hk. by rewrite lookup_drop in Hk.
    + intros [] w'' [Hst Hcb']. simpl.
      rewrite length_snoc, rows_edges_snoc, rows_dicts_snoc, rows_calls_snoc.
      split; [exact Hst|exact Hcb'].
    + auto.
  - intros [] w' [Hst Hcb]. rewrite wp_ret. repeat split; try done; apply Hst.
  - auto.
Qed.

End Precomputation.

(** ** The contents of the pairwise tables *)

Section Tables.

Variable rta : grid → coord → coord → option (path * Z).
Variable g : grid.

Lemma row_table_lookup r0 m i :
  row_table r0 m !! i = if decide (1 ≤ i ≤ m) then Some (r0 + (i - 1)) else None.
Proof.
  induction m as [|m IH]; simpl.
  - rewrite lookup_empty. case_decide; [lia|done].
  - destruct (decide (i = S m)) as [->|Hne].
    + rewrite lookup_insert_eq. rewrite decide_True by lia. f_equal. lia.
    + rewrite lookup_insert_ne by done. rewrite IH.
      repeat case_decide; try done; lia.
Qed.

Lemma row_dict_lookup_lt i ci targets j :
  j < i + 1 → dict_of (row_paths rta g i ci targets) !! j = None.
Proof.
  intros Hj. induction targets as [|x pre IH] using rev_ind; [done|].
  rewrite row_paths_snoc, dict_of_snoc, lookup_insert_ne by lia. done.
Qed.

Lemma row_dict_lookup i ci targets k :
  dict_of (row_paths rta g i ci targets) !! (i + 1 + k) =
  (λ cj, (search_result rta g ci cj).1) <$> targets !! k.
Proof.
  induction targets as [|x pre IH] using rev_ind; [done|].
  rewrite row_paths_snoc, dict_of_snoc.
  destruct (decide (k = length pre)) as [->|Hne].
  - rewrite lookup_insert_eq, lookup_snoc_last. done.
  - rewrite lookup_insert_ne by lia. rewrite IH.
    destruct (decide (k < length pre)).
    + by rewrite lookup_app_l.
    + rewrite !lookup_ge_None_2; [done| |lia]. rewrite length_snoc. lia.
Qed.

Lemma row_dict_lookup_Some i ci targets j p :
  dict_of (row_paths rta g i ci targets) !! j = Some p ↔
  ∃ k cj, j = i + 1 + k ∧ targets !! k = Some cj ∧
          p = (search_result rta g ci cj).1.
Proof.
  split.
  - intros Hj. destruct (decide (j < i + 1)) as [Hlt|Hge].
    + by rewrite row_dict_lookup_lt in Hj.
    + replace j with (i + 1 + (j - (i + 1))) in Hj by lia.
      rewrite row_dict_lookup in Hj.
      destruct (targets !! (j - (i + 1))) as [cj|] eqn:Hk; [|done].
      simpl in Hj. exists (j - (i + 1)), cj. split; [lia|]. split; congruence.
  - intros (k & cj & -> & Hk & ->). by rewrite row_dict_lookup, Hk.
Qed.

Lemma row_edges_elem i ci targets e :
  e ∈ row_edges rta g i ci targets ↔
  ∃ k cj, targets !! k = Some cj ∧ e = (i, i + 1 + k, (search_result rta g ci cj).2).
Proof.
  unfold row_edges. rewrite elem_of_lookup_imap. split.
  - intros (k & cj & -> & Hk). eauto.
  - intros (k & cj & Hk & ->). eauto.
Qed.

Lemma rows_edges_elem locs pre e :
  e ∈ rows_edges rta g locs pre ↔
  ∃ k ck k' cj, pre !! k = Some ck ∧ drop (1 + k) locs !! k' = Some cj ∧
    e = (1 + k, 1 + k + 1 + k', (search_result rta g ck cj).2).
Proof.
  induction pre as [|x pre IH] using rev_ind.
  - split; [by intros ?%elem_of_nil|]. by intros (k & ck & ? & ? & ? & _).
  - rewrite rows_edges_snoc, elem_of_app, IH, row_edges_elem. split.
    + intros [(k & ck & k' & cj & Hk & Hk' & ->)|(k' & cj & Hk' & ->)].
      * exists k, ck, k', cj. split; [|done].
        rewrite lookup_app_l; [done|]. by eapply lookup_lt_Some.
      * exists (length pre), x, k', cj. by rewrite lookup_snoc_last.
    + intros (k & ck & k' & cj & Hk & Hk' & ->).
      destruct (decide (k < length pre)) as [Hlt|Hge].
      * left. rewrite lookup_app_l in Hk by exact Hlt. eauto 10.
      * right. rewrite lookup_app_r in Hk by lia.
        destruct (k - length pre) as [|?] eqn:Hkd; [|done].
        simpl in Hk. injection Hk as <-.
        assert (k = length pre) as -> by lia. eauto.
Qed.

(** A distance tuple is listed exactly for the pairs [1 ≤ i < j ≤ N], with
    the cost the search returns for their locations. *)
Lemma pair_edges_elem locs i j c :
  (i, j, c) ∈ pair_edges rta g locs ↔
  ∃ ci cj, 1 ≤ i < j ∧ locs !! (i - 1) = Some ci ∧ locs !! (j - 1) = Some cj ∧
           c = (search_result rta g ci cj).2.
Proof.
  unfold pair_edges. rewrite rows_edges_elem. split.
  - intros (k & ck & k' & cj & Hk & Hk' & [= -> -> ->]).
    unfold row_stops in Hk. apply lookup_take_Some in Hk as [Hk _].
    rewrite lookup_drop in Hk'. exists ck, cj.
    split; [lia|]. split; [by replace (S k - 1) with k by lia|].
    split; [|done]. by replace (S (k + 1 + k') - 1) with (1 + k + k') by lia.
  - intros (ci & cj & Hij & Hi & Hj & ->).
    exists (i - 1), ci, (j - i - 1), cj. split.
    + unfold row_stops. apply lookup_take_Some. split; [done|].
      apply lookup_lt_Some in Hj. lia.
    + split.
      * rewrite lookup_drop. by replace (1 + (i - 1) + (j - i - 1)) with (j - 1) by lia.
      * repeat f_equal; lia.
Qed.

Lemma row_edges_length i ci targets :
  length (row_edges rta g i ci targets) = length targets.
Proof. unfold row_edges. by rewrite length_imap. Qed.

Lemma row_calls_length ci targets : length (row_calls ci targets) = length targets.
Proof. unfold row_calls. by rewrite length_fmap. Qed.

Lemma rows_edges_length locs pre :
  length pre ≤ length locs →
  2 * length (rows_edges rta g locs pre) + length pre * (length pre + 1) =
  2 * length pre * length locs.
Proof.
  induction pre as [|x pre IH] using rev_ind; [simpl; lia|].
  rewrite length_snoc. intros Hlen.
  rewrite rows_edges_snoc, length_app, row_edges_length, length_drop.
  specialize (IH ltac:(lia)). nia.
Qed.

Lemma rows_calls_length locs pre :
  length (rows_calls locs pre) = length (rows_edges rta g locs pre).
Proof.
  induction pre as [|x pre IH] using rev_ind; [done|].
  rewrite rows_calls_snoc, rows_edges_snoc, !length_app, IH.
  by rewrite row_calls_length, row_edges_length.
Qed.

Lemma row_stops_length (locs : list coord) :
  length (row_stops locs) = length locs - 1.
Proof. unfold row_stops. rewrite length_take. lia. Qed.

(** The number of searches: [N (N - 1) / 2]. *)
Lemma pair_edges_length locs :
  2 * length (pair_edges rta g locs) = length locs * (length locs - 1).
Proof.
  unfold pair_edges.
  pose proof (rows_edges_length locs (row_stops locs)) as H.
  rewrite row_stops_length in H. specialize (H ltac:(lia)).
  destruct (length locs) as [|n]; simpl in *; [lia|].
  rewrite Nat.sub_0_r in *. nia.
Qed.

Lemma row_edges_NoDup i ci targets :
  NoDup ((λ e : edge, e.1) <$> row_edges rta g i ci targets).
Proof.
  unfold row_edges. rewrite fmap_imap. apply NoDup_alt.
  intros a b x. rewrite !list_lookup_imap.
  destruct (targets !! a), (targets !! b); simpl; try done.
  intros [= <-] [= ?]. lia.
Qed.

(** Every pair is listed once. *)
Lemma rows_edges_NoDup locs pre :
  NoDup ((λ e : edge, e.1) <$> rows_edges rta g locs pre).
Proof.
  induction pre as [|x pre IH] using rev_ind; [constructor|].
  rewrite rows_edges_snoc, fmap_app. apply NoDup_app.
  split; [done|]. split; [|apply row_edges_NoDup].
  intros [i j] (e1 & He1 & Hin1)%list_elem_of_fmap (e2 & He2 & Hin2)%list_elem_of_fmap.
  apply rows_edges_elem in Hin1 as (k & ck & k' & cj & Hk & _ & ->).
  apply row_edges_elem in Hin2 as (k2 & cj2 & _ & ->).
  simpl in *. apply lookup_lt_Some in Hk.
  injection He1 as -> ->. injection He2 as ? ?. lia.
Qed.

(** The searches are those of the listed pairs, in the same order: search
    number [k] is between the locations of the two stops of tuple [k]. *)
Lemma rows_calls_edges locs pre :
  (∀ k ck, pre !! k = Some ck → locs !! k = Some ck) →
  rows_calls locs pre =
  (λ e : edge, (locs !!! (e.1.1 - 1), locs !!! (e.1.2 - 1))) <$>
    rows_edges rta g locs pre.
Proof.
  induction pre as [|x pre IH] using rev_ind; [done|].
  intros Hpre. rewrite rows_calls_snoc, rows_edges_snoc, fmap_app.
  rewrite IH.
  2:{ intros k ck Hk. apply Hpre. rewrite lookup_app_l; [done|].
      by eapply lookup_lt_Some. }
  f_equal. unfold row_calls, row_edges. rewrite fmap_imap, <- imap_const.
  apply imap_ext. intros k cj Hk. simpl.
  rewrite lookup_drop in Hk.
  replace (length pre - 0) with (length pre) by lia.
  replace (length pre + 1 + k - 0) with (1 + length pre + k) by lia.
  rewrite (list_lookup_total_correct _ _ _ Hk).
  assert (locs !! length pre = Some x) as Hx.
  { apply Hpre. apply lookup_snoc_last. }
  by rewrite (list_lookup_total_correct _ _ _ Hx).
Qed.

Lemma pair_calls_edges locs :
  pair_calls locs =
  (λ e : edge, (locs !!! (e.1.1 - 1), locs !!! (e.1.2 - 1))) <$>
    pair_edges rta g locs.
Proof.
  apply rows_calls_edges. intros k ck Hk.
  unfold row_stops in Hk. by apply lookup_take_Some in Hk as [Hk _].
Qed.

(** The segment stored for [(i, j)], once all rows are done. *)
Lemma pre_state_stored w0 locs E calls w i j p :
  pre_state w0 (row_table (length (heap w0) + 4) (length (row_stops locs))) E
    (rows_dicts rta g locs (row_stops locs)) calls w →
  stored (heap w) (length (heap w0) + 2) i j = Some p ↔
  ∃ ci cj, 1 ≤ i < j ∧ locs !! (i - 1) = Some ci ∧ locs !! (j - 1) = Some cj ∧
           p = (search_result rta g ci cj).1.
Proof.
  intros (Hh & _). unfold stored. rewrite Hh. simpl.
  rewrite shape_lookup_2, row_table_lookup.
  case_decide as Hi.
  - rewrite shape_lookup_row, list_lookup_fmap.
    unfold rows_dicts. rewrite list_lookup_imap.
    destruct (row_stops locs !! (i - 1)) as [ck|] eqn:Hk; simpl.
    + replace (S (i - 1)) with i by lia. rewrite row_dict_lookup_Some.
      unfold row_stops in Hk. apply lookup_take_Some in Hk as [Hk _]. split.
      * intros (k & cj & -> & Hkj & ->). rewrite lookup_drop in Hkj.
        exists ck, cj. split; [lia|]. split; [done|]. split; [|done].
        by replace (i + 1 + k - 1) with (i + k) by lia.
      * intros (ci & cj & Hij & Hci & Hcj & ->).
        assert (ci = ck) as -> by congruence.
        exists (j - i - 1), cj. split; [lia|]. split; [|done].
        rewrite lookup_drop. by replace (i + (j - i - 1)) with (j - 1) by lia.
    + apply lookup_ge_None in Hk. lia.
  - split; [done|]. intros (ci & cj & Hij & Hci & Hcj & _).
    apply lookup_lt_Some in Hcj. rewrite row_stops_length in Hi. lia.
Qed.

End Tables.

(** C7: for [N] registered stops the pairwise precomputation returns
    whenever every stop lies in the grid and every pair of stops has a path
    of positive cost, and whenever it returns, it has run exactly
    [N (N - 1) / 2] searches, one for each pair [i < j] in the order of the
    distance tuples, it lists every pair [1 ≤ i < j ≤ N] exactly once in
    the distance list it returns, and it stores a segment for [(i, j)]
    exactly when [i < j], that is, in one direction only, under the lower
    index as outer key. *)
Theorem C7_pairwise_precomputation
    (rta : grid → coord → coord → option (path * Z)) (w : world) (self : Pathplanner) :
  planner w = Some self →
  ((∀ c, c ∈ product_locations self → in_bounds (self_map self) c) →
   (∀ i j a b, i < j → product_locations self !! i = Some a →
      product_locations self !! j = Some b →
      ∃ r, rta (self_map self) a b = Some r ∧ (0 < r.2)%Z) →
   ∃ r w', _calculate_inter_product_routes rta w = Ok r w') ∧
  (∀ dists paths w',
     _calculate_inter_product_routes rta w = Ok (dists, paths) w' →
     ∃ edges calls,
       heap w' !! dists = Some (OList edges) ∧
       searches w' = searches w ++ calls ∧
       2 * length calls = length (product_locations self) * (length (product_locations self) - 1) ∧
       calls = (λ e : edge, (product_locations self !!! (e.1.1 - 1),
                             product_locations self !!! (e.1.2 - 1))) <$> edges ∧
       NoDup ((λ e : edge, e.1) <$> edges) ∧
       (∀ i j c, (i, j, c) ∈ edges ↔
          (1 ≤ i < j ∧ j ≤ length (product_locations self)) ∧
          c = (search_result rta (self_map self)
                 (product_locations self !!! (i - 1))
                 (product_locations self !!! (j - 1))).2) ∧
       (∀ i j p, stored (heap w') paths i j = Some p ↔
          (1 ≤ i < j ∧ j ≤ length (product_locations self)) ∧
          p = (search_result rta (self_map self)
                 (product_locations self !!! (i - 1))
                 (product_locations self !!! (j - 1))).1)).
Proof.
  intros Hself.
  pose proof (calculate_inter_product_routes_spec rta w self Hself) as Hwp.
  unfold wp in Hwp. split.
  - intros Hin Hpos.
    destruct (_calculate_inter_product_routes rta w) as [r w'|e w']; [eauto|].
    destruct Hwp as [_ Hfail]. exfalso. destruct e; simpl in Hfail; try done.
    + destruct Hfail as [Hl Hout]. by apply Hout, Hin.
    + destruct Hfail as (i & j & a & b & r & Hij & Ha & Hb & Hr & Hle).
      destruct (Hpos i j a b Hij Ha Hb) as (r' & Hr' & Hlt).
      assert (r' = r) as -> by congruence. lia.
    + destruct Hfail as (i & j & a & b & Hij & Ha & Hb & Hr).
      destruct (Hpos i j a b Hij Ha Hb) as (r' & Hr' & _). congruence.
  - intros dists paths w' Hrun. rewrite Hrun in Hwp.
    destruct Hwp as (-> & -> & Hst & Hcb).
    set (locs := product_locations self) in *. set (g := self_map self) in *.
    exists (pair_edges rta g locs), (pair_calls locs).
    split; [|split; [|split; [|split; [|split; [|split]]]]].
    + destruct Hst as (Hh & _). rewrite Hh. apply shape_lookup_3.
    + apply Hst.
    + unfold pair_calls. rewrite (rows_calls_length rta g).
      apply (pair_edges_length rta g).
    + apply pair_calls_edges.
    + apply rows_edges_NoDup.
    + intros i j c. rewrite pair_edges_elem. split.
      * intros (ci & cj & Hij & Hi & Hj & ->).
        pose proof (lookup_lt_Some _ _ _ Hj).
        rewrite (list_lookup_total_correct _ _ _ Hi),
          (list_lookup_total_correct _ _ _ Hj). split; [lia|done].
      * intros (Hij & ->).
        destruct (lookup_lt_is_Some_2 locs (i - 1)) as [ci Hi]; [lia|].
        destruct (lookup_lt_is_Some_2 locs (j - 1)) as [cj Hj]; [lia|].
        rewrite (list_lookup_total_correct _ _ _ Hi),
          (list_lookup_total_correct _ _ _ Hj).
        exists ci, cj. split; [lia|done].
    + intros i j p. rewrite (pre_state_stored rta g w locs _ _ w' i j p Hst). split.
      * intros (ci & cj & Hij & Hi & Hj & ->).
        pose proof (lookup_lt_Some _ _ _ Hj).
        rewrite (list_lookup_total_correct _ _ _ Hi),
          (list_lookup_total_correct _ _ _ Hj). split; [lia|done].
      * intros (Hij & ->).
        destruct (lookup_lt_is_Some_2 locs (i - 1)) as [ci Hi]; [lia|].
        destruct (lookup_lt_is_Some_2 locs (j - 1)) as [cj Hj]; [lia|].
        rewrite (list_lookup_total_correct _ _ _ Hi),
          (list_lookup_total_correct _ _ _ Hj).
        exists ci, cj. split; [lia|done].
Qed.

Lemma C7_pairwise_precomputation_witness :
  planner Demo.fresh_world3 = Some Demo.planner3 ∧
  ∃ r w', _calculate_inter_product_routes Demo.uniform_search Demo.fresh_world3 = Ok r w'.
Proof.
  split; [reflexivity|].
  apply (C7_pairwise_precomputation Demo.uniform_search Demo.fresh_world3
           Demo.planner3 eq_refl).
  - intros c Hc.
    apply (proj1 (Forall_forall (in_bounds (self_map Demo.planner3))
                    (product_locations Demo.planner3))); [|exact Hc].
    apply (bool_decide_unpack _). vm_compute. reflexivity.
  - intros [|[|[|i]]] [|[|[|j]]] a b Hij Ha Hb; simpl in Ha, Hb;
      try lia; try discriminate;
      injection Ha as <-; injection Hb as <-;
      (eexists; split; [vm_compute; reflexivity|simpl; lia]).
Defined.

(** ** Construction *)

Lemma wp_bind_run {A B} (m : M A) (f : A → M B) Q R w a w' :
  m w = Ok a w' → wp (f a) Q R w' → wp (m ≫= f) Q R w.
Proof. intros Hm Hf. apply wp_bind. unfold wp at 1. by rewrite Hm. Qed.

Lemma load_miss w self data0 :
  planner w = Some self →
  cache_miss (locations_hash self) (cache_file w) data0 →
  _load_distance_and_paths w = Ok false w.
Proof.
  intros Hself Hmiss. unfold cache_miss in Hmiss.
  unfold _load_distance_and_paths, get_self, path_exists, try_except, pickle_load,
    mbind, M_bind.
  destruct (cache_file w) as [[data| |]|] eqn:Hc;
    repeat (progress (rewrite ?Hself, ?Hc; simpl)); try done.
  destruct Hmiss as [-> Hmiss]. by rewrite Hmiss.
Qed.

Lemma load_corrupt w self :
  planner w = Some self → cache_file w = Some Corrupt →
  _load_distance_and_paths w = Raise UnpicklingError w.
Proof.
  intros Hself Hc.
  unfold _load_distance_and_paths, get_self, path_exists, try_except, pickle_load,
    mbind, M_bind.
  by repeat (progress (rewrite ?Hself, ?Hc; simpl)).
Qed.

Lemma load_hit w self data e :
  planner w = Some self → cache_file w = Some (Pickled data) →
  data !! locations_hash self = Some e →
  _load_distance_and_paths w =
    Ok true
      (World
         (Some (set_tables (length (heap w))
                  (S (length (heap w)) + length (map_to_list (product_paths e))) self))
         (heap w ++ [OList (product_distances e)] ++
            (ODict <$> (map_to_list (product_paths e)).*2) ++
            [OTable (list_to_map
               (zip (map_to_list (product_paths e)).*1
                    (seq (S (length (heap w)))
                         (length (map_to_list (product_paths e))))))])
         (cache_file w) (searches w)).
Proof.
  intros Hself Hc He.
  unfold _load_distance_and_paths, get_self, path_exists, try_except, pickle_load,
    mbind, M_bind.
  repeat (progress (rewrite ?Hself, ?Hc, ?He; simpl)).
  unfold update_self. simpl. rewrite Hself. simpl. rewrite ?Hc.
  rewrite !length_app, !length_fmap. simpl.
  rewrite <- !app_assoc. simpl.
  replace (length (heap w) + 1) with (S (length (heap w))) by lia.
  unfold mret, M_ret, set_planner, set_heap. simpl. by rewrite Hc.
Qed.

Lemma store_run w self l t data0 :
  planner w = Some self →
  cache_miss (locations_hash self) (cache_file w) data0 →
  heap w !! inter_product_distances self = Some (OList l) →
  heap w !! inter_product_paths self = Some (OTable t) →
  _store_distance_and_paths w =
    Ok tt (set_cache_file
             (Some (Pickled (<[locations_hash self :=
                                 CacheEntry l (pickle_table (heap w) t)]> data0))) w).
Proof.
  intros Hself Hmiss Hl Ht. unfold cache_miss in Hmiss.
  unfold _store_distance_and_paths, get_self, try_except, pickle_load, read_list,
    read_table, get_obj, get_heap, pickle_dump, mbind, M_bind.
  destruct (cache_file w) as [[data| |]|] eqn:Hc;
    repeat (progress (rewrite ?Hself, ?Hc, ?Hl, ?Ht; simpl)); try done.
  - destruct Hmiss as [-> _]. done.
  - by subst.
  - by subst.
Qed.

Section Construction.

Variable route_through_array : grid → coord → coord → option (path * Z).
Variable sha1_hexdigest : list coord → string.

(** The constructor first binds the attributes, then reads the cache. *)
Lemma init_start map_image locations w :
  __init__ route_through_array sha1_hexdigest map_image locations w =
  (_load_distance_and_paths ≫= λ loaded : bool,
     if negb loaded then
       _calculate_inter_product_routes route_through_array ≫= λ '(d, p),
         update_self (set_tables d p) ≫= λ _, _store_distance_and_paths
     else mret tt)
    (initial_world sha1_hexdigest map_image locations w).
Proof.
  unfold __init__, initial_world, initial_self, alloc, new_self, mbind, M_bind,
    _get_hash_of_locations, set_planner, set_heap.
  simpl. rewrite length_snoc, <- app_assoc. done.
Qed.

Lemma init_corrupt map_image locations w :
  cache_file w = Some Corrupt →
  __init__ route_through_array sha1_hexdigest map_image locations w =
  Raise UnpicklingError (initial_world sha1_hexdigest map_image locations w).
Proof.
  intros Hc. rewrite init_start. unfold mbind, M_bind at 1.
  by erewrite load_corrupt.
Qed.

Lemma init_hit map_image locations w data e :
  cache_file w = Some (Pickled data) →
  data !! sha1_hexdigest locations = Some e →
  ∃ w', __init__ route_through_array sha1_hexdigest map_image locations w = Ok tt w' ∧
        _load_distance_and_paths
          (initial_world sha1_hexdigest map_image locations w) = Ok true w'.
Proof.
  intros Hc He. rewrite init_start. unfold mbind, M_bind at 1.
  erewrite load_hit; [|done|exact Hc|exact He]. simpl. eauto.
Qed.

(** On a cache miss the constructor runs the precomputation, binds its
    result, and writes the store back with the new entry added. *)
Lemma init_miss map_image locations w data0 :
  cache_miss (sha1_hexdigest locations) (cache_file w) data0 →
  let w0 := initial_world sha1_hexdigest map_image locations w in
  let self0 := initial_self sha1_hexdigest map_image locations (length (heap w)) in
  wp (__init__ route_through_array sha1_hexdigest map_image locations)
    (λ _ w',
      ∃ w1 T E,
        T = row_table (length (heap w0) + 4) (length (row_stops locations)) ∧
        E = pair_edges route_through_array (cost_grid map_image) locations ∧
        pre_state w0 T E
          (rows_dicts route_through_array (cost_grid map_image) locations
             (row_stops locations))
          (pair_calls locations) w1 ∧
        calls_in_bounds (cost_grid map_image) (pair_calls locations) ∧
        w' = set_cache_file
               (Some (Pickled (<[sha1_hexdigest locations :=
                                   CacheEntry E (pickle_table (heap w1) T)]> data0)))
               (set_planner
                  (set_tables (length (heap w0) + 3) (length (heap w0) + 2) self0) w1))
    (pre_raise route_through_array w0 (cost_grid map_image) locations) w.
Proof.
  intros Hmiss w0 self0.
  assert (planner w0 = Some self0) as Hself0 by done.
  unfold wp. rewrite init_start. fold w0. fold (wp (A:=unit)).
  eapply wp_bind_run.
  { eapply (load_miss w0 self0 data0); [done|exact Hmiss]. }
  simpl. rewrite wp_bind.
  eapply wp_mono; [by apply (calculate_inter_product_routes_spec _ w0 self0)| |auto].
  intros [d p] w1 (-> & -> & Hst & Hcb). simpl.
  destruct Hst as (Hh & Hp & Hc & Hs).
  rewrite wp_bind. apply wp_update_self; [|rewrite Hp; done].
  rewrite Hp, Hself0. intros ? [= <-].
  set (w2 := set_planner _ w1).
  assert (_store_distance_and_paths w2 =
    Ok tt (set_cache_file
      (Some (Pickled (<[sha1_hexdigest locations :=
         CacheEntry (pair_edges route_through_array (cost_grid map_image) locations)
           (pickle_table (heap w2)
              (row_table (length (heap w0) + 4) (length (row_stops locations))))]>
         data0))) w2)) as Hstore.
  { apply (store_run w2
      (set_tables (length (heap w0) + 3) (length (heap w0) + 2) self0)).
    - done.
    - simpl. by rewrite Hc.
    - simpl. rewrite Hh. apply shape_lookup_3.
    - simpl. rewrite Hh. apply shape_lookup_2. }
  unfold wp. rewrite Hstore.
  eexists w1, _, _. split; [done|]. split; [done|].
  split; [by repeat split|]. split; [done|]. done.
Qed.

End Construction.

(** ** The planner's tables as values *)

Lemma pickle_table_lookup h t i :
  pickle_table h t !! i = t !! i ≫= λ r, h !! r ≫= as_dict.
Proof. unfold pickle_table. by rewrite lookup_omap. Qed.

Lemma pickle_table_stored h paths t i j :
  h !! paths = Some (OTable t) →
  (pickle_table h t !! i ≫= λ m, m !! j) = stored h paths i j.
Proof.
  intros Ht. unfold stored. rewrite Ht, pickle_table_lookup.
  destruct (t !! i) as [d|]; simpl; [|done].
  by destruct (h !! d) as [[| |]|].
Qed.

Lemma pickle_table_prefix h h' t :
  h `prefix_of` h' →
  map_Forall (λ _ d, is_Some (h !! d ≫= as_dict)) t →
  pickle_table h' t = pickle_table h t.
Proof.
  intros Hpre Hwf. apply map_eq. intros i. rewrite !pickle_table_lookup.
  destruct (t !! i) as [d|] eqn:Hd; simpl; [|done].
  destruct (Hwf _ _ Hd) as [m Hm].
  destruct (h !! d) as [o|] eqn:Ho; [|done].
  by rewrite (prefix_lookup_Some _ _ _ _ Ho Hpre).
Qed.

Lemma wf_table_prefix h h' paths :
  h `prefix_of` h' → wf_table h paths → wf_table h' paths.
Proof.
  intros Hpre. unfold wf_table.
  destruct (h !! paths) as [o|] eqn:Ho; [|done].
  rewrite (prefix_lookup_Some _ _ _ _ Ho Hpre).
  destruct o as [| |t]; try done.
  intros Hwf i d Hd. destruct (Hwf _ _ Hd) as [m Hm].
  destruct (h !! d) as [o|] eqn:Hod; [|done].
  by rewrite (prefix_lookup_Some _ _ _ _ Hod Hpre).
Qed.

(** The tables of the planner, read as values, are the same in every
    state that extends the current one. *)
Lemma tables_view_ext w w' v :
  ext w w' → tables_view w = Some v → tables_view w' = Some v.
Proof.
  intros (Hpre & _ & Hattrs & _). unfold tables_view, same_attrs in *.
  destruct (planner w) as [self|]; [|done].
  destruct (planner w') as [self'|]; [|done].
  destruct Hattrs as (_ & _ & _ & _ & <- & <-).
  destruct (heap w !! inter_product_distances self) as [[l| |]|] eqn:Hl; try done.
  destruct (heap w !! inter_product_paths self) as [[| |t]|] eqn:Ht; try done.
  rewrite (prefix_lookup_Some _ _ _ _ Hl Hpre), (prefix_lookup_Some _ _ _ _ Ht Hpre).
  case_decide as Hwf; [|done]. intros [= <-].
  rewrite decide_True by (by eapply wf_table_prefix).
  f_equal. f_equal. apply pickle_table_prefix; [done|].
  unfold wf_table in Hwf. by rewrite Ht in Hwf.
Qed.

Lemma tables_view_None_ext w w' :
  ext w w' → planner w = None → tables_view w' = None.
Proof.
  intros (_ & _ & Hattrs & _) Hp. unfold tables_view, same_attrs in *.
  rewrite Hp in Hattrs. by destruct (planner w').
Qed.

(** The empty tables bound at the top of [__init__]. *)
Lemma tables_view_initial w self h0 rest :
  planner w = Some self →
  heap w = h0 ++ OList [] :: OTable ∅ :: rest →
  inter_product_distances self = length h0 →
  inter_product_paths self = S (length h0) →
  tables_view w = Some ([], ∅).
Proof.
  intros Hself Hh Hd Hp.
  assert (heap w !! inter_product_distances self = Some (OList [])) as H1.
  { by rewrite Hh, Hd, lookup_app_at0. }
  assert (heap w !! inter_product_paths self = Some (OTable ∅)) as H2.
  { by rewrite Hh, Hp, lookup_app_at1. }
  unfold tables_view. rewrite Hself, H1, H2.
  rewrite decide_True.
  - unfold pickle_table. by rewrite omap_empty.
  - unfold wf_table. rewrite H2. apply map_Forall_empty.
Qed.

(** Reading back what [unpickle_entry] built gives the pickled value. *)
Lemma unpickle_view (h0 : list obj) (l : list edge) (m : gmap nat (gmap nat path)) :
  let kvs := map_to_list m in
  let T := list_to_map (zip kvs.*1 (seq (S (length h0)) (length kvs))) : gmap nat nat in
  let h := h0 ++ [OList l] ++ (ODict <$> kvs.*2) ++ [OTable T] in
  h !! length h0 = Some (OList l) ∧
  h !! (S (length h0) + length kvs) = Some (OTable T) ∧
  wf_table h (S (length h0) + length kvs) ∧
  pickle_table h T = m.
Proof.
  intros kvs T h.
  assert (h !! length h0 = Some (OList l)) as H1.
  { unfold h. by rewrite lookup_app_at0. }
  assert (h !! (S (length h0) + length kvs) = Some (OTable T)) as H2.
  { unfold h. rewrite (app_assoc h0), (app_assoc (h0 ++ _)).
    replace (S (length h0) + length kvs)
      with (length ((h0 ++ [OList l]) ++ (ODict <$> kvs.*2))).
    - by rewrite lookup_app_at0.
    - rewrite !length_app, !length_fmap. simpl. lia. }
  assert (∀ idx i v, kvs !! idx = Some (i, v) →
            T !! i = Some (S (length h0) + idx) ∧
            h !! (S (length h0) + idx) = Some (ODict v)) as Hidx.
  { intros idx i v Hk. split.
    - apply elem_of_list_to_map_1.
      + rewrite fst_zip by (rewrite length_fmap, length_seq; lia).
        apply NoDup_fst_map_to_list.
      + apply (list_elem_of_lookup_2 _ idx).
        rewrite lookup_zip_with, list_lookup_fmap, Hk. simpl.
        rewrite lookup_seq_lt by (by eapply lookup_lt_Some). done.
    - unfold h. rewrite (app_assoc h0).
      replace (S (length h0) + idx) with (length (h0 ++ [OList l]) + idx)
        by (rewrite length_snoc; lia).
      rewrite lookup_app_at.
      rewrite lookup_app_l by (rewrite !length_fmap; by eapply lookup_lt_Some).
      by rewrite !list_lookup_fmap, Hk. }
  assert (∀ i d, T !! i = Some d →
            ∃ idx v, kvs !! idx = Some (i, v) ∧ d = S (length h0) + idx) as Hinv.
  { intros i d Hd. destruct (m !! i) as [v|] eqn:Hm.
    - apply elem_of_map_to_list, list_elem_of_lookup_1 in Hm as [idx Hk].
      destruct (Hidx _ _ _ Hk) as [HT _]. exists idx, v. split; [done|congruence].
    - exfalso. assert (T !! i = None) as HN; [|congruence].
      apply not_elem_of_list_to_map_1.
      rewrite fst_zip by (rewrite length_fmap, length_seq; lia).
      intros ((i' & v) & -> & Hin)%list_elem_of_fmap.
      apply elem_of_map_to_list in Hin. simpl in Hm. congruence. }
  split; [done|]. split; [done|]. split.
  - unfold wf_table. rewrite H2. intros i d Hd.
    destruct (Hinv _ _ Hd) as (idx & v & Hk & ->).
    destruct (Hidx _ _ _ Hk) as [_ Hh]. rewrite Hh. by eexists.
  - apply map_eq. intros i. rewrite pickle_table_lookup.
    destruct (m !! i) as [v|] eqn:Hm.
    + apply elem_of_map_to_list, list_elem_of_lookup_1 in Hm as [idx Hk].
      destruct (Hidx _ _ _ Hk) as [HT Hh]. rewrite HT.
      change (h !! (S (length h0) + idx) ≫= as_dict = Some v). by rewrite Hh.
    + destruct (T !! i) as [d|] eqn:Hd; [|done].
      destruct (Hinv _ _ Hd) as (idx & v & Hk & ->).
      apply list_elem_of_lookup_2, elem_of_map_to_list in Hk. congruence.
Qed.

Lemma pre_state_wf w0 m E Ds calls w1 :
  pre_state w0 (row_table (length (heap w0) + 4) m) E Ds calls w1 →
  length Ds = m →
  wf_table (heap w1) (length (heap w0) + 2).
Proof.
  intros (Hh & _) Hlen. unfold wf_table. rewrite Hh. simpl.
  rewrite shape_lookup_2. intros i d Hd.
  rewrite row_table_lookup in Hd. case_decide as Hi; [|done].
  injection Hd as <-. rewrite shape_lookup_row, list_lookup_fmap.
  destruct (lookup_lt_is_Some_2 Ds (i - 1)) as [D HD]; [lia|].
  rewrite HD. by eexists.
Qed.

(** The tables the precomputation builds involve no node 0. *)
Lemma pre_state_entry_clean rta g w0 locs calls w1 :
  pre_state w0 (row_table (length (heap w0) + 4) (length (row_stops locs)))
    (pair_edges rta g locs) (rows_dicts rta g locs (row_stops locs)) calls w1 →
  entry_clean
    (CacheEntry (pair_edges rta g locs)
       (pickle_table (heap w1)
          (row_table (length (heap w0) + 4) (length (row_stops locs))))).
Proof.
  intros Hst. split; simpl.
  - apply Forall_forall. intros [[i j] c] Hin.
    apply pair_edges_elem in Hin as (ci & cj & Hij & _). unfold edge_clean. simpl. lia.
  - intros i m j Hm [p Hp].
    assert (stored (heap w1) (length (heap w0) + 2) i j = Some p) as Hs.
    { erewrite <- pickle_table_stored.
      - rewrite Hm. exact Hp.
      - destruct Hst as (Hh & _). rewrite Hh. apply shape_lookup_2. }
    apply (pre_state_stored rta g w0 locs _ _ w1 i j p Hst) in Hs
      as (ci & cj & Hij & _). lia.
Qed.

(** The tables bound on a cache hit are those of the entry. *)
Lemma tables_view_hit self h0 l (m : gmap nat (gmap nat path)) f sl :
  tables_view
    (World
       (Some (set_tables (length h0) (S (length h0) + length (map_to_list m)) self))
       (h0 ++ [OList l] ++ (ODict <$> (map_to_list m).*2) ++
          [OTable (list_to_map
             (zip (map_to_list m).*1
                  (seq (S (length h0)) (length (map_to_list m)))))])
       f sl) = Some (l, m).
Proof.
  destruct (unpickle_view h0 l m) as (H1 & H2 & H3 & H4).
  unfold tables_view, set_tables.
  cbn [planner heap inter_product_distances inter_product_paths].
  rewrite H1, H2. rewrite decide_True by done. by rewrite H4.
Qed.

(** ** The invariant *)

Lemma cache_cases (h : string) (f : option file) :
  f = Some Corrupt ∨
  (∃ data e, f = Some (Pickled data) ∧ data !! h = Some e) ∨
  (∃ data0, cache_miss h f data0).
Proof.
  destruct f as [[data| |]|]; simpl; eauto.
  destruct (data !! h) as [e|] eqn:He; eauto 10.
Qed.

Lemma entry_clean_empty : entry_clean (CacheEntry [] ∅).
Proof. split; simpl; [constructor|]. intros i m j Hm. by rewrite lookup_empty in Hm. Qed.

Lemma planner_inv_ext w w' : planner_inv w → ext w w' → planner_inv w'.
Proof.
  intros [Hc Hp] Hext. pose proof Hext as (_ & Hcf & Hattrs & _). split.
  - by rewrite Hcf.
  - unfold same_attrs in Hattrs.
    destruct (planner w) as [self|] eqn:Hself, (planner w') as [self'|] eqn:Hself';
      try done.
    destruct Hp as (Hn & l & t & Hv & Hclean).
    destruct Hattrs as (_ & <- & _ & <- & _). split; [done|].
    exists l, t. split; [|done]. by eapply tables_view_ext.
Qed.

Section Invariant.

Variable route_through_array : grid → coord → coord → option (path * Z).
Variable genetic_alg : list edge → nat → option (list nat).
Variable sha1_hexdigest : list coord → string.

Lemma get_path_ext user_loc selected end_at_id w :
  ext w (final (get_path route_through_array genetic_alg user_loc selected end_at_id w)).
Proof.
  pose proof (get_path_frame route_through_array genetic_alg user_loc selected
                end_at_id w) as H.
  unfold wp in H. destruct (get_path _ _ _ _ _ w); simpl; [apply H|exact H].
Qed.

Lemma tables_view_after_miss map_image locations w w1 :
  let w0 := initial_world sha1_hexdigest map_image locations w in
  let self0 := initial_self sha1_hexdigest map_image locations (length (heap w)) in
  let T := row_table (length (heap w0) + 4) (length (row_stops locations)) in
  let E := pair_edges route_through_array (cost_grid map_image) locations in
  pre_state w0 T E
    (rows_dicts route_through_array (cost_grid map_image) locations
       (row_stops locations))
    (pair_calls locations) w1 →
  ∀ f, tables_view
         (set_cache_file f
            (set_planner
               (set_tables (length (heap w0) + 3) (length (heap w0) + 2) self0) w1)) =
       Some (E, pickle_table (heap w1) T).
Proof.
  intros w0 self0 T E Hst f. pose proof Hst as (Hh & _).
  assert (heap w1 !! (length (heap w0) + 3) = Some (OList E)) as H1.
  { rewrite Hh. apply shape_lookup_3. }
  assert (heap w1 !! (length (heap w0) + 2) = Some (OTable T)) as H2.
  { rewrite Hh. apply shape_lookup_2. }
  unfold tables_view, set_cache_file, set_planner, set_tables.
  cbn [planner heap inter_product_distances inter_product_paths].
  rewrite H1, H2.
  rewrite decide_True; [done|].
  eapply pre_state_wf; [exact Hst|]. apply rows_dicts_length.
Qed.

(** Construction establishes the invariant, whatever was there before and
    however it ends. *)
Lemma planner_inv_init map_image locations w :
  cache_clean (cache_file w) →
  planner_inv (final (__init__ route_through_array sha1_hexdigest map_image locations w)).
Proof.
  intros Hc.
  destruct (cache_cases (sha1_hexdigest locations) (cache_file w))
    as [Hcor|[(data & e & Hf & He)|(data0 & Hmiss)]].
  - rewrite init_corrupt by done. simpl. split; [done|]. simpl.
    split; [done|]. exists [], ∅. split; [|apply entry_clean_empty].
    by eapply (tables_view_initial _ _ (heap w) []).
  - destruct (init_hit route_through_array sha1_hexdigest map_image locations
                w data e Hf He) as (w' & -> & Hload).
    erewrite load_hit in Hload; [|done|exact Hf|exact He].
    injection Hload as <-. cbn [final]. split; [done|].
    cbn [planner]. split; [done|].
    exists (product_distances e), (product_paths e). split.
    + apply tables_view_hit.
    + rewrite Hf in Hc. specialize (Hc _ _ He). by destruct e.
  - pose proof (init_miss route_through_array sha1_hexdigest map_image locations
                  w data0 Hmiss) as Hwp.
    simpl in Hwp. unfold wp in Hwp.
    destruct (__init__ _ _ _ _ w) as [[] w'|e w']; simpl.
    + destruct Hwp as (w1 & T & E & -> & -> & Hst & Hcb & ->).
      pose proof (pre_state_entry_clean _ _ _ _ _ _ Hst) as Hclean.
      split.
      * simpl. intros h en Hen. apply lookup_insert_Some in Hen as [[_ <-]|[_ Hen]].
        -- done.
        -- unfold cache_miss in Hmiss.
           destruct (cache_file w) as [[data| |]|]; try done.
           ++ destruct Hmiss as [-> _]. by eapply Hc.
           ++ subst. by rewrite lookup_empty in Hen.
           ++ subst. by rewrite lookup_empty in Hen.
      * simpl. split; [done|]. eexists _, _. split; [|exact Hclean].
        by apply tables_view_after_miss.
    + destruct Hwp as [(T & E & Ds & cs & (Hh & Hp & Hcf & Hs) & _) _]. split.
      * by rewrite Hcf.
      * rewrite Hp. simpl. split; [done|].
        exists [], ∅. split; [|apply entry_clean_empty].
        eapply (tables_view_initial _ _ (heap w)); [exact Hp| |done|done].
        rewrite Hh. simpl. by rewrite <- app_assoc.
Qed.

(** Every reachable state satisfies the invariant. *)
Lemma reachable_inv w :
  reachable route_through_array genetic_alg sha1_hexdigest w → planner_inv w.
Proof.
  induction 1 as [|w _ IH|w img locs _ IH|w uloc sel e _ IH].
  - by split.
  - split; [apply IH|done].
  - apply planner_inv_init, IH.
  - eapply planner_inv_ext; [exact IH|apply get_path_ext].
Qed.

End Invariant.

(** ** Queries and the planner's state *)

Lemma after_queries_ext rta ga qs w : ext w (after_queries rta ga qs w).
Proof.
  revert w. induction qs as [|q qs IH]; intros w; [apply ext_refl|].
  simpl. eapply ext_trans; [apply get_path_ext|apply IH].
Qed.

Lemma list_index_elem x l : x ∈ l → is_Some (list_index x l).
Proof.
  intros Hx. unfold list_index.
  destruct (list_find_elem_of (x =.) l x Hx eq_refl) as [[i y] Hf].
  rewrite Hf. by eexists.
Qed.

Lemma init_planner rta sha map_image locations w w' :
  __init__ rta sha map_image locations w = Ok tt w' →
  ∃ d p, planner w' =
    Some (set_tables d p (initial_self sha map_image locations (length (heap w)))).
Proof.
  intros Hrun.
  destruct (cache_cases (sha locations) (cache_file w))
    as [Hcor|[(data & e & Hf & He)|(data0 & Hmiss)]].
  - by rewrite init_corrupt in Hrun.
  - destruct (init_hit rta sha map_image locations w data e Hf He)
      as (w'' & Hinit & Hload).
    erewrite load_hit in Hload; [|done|exact Hf|exact He].
    rewrite Hinit in Hrun. injection Hrun as <-. injection Hload as <-. eauto.
  - pose proof (init_miss rta sha map_image locations w data0 Hmiss) as Hwp.
    simpl in Hwp. unfold wp in Hwp. rewrite Hrun in Hwp.
    destruct Hwp as (w1 & T & E & _ & _ & _ & _ & ->). simpl. eauto.
Qed.

Lemma cell_cost_grid map_image r c :
  cell (cost_grid map_image) r c = cost_of_intensity <$> cell map_image r c.
Proof.
  unfold cell, cost_grid. rewrite list_lookup_fmap.
  destruct (map_image !! r) as [row|]; simpl; [|done].
  by rewrite list_lookup_fmap.
Qed.

Lemma cell_Forall map_image (P : Z → Prop) r c v :
  Forall (Forall P) map_image → cell map_image r c = Some v → P v.
Proof.
  intros Hall Hc. unfold cell in Hc.
  destruct (map_image !! r) as [row|] eqn:Hr; [|done]. simpl in Hc.
  eapply Forall_lookup_1; [|exact Hc]. eapply Forall_lookup_1; [exact Hall|exact Hr].
Qed.

Lemma cost_of_intensity_clamp v :
  (0 ≤ v < 256)%Z → cost_of_intensity v = spec_clamp (255 - v) 1 255.
Proof.
  intros Hv. unfold cost_of_intensity, np_clip, uint8_rsub255, spec_clamp.
  rewrite Z.mod_small by lia. lia.
Qed.

(** C9: for an 8-bit image, every cell of the grid bound at construction is
    [clamp(255 − intensity, 1, 255)] of the image cell, hence between 1 and
    255 and no larger for a brighter pixel, and no sequence of queries
    changes the grid. *)
Theorem C9_cost_grid rta ga sha map_image locations w w' :
  Forall (Forall (λ v, (0 ≤ v < 256)%Z)) map_image →
  __init__ rta sha map_image locations w = Ok tt w' →
  ∃ self, planner w' = Some self ∧
    (∀ r c, cell (self_map self) r c =
            (λ v, spec_clamp (255 - v) 1 255) <$> cell map_image r c) ∧
    (∀ r c x, cell (self_map self) r c = Some x → (1 ≤ x ≤ 255)%Z) ∧
    (∀ r c r' c' v v' x x',
       cell map_image r c = Some v → cell map_image r' c' = Some v' →
       cell (self_map self) r c = Some x → cell (self_map self) r' c' = Some x' →
       (v ≤ v')%Z → (x' ≤ x)%Z) ∧
    (∀ qs, ∃ self', planner (after_queries rta ga qs w') = Some self' ∧
                    self_map self' = self_map self).
Proof.
  intros Himg Hrun.
  destruct (init_planner _ _ _ _ _ _ Hrun) as (d & p & Hself).
  eexists. split; [exact Hself|]. simpl.
  assert (∀ r c, cell (cost_grid map_image) r c =
                 (λ v, spec_clamp (255 - v) 1 255) <$> cell map_image r c) as Hcell.
  { intros r c. rewrite cell_cost_grid.
    destruct (cell map_image r c) as [v|] eqn:Hv; [|done]. simpl.
    f_equal. apply cost_of_intensity_clamp.
    by apply (cell_Forall map_image _ r c v Himg). }
  split; [exact Hcell|]. split; [|split].
  - intros r c x. rewrite Hcell.
    destruct (cell map_image r c) as [v|]; [|done].
    intros [= <-]. unfold spec_clamp. lia.
  - intros r c r' c' v v' x x' Hv Hv'. rewrite !Hcell, Hv, Hv'.
    intros [= <-] [= <-] Hle. unfold spec_clamp. lia.
  - intros qs. pose proof (after_queries_ext rta ga qs w') as (_ & _ & Hattrs & _).
    unfold same_attrs in Hattrs. rewrite Hself in Hattrs.
    destruct (planner (after_queries rta ga qs w')) as [self'|]; [|done].
    exists self'. split; [done|]. by destruct Hattrs as (<- & _).
Qed.

Lemma C9_cost_grid_witness :
  Forall (Forall (λ v, (0 ≤ v < 256)%Z)) Demo.uniform5 ∧
  ∃ self, planner Demo.world3 = Some self ∧
          cell (self_map self) 2 3 = Some 1%Z.
Proof.
  assert (Forall (Forall (λ v, (0 ≤ v < 256)%Z)) Demo.uniform5) as Himg.
  { apply (bool_decide_unpack _). vm_compute. reflexivity. }
  split; [exact Himg|].
  destruct (C9_cost_grid Demo.uniform_search Demo.exact_tsp Demo.no_hash
              Demo.uniform5 Demo.stops3 Demo.empty_world Demo.world3 Himg)
    as (self & Hself & Hcell & _).
  { vm_compute. reflexivity. }
  exists self. split; [exact Hself|]. rewrite Hcell. vm_compute. reflexivity.
Defined.

(** C10: a query leaves the planner's distance list and path table, read
    as values, unchanged, as it leaves every object that was in the heap
    before the call: all it writes to are objects it allocated itself (the
    copies and the filtered list); the cache file is not written either.
    This holds whether the query returns or raises. *)
Theorem C10_query_keeps_tables rta ga user_loc selected end_at_id w v :
  tables_view w = Some v →
  tables_view (final (get_path rta ga user_loc selected end_at_id w)) = Some v ∧
  (∀ r o, heap w !! r = Some o →
          heap (final (get_path rta ga user_loc selected end_at_id w)) !! r = Some o) ∧
  cache_file (final (get_path rta ga user_loc selected end_at_id w)) = cache_file w.
Proof.
  intros Hv. pose proof (get_path_ext rta ga user_loc selected end_at_id w) as Hext.
  split; [by eapply tables_view_ext|]. destruct Hext as (Hpre & Hc & _).
  split; [|done]. intros r o Ho. by eapply prefix_lookup_Some.
Qed.

Lemma C10_query_keeps_tables_witness :
  ∃ v, tables_view Demo.world3 = Some v ∧
       tables_view (final (get_path Demo.uniform_search Demo.exact_tsp (0, 4)%Z
                             [1; 2; 3] 3 Demo.world3)) = Some v.
Proof.
  eexists. split; [vm_compute; reflexivity|].
  apply (C10_query_keeps_tables Demo.uniform_search Demo.exact_tsp (0, 4)%Z
           [1; 2; 3] 3 Demo.world3).
  vm_compute. reflexivity.
Defined.

(** C8: in every reachable state in which the planner's registry is empty,
    a query whose mandatory end is among the requested stops returns the
    empty path and the empty visit order, raises nothing and changes
    nothing. *)
Theorem C8_empty_registry rta ga sha w self user_loc selected end_at_id :
  reachable rta ga sha w →
  planner w = Some self → product_locations self = [] →
  end_at_id ∈ selected →
  get_path rta ga user_loc selected end_at_id w = Ok ([], []) w.
Proof.
  intros Hreach Hself Hlocs Hend.
  pose proof (reachable_inv _ _ _ _ Hreach) as [_ Hinv].
  rewrite Hself in Hinv. destruct Hinv as [Hn _]. rewrite Hlocs in Hn. simpl in Hn.
  unfold get_path, get_self, mbind, M_bind. rewrite Hself.
  rewrite bool_decide_eq_true_2 by done. simpl.
  destruct (list_index_elem _ _ Hend) as [k ->].
  by rewrite decide_True.
Qed.

Lemma C8_empty_registry_witness :
  reachable Demo.uniform_search Demo.exact_tsp Demo.no_hash Demo.world0 ∧
  get_path Demo.uniform_search Demo.exact_tsp (0, 0)%Z [1; 2] 2 Demo.world0 =
    Ok ([], []) Demo.world0.
Proof.
  assert (reachable Demo.uniform_search Demo.exact_tsp Demo.no_hash Demo.world0)
    as Hreach.
  { apply (reach_init _ _ _ Demo.empty_world). apply reach_boot. }
  split; [exact Hreach|].
  eapply (C8_empty_registry _ _ _ _ _ _ _ _ Hreach).
  - vm_compute. reflexivity.
  - reflexivity.
  - set_solver.
Defined.

(** ** The cache at construction *)

Lemma pair_lookup_total (locs : list coord) i j (P : coord → coord → Prop) :
  (∃ ci cj, 1 ≤ i < j ∧ locs !! (i - 1) = Some ci ∧ locs !! (j - 1) = Some cj ∧
            P ci cj) ↔
  (1 ≤ i < j ∧ j ≤ length locs) ∧ P (locs !!! (i - 1)) (locs !!! (j - 1)).
Proof.
  split.
  - intros (ci & cj & Hij & Hi & Hj & HP).
    pose proof (lookup_lt_Some _ _ _ Hj).
    rewrite (list_lookup_total_correct _ _ _ Hi), (list_lookup_total_correct _ _ _ Hj).
    split; [lia|done].
  - intros (Hij & HP).
    destruct (lookup_lt_is_Some_2 locs (i - 1)) as [ci Hi]; [lia|].
    destruct (lookup_lt_is_Some_2 locs (j - 1)) as [cj Hj]; [lia|].
    rewrite (list_lookup_total_correct _ _ _ Hi),
      (list_lookup_total_correct _ _ _ Hj) in HP.
    exists ci, cj. split; [lia|done].
Qed.

Lemma pre_failure_good rta g locs e :
  (∀ c, c ∈ locs → in_bounds g c) →
  (∀ i j a b, i < j → locs !! i = Some a → locs !! j = Some b →
     ∃ r, rta g a b = Some r ∧ (0 < r.2)%Z) →
  ¬ pre_failure rta g locs e.
Proof.
  intros Hin Hpos Hfail. destruct e; simpl in Hfail; try done.
  - destruct Hfail as [Hl Hout]. by apply Hout, Hin.
  - destruct Hfail as (i & j & a & b & r & Hij & Ha & Hb & Hr & Hle).
    destruct (Hpos i j a b Hij Ha Hb) as (r' & Hr' & Hlt).
    assert (r' = r) as -> by congruence. lia.
  - destruct Hfail as (i & j & a & b & Hij & Ha & Hb & Hr).
    destruct (Hpos i j a b Hij Ha Hb) as (r' & Hr' & _). congruence.
Qed.

(** C3, as stated, fails: with a cache file that holds bytes on which
    [pickle.load] raises [UnpicklingError], the constructor raises that
    exception to its caller; nothing is recomputed (no search is made) and
    the file stays as it was. *)
Lemma C3_corrupt_store_raises :
  ∃ w', __init__ Demo.uniform_search Demo.no_hash Demo.uniform5 Demo.stops3
          (World None [] (Some Corrupt) []) = Raise UnpicklingError w' ∧
        cache_file w' = Some Corrupt ∧ searches w' = [].
Proof. eexists. split; [vm_compute; reflexivity|]. split; reflexivity. Qed.

(** C3, amended: when the cache file is missing, is empty, or is a pickled
    store without an entry for this stop-set hash, reading it is a cache
    miss and raises nothing.  Construction runs the full pairwise
    recomputation; it can raise only what the recomputation raises (a stop
    outside the grid, a failed search, a cost that is not positive), and
    it returns whenever all stops are in the grid and all pairs have a
    path of positive cost.  When it returns, the store holds the entries it
    held before plus an entry for this hash with the recomputed distance
    list and segment table, which are also the planner's tables. *)
Theorem C3_cache_miss_recomputes rta sha map_image locations w data0 :
  cache_miss (sha locations) (cache_file w) data0 →
  match __init__ rta sha map_image locations w with
  | Ok _ w' =>
      ∃ entry,
        cache_file w' = Some (Pickled (<[sha locations := entry]> data0)) ∧
        tables_view w' = Some (product_distances entry, product_paths entry) ∧
        product_distances entry = pair_edges rta (cost_grid map_image) locations ∧
        (∀ i j p, (product_paths entry !! i ≫= λ m, m !! j) = Some p ↔
           (1 ≤ i < j ∧ j ≤ length locations) ∧
           p = (search_result rta (cost_grid map_image)
                  (locations !!! (i - 1)) (locations !!! (j - 1))).1) ∧
        searches w' = searches w ++ pair_calls locations
  | Raise e _ => pre_failure rta (cost_grid map_image) locations e
  end ∧
  ((∀ c, c ∈ locations → in_bounds (cost_grid map_image) c) →
   (∀ i j a b, i < j → locations !! i = Some a → locations !! j = Some b →
      ∃ r, rta (cost_grid map_image) a b = Some r ∧ (0 < r.2)%Z) →
   ∃ w', __init__ rta sha map_image locations w = Ok tt w').
Proof.
  intros Hmiss.
  pose proof (init_miss rta sha map_image locations w data0 Hmiss) as Hwp.
  cbv zeta in Hwp. unfold wp in Hwp.
  destruct (__init__ rta sha map_image locations w) as [[] w'|e w'].
  - split; [|eauto].
    destruct Hwp as (w1 & T & E & -> & -> & Hst & Hcb & ->).
    eexists (CacheEntry _ _). split; [reflexivity|].
    split; [by apply tables_view_after_miss|]. split; [reflexivity|]. split.
    + intros i j p. cbn [product_paths].
      rewrite (pickle_table_stored _
        (length (heap (initial_world sha map_image locations w)) + 2)).
      2:{ destruct Hst as (Hh & _). rewrite Hh. apply shape_lookup_2. }
      rewrite (pre_state_stored rta (cost_grid map_image) _ locations _ _ w1 i j p Hst).
      apply (pair_lookup_total locations i j
               (λ ci cj, p = (search_result rta (cost_grid map_image) ci cj).1)).
    + destruct Hst as (_ & _ & _ & Hs). simpl. exact Hs.
  - destruct Hwp as [_ Hfail]. split; [exact Hfail|].
    intros Hin Hpos. exfalso. by eapply pre_failure_good.
Qed.

Lemma C3_cache_miss_recomputes_witness :
  cache_miss (Demo.no_hash Demo.stops3) (cache_file Demo.empty_world) ∅ ∧
  ∃ w', __init__ Demo.uniform_search Demo.no_hash Demo.uniform5 Demo.stops3
          Demo.empty_world = Ok tt w'.
Proof.
  assert (cache_miss (Demo.no_hash Demo.stops3) (cache_file Demo.empty_world) ∅)
    as Hmiss by reflexivity.
  split; [exact Hmiss|].
  apply (C3_cache_miss_recomputes Demo.uniform_search Demo.no_hash Demo.uniform5
           Demo.stops3 Demo.empty_world ∅ Hmiss).
  - intros c Hc.
    apply (proj1 (Forall_forall (in_bounds (cost_grid Demo.uniform5)) Demo.stops3));
      [|exact Hc].
    apply (bool_decide_unpack _). vm_compute. reflexivity.
  - intros [|[|[|i]]] [|[|[|j]]] a b Hij Ha Hb; simpl in Ha, Hb;
      try lia; try discriminate;
      injection Ha as <-; injection Hb as <-;
      (eexists; split; [vm_compute; reflexivity|simpl; lia]).
Defined.

(** ** Node 0 *)

Lemma user_edges_src rta g user_loc locs :
  Forall (λ e : edge, e.1.1 = user_position_id ∧ 1 ≤ e.1.2)
    (user_edges rta g user_loc locs).
Proof.
  apply Forall_forall. intros e He. unfold user_edges in He.
  apply elem_of_lookup_imap in He as (k & loc & -> & _). simpl. split; [done|lia].
Qed.

Lemma tables_view_final_get_path rta ga user_loc selected end_at_id w :
  planner_inv w →
  tables_view (final (get_path rta ga user_loc selected end_at_id w)) = tables_view w.
Proof.
  intros [_ Hinv]. pose proof (get_path_ext rta ga user_loc selected end_at_id w) as Hext.
  destruct (planner w) as [self|] eqn:Hself.
  - destruct Hinv as (_ & l & t & Hv & _). rewrite Hv. by eapply tables_view_ext.
  - rewrite (tables_view_None_ext _ _ Hext Hself).
    unfold tables_view. by rewrite Hself.
Qed.

(** ** Bounds checks *)

Lemma nbe_ret {A} (a : A) : no_bounds_error (mret a).
Proof. intros w e w' H. discriminate. Qed.

Lemma nbe_raise {A} e : (∀ c, e ≠ OutOfBounds c) → no_bounds_error (@raise A e).
Proof. intros He w e' w' [= <- _]. exact He. Qed.

Lemma nbe_bind {A B} (m : M A) (f : A → M B) :
  no_bounds_error m → (∀ a, no_bounds_error (f a)) → no_bounds_error (m ≫= f).
Proof.
  intros Hm Hf w e w'. unfold mbind, M_bind.
  destruct (m w) as [a w1|e1 w1] eqn:Hrun.
  - apply Hf.
  - intros [= <- <-]. by eapply Hm.
Qed.

Lemma nbe_try {A} (m h : M A) es :
  no_bounds_error m → no_bounds_error h → no_bounds_error (try_except m es h).
Proof.
  intros Hm Hh w e w'. unfold try_except.
  destruct (m w) as [a w1|e1 w1] eqn:Hrun; [done|].
  destruct (bool_decide _); [apply Hh|].
  intros [= <- <-]. by eapply Hm.
Qed.

Lemma nbe_for {A} i0 (l : list A) (body : nat → A → M unit) :
  (∀ i x, no_bounds_error (body i x)) → no_bounds_error (for_enumerate i0 l body).
Proof.
  intros Hbody. revert i0. induction l as [|x l IH]; intros i0; simpl.
  - apply nbe_ret.
  - apply nbe_bind; [apply Hbody|]. intros _. apply IH.
Qed.

Lemma nbe_total {A} (m : M A) : (∀ w, ∃ a w', m w = Ok a w') → no_bounds_error m.
Proof. intros Hm w e w' Hrun. destruct (Hm w) as (a & w1 & Heq). congruence. Qed.

Lemma nbe_alloc o : no_bounds_error (alloc o).
Proof. apply nbe_total. intros w. unfold alloc. eauto. Qed.

Lemma nbe_put_obj r o : no_bounds_error (put_obj r o).
Proof. apply nbe_total. intros w. unfold put_obj. eauto. Qed.

Lemma nbe_get_obj r : no_bounds_error (get_obj r).
Proof.
  intros w e w'. unfold get_obj. destruct (heap w !! r); [done|].
  by intros [= <- _].
Qed.

Lemma nbe_get_self : no_bounds_error get_self.
Proof.
  intros w e w'. unfold get_self. destruct (planner w); [done|].
  by intros [= <- _].
Qed.

Lemma nbe_update_self f : no_bounds_error (update_self f).
Proof.
  intros w e w'. unfold update_self. destruct (planner w); [done|].
  by intros [= <- _].
Qed.

Lemma nbe_assert b : no_bounds_error (assert b).
Proof. destruct b; [apply nbe_ret|by apply nbe_raise]. Qed.

Lemma nbe_read_list r : no_bounds_error (read_list r).
Proof.
  apply nbe_bind; [apply nbe_get_obj|].
  intros []; first [apply nbe_ret|by apply nbe_raise].
Qed.

Lemma nbe_read_table r : no_bounds_error (read_table r).
Proof.
  apply nbe_bind; [apply nbe_get_obj|].
  intros []; first [apply nbe_ret|by apply nbe_raise].
Qed.

Lemma nbe_read_dict r : no_bounds_error (read_dict r).
Proof.
  apply nbe_bind; [apply nbe_get_obj|].
  intros []; first [apply nbe_ret|by apply nbe_raise].
Qed.

Lemma nbe_list_append r e : no_bounds_error (list_append r e).
Proof. apply nbe_bind; [apply nbe_read_list|]. intros l. apply nbe_put_obj. Qed.

Lemma nbe_table_get r k : no_bounds_error (table_get r k).
Proof.
  apply nbe_bind; [apply nbe_read_table|]. intros t.
  destruct (t !! k); [apply nbe_ret|by apply nbe_raise].
Qed.

Lemma nbe_table_get2 r a b : no_bounds_error (table_get2 r a b).
Proof.
  apply nbe_bind; [apply nbe_table_get|]. intros d.
  apply nbe_bind; [apply nbe_read_dict|]. intros m.
  destruct (m !! b); [apply nbe_ret|by apply nbe_raise].
Qed.

Lemma nbe_table_set2 r a b p : no_bounds_error (table_set2 r a b p).
Proof.
  apply nbe_bind; [apply nbe_table_get|]. intros d.
  apply nbe_bind; [apply nbe_read_dict|]. intros m. apply nbe_put_obj.
Qed.

Lemma nbe_route_search rta g a b : no_bounds_error (route_search rta g a b).
Proof.
  intros w e w'. unfold route_search. destruct (rta g a b); [done|].
  by intros [= <- _].
Qed.

Lemma nbe_get_max_index dists : no_bounds_error (_get_max_index_value_in_dists dists).
Proof.
  apply nbe_bind; [apply nbe_read_list|]. intros l.
  destruct (np_max _); [apply nbe_ret|by apply nbe_raise].
Qed.

Lemma nbe_route_to_path route paths : no_bounds_error (_route_to_path route paths).
Proof.
  destruct route as [|start targets]; [by apply nbe_raise|]. simpl.
  generalize (@nil coord) as acc. revert start.
  induction targets as [|t rest IH]; intros start acc; [apply nbe_ret|]. simpl.
  apply nbe_bind; [|intros ?; apply IH].
  apply nbe_try; [apply nbe_table_get2|].
  apply nbe_bind; [apply nbe_table_get2|]. intros ?. apply nbe_ret.
Qed.

Lemma nbe_select_route_points sel route :
  no_bounds_error (select_route_points sel route).
Proof.
  induction route as [|rp rest IH]; [apply nbe_ret|]. simpl.
  destruct (decide _); [|done].
  destruct (sel !! _); [|by apply nbe_raise].
  apply nbe_bind; [done|]. intros ?. apply nbe_ret.
Qed.

(** The per-query code never raises the out-of-bounds error: for no search
    function, no optimiser, no state and no arguments.  What happens for a
    current position outside the grid is left to the grid search. *)
Lemma get_path_no_bounds_error rta ga user_loc selected end_at_id :
  no_bounds_error (get_path rta ga user_loc selected end_at_id).
Proof.
  unfold get_path.
  apply nbe_bind; [apply nbe_get_self|]. intros self.
  apply nbe_bind; [apply nbe_assert|]. intros _.
  destruct (list_index _ _); [|by apply nbe_raise].
  destruct (decide _); [apply nbe_ret|].
  apply nbe_bind.
  { unfold _calculate_user_product_routes.
    apply nbe_bind; [apply nbe_get_self|]. intros self'.
    apply nbe_bind.
    { apply nbe_bind; [apply nbe_read_table|]. intros ?. apply nbe_alloc. }
    intros paths. apply nbe_bind.
    { apply nbe_bind; [apply nbe_read_list|]. intros ?. apply nbe_alloc. }
    intros dists. apply nbe_bind.
    { apply nbe_bind; [apply nbe_read_table|]. intros ?.
      apply nbe_bind; [apply nbe_alloc|]. intros ?. apply nbe_put_obj. }
    intros _. apply nbe_bind; [|intros ?; apply nbe_ret].
    apply nbe_for. intros i x.
    apply nbe_bind; [apply nbe_route_search|]. intros [pth cost].
    apply nbe_bind; [apply nbe_table_set2|]. intros _. apply nbe_list_append. }
  intros [dist_list paths]. apply nbe_bind.
  { unfold _filter_dists.
    apply nbe_bind; [apply nbe_alloc|]. intros dists.
    apply nbe_bind; [apply nbe_read_list|]. intros l.
    apply nbe_bind; [|intros ?; apply nbe_ret].
    apply nbe_for. intros i [[src target] dist].
    destruct (_ && _); [|apply nbe_ret].
    destruct (list_index src _); [|by apply nbe_raise].
    destruct (list_index target _); [|by apply nbe_raise].
    apply nbe_list_append. }
  intros filtered. apply nbe_bind.
  { unfold _insert_dummy_node, _get_indices_in_dist.
    apply nbe_bind.
    { apply nbe_bind; [apply nbe_read_list|]. intros ?. apply nbe_ret. }
    intros indices. apply nbe_bind; [apply nbe_assert|]. intros _.
    apply nbe_bind; [apply nbe_get_max_index|]. intros m.
    apply nbe_bind; [apply nbe_update_self|]. intros _.
    apply nbe_bind; [apply nbe_list_append|]. intros _.
    apply nbe_bind; [apply nbe_list_append|]. intros _. apply nbe_ret. }
  intros dl. apply nbe_bind.
  { unfold _do_tsp.
    apply nbe_bind; [apply nbe_read_list|]. intros l.
    apply nbe_bind; [apply nbe_put_obj|]. intros _.
    apply nbe_bind; [apply nbe_get_max_index|]. intros m.
    apply nbe_bind; [apply nbe_read_list|]. intros l'.
    destruct (ga _ _); [apply nbe_ret|by apply nbe_raise]. }
  intros route. apply nbe_bind.
  { unfold _map_to_selected_product_id_indices.
    destruct (if bool_decide _ then _ else _) as [|s0 sel]; [by apply nbe_raise|].
    apply nbe_bind; [apply nbe_assert|]. intros _.
    destruct (argmax _); [apply nbe_select_route_points|by apply nbe_raise]. }
  intros route'. apply nbe_bind.
  { unfold _roll_route. destruct (list_index _ _); [|by apply nbe_raise].
    destruct (_ !! 1); [|by apply nbe_raise].
    destruct (decide _); apply nbe_ret. }
  intros rolled. apply nbe_bind; [apply nbe_route_to_path|].
  intros pth. apply nbe_ret.
Qed.

(** Every search of the precomputation, whether it returns or raises, is
    between two points of the grid. *)
Lemma precomputation_checks_bounds rta w self :
  planner w = Some self →
  ∃ cs, searches (final (_calculate_inter_product_routes rta w)) = searches w ++ cs ∧
        calls_in_bounds (self_map self) cs.
Proof.
  intros Hself.
  pose proof (calculate_inter_product_routes_spec rta w self Hself) as Hwp.
  unfold wp in Hwp.
  destruct (_calculate_inter_product_routes rta w) as [[d p] w'|e w']; simpl.
  - destruct Hwp as (_ & _ & (_ & _ & _ & Hs) & Hcb). eauto.
  - destruct Hwp as [(T & E & Ds & cs & (_ & _ & _ & Hs) & Hcb) _]. eauto.
Qed.

(** With two or more stops, a stop outside the grid makes the
    precomputation raise. *)
Lemma precomputation_rejects_out_of_bounds rta w self c :
  planner w = Some self →
  2 ≤ length (product_locations self) →
  c ∈ product_locations self → ¬ in_bounds (self_map self) c →
  ∃ e w', _calculate_inter_product_routes rta w = Raise e w'.
Proof.
  intros Hself Hlen Hc Hout.
  pose proof (calculate_inter_product_routes_spec rta w self Hself) as Hwp.
  unfold wp in Hwp.
  destruct (_calculate_inter_product_routes rta w) as [[d p] w'|e w']; [|eauto].
  exfalso. destruct Hwp as (_ & _ & _ & Hcb).
  set (locs := product_locations self) in *. set (g := self_map self) in *.
  apply list_elem_of_lookup_1 in Hc as [k Hk].
  pose proof (lookup_lt_Some _ _ _ Hk) as Hklt.
  assert (∃ i j, 1 ≤ i < j ∧ j ≤ length locs ∧ (k = i - 1 ∨ k = j - 1))
    as (i & j & Hij & Hj & Hkij).
  { destruct (decide (k = 0)) as [->|Hk0].
    - exists 1, 2. lia.
    - exists k, (S k). lia. }
  destruct (lookup_lt_is_Some_2 locs (i - 1)) as [ci Hci]; [lia|].
  destruct (lookup_lt_is_Some_2 locs (j - 1)) as [cj Hcj]; [lia|].
  assert ((ci, cj) ∈ pair_calls locs) as Hin.
  { rewrite (pair_calls_edges rta g). apply list_elem_of_fmap.
    exists (i, j, (search_result rta g ci cj).2). simpl. split.
    - by rewrite (list_lookup_total_correct _ _ _ Hci),
        (list_lookup_total_correct _ _ _ Hcj).
    - apply pair_edges_elem. exists ci, cj. split; [lia|done]. }
  eapply Forall_forall in Hcb; [|exact Hin]. simpl in Hcb.
  destruct Hkij as [->| ->]; [rewrite Hci in Hk|rewrite Hcj in Hk];
    injection Hk as ->; tauto.
Qed.

(** ** The queries on which the code departs from its specification *)

(** C1 at a failing input: the planner for stops 1 at (0,0), 2 at (4,4) and
    3 at (2,2) on a uniform grid, current position (0,4), requested stops
    [1; 2; 3], mandatory end 3.  With an exact optimiser the visit order is
    [0; 3; 1; 2]: it ends at stop 2.  The same holds for each of the twenty
    tours that use only listed legs: whichever of them the optimiser
    returns, the visit order ends at stop 2, never at the mandatory end. *)
Theorem C1_visit_order_ends_elsewhere :
  Demo.route_of
    (get_path Demo.uniform_search Demo.exact_tsp (0, 4)%Z [1; 2; 3] 3 Demo.world3)
    = Some [0; 3; 1; 2] ∧
  Forall (λ t, Demo.ends_at 2
                 (get_path Demo.uniform_search (Demo.fixed_tsp t) (0, 4)%Z
                    [1; 2; 3] 3 Demo.world3) = true)
    (permutations (seq 0 5)) ∧
  length (filter (λ t, is_Some (Demo.route_of
                   (get_path Demo.uniform_search (Demo.fixed_tsp t) (0, 4)%Z
                      [1; 2; 3] 3 Demo.world3)))
            (permutations (seq 0 5))) = 20.
Proof.
  split; [vm_compute; reflexivity|]. split.
  - apply (bool_decide_unpack _). vm_compute. reflexivity.
  - vm_compute. reflexivity.
Qed.

(** C5 at a failing input: a query from the position (0, -1), which is
    outside the 5 x 5 grid and which [raise_if_out_of_bounds] would
    refuse.  The query code makes no bounds check: whatever the search and
    the optimiser are, no query raises the out-of-bounds error.  The search
    is called with that position; with a grid search that takes negative
    indices from the end of the axis, as numpy indexing does, the position
    is read as (0, 4), every distance handed to the optimiser is positive,
    and the query returns a path and a visit order of the three stops;
    with a search that refuses such endpoints the error is the library's,
    raised after the call. *)
Theorem C5_query_position_unchecked :
  ¬ in_bounds (cost_grid Demo.uniform5) (0, -1)%Z ∧
  (∀ rta ga selected end_at_id,
     no_bounds_error (get_path rta ga (0, -1)%Z selected end_at_id)) ∧
  (∃ rest,
     Demo.route_of
       (get_path Demo.wrapping_search Demo.strict_tsp (0, -1)%Z [1; 2; 3] 3
          Demo.world3) = Some (user_position_id :: rest) ∧
     rest ≡ₚ [1; 2; 3]) ∧
  searches (final (get_path Demo.wrapping_search Demo.strict_tsp (0, -1)%Z
                     [1; 2; 3] 3 Demo.world3)) =
    searches Demo.world3 ++
      [((0, -1), (0, 0)); ((0, -1), (4, 4)); ((0, -1), (2, 2))]%Z ∧
  ∃ w', get_path Demo.uniform_search Demo.strict_tsp (0, -1)%Z [1; 2; 3] 3
          Demo.world3 = Raise SearchError w' ∧
        searches w' = searches Demo.world3 ++ [((0, -1), (0, 0))]%Z.
Proof.
  split; [unfold in_bounds; simpl; lia|].
  split; [intros rta ga selected end_at_id; apply get_path_no_bounds_error|].
  split.
  { exists [3; 1; 2]. split; [vm_compute; reflexivity|].
    apply (Permutation_cons_append [1; 2] 3). }
  split; [vm_compute; reflexivity|].
  eexists. split; vm_compute; reflexivity.
Qed.

(** C6 at a failing input: the query of C1.  The list handed to the
    optimiser (the object at reference 11, sorted by source) has nodes 0 to
    3, the dummy node is 4, one more than the largest of them, and its two
    edges have cost 1; but they go to node 0 and to node 2, and node 2 is
    stop 2 in the list [0; 1; 2; 3] of this query, while the mandatory end
    is stop 3, which is node 3. *)
Theorem C6_dummy_edge_to_wrong_node :
  heap (final (get_path Demo.uniform_search Demo.exact_tsp (0, 4)%Z [1; 2; 3] 3
                 Demo.world3)) !! 11 =
    Some (OList [(0, 1, 4%Z); (0, 2, 4%Z); (0, 3, 2%Z); (0, 4, 1%Z);
                 (1, 2, 4%Z); (1, 3, 2%Z); (2, 3, 2%Z); (4, 2, 1%Z)]) ∧
  (planner (final (get_path Demo.uniform_search Demo.exact_tsp (0, 4)%Z [1; 2; 3] 3
                     Demo.world3)) ≫= dummy_id) = Some 4 ∧
  list_index 3 ([user_position_id] ++ [1; 2; 3]) = Some 3 ∧
  ([user_position_id] ++ [1; 2; 3]) !! 2 = Some 2.
Proof.
  split; [vm_compute; reflexivity|]. split; [vm_compute; reflexivity|].
  split; reflexivity.
Qed.

(** ** What the steps of a query do on their own *)

Lemma foldl_max_spec (x : nat) (l : list nat) :
  x ≤ foldl Nat.max x l ∧ Forall (λ y, y ≤ foldl Nat.max x l) l ∧
  (foldl Nat.max x l = x ∨ foldl Nat.max x l ∈ l).
Proof.
  revert x. induction l as [|y l IH]; intros x; simpl.
  - split; [lia|]. split; [constructor|by left].
  - destruct (IH (x `max` y)) as (H1 & H2 & H3). split; [lia|]. split.
    + constructor; [lia|done].
    + destruct H3 as [H3|H3].
      * destruct (Nat.max_spec x y) as [[? Hm]|[? Hm]].
        -- right. rewrite H3, Hm. left.
        -- left. by rewrite H3, Hm.
      * right. by right.
Qed.

Lemma np_max_spec l m :
  np_max l = Some m → Forall (λ y, y ≤ m) l ∧ m ∈ l.
Proof.
  destruct l as [|x l]; [done|]. intros [= <-].
  destruct (foldl_max_spec x l) as (H1 & H2 & H3). split.
  - by constructor.
  - destruct H3 as [->|H3]; [left|by right].
Qed.

(** [_insert_dummy_node] on a distance list [l]: the dummy node is one more
    than the largest node index in [l], and exactly two tuples of cost 1 are
    appended, from [user_position_id] to the dummy node and from the dummy
    node to the [end_id] it is given. *)
Lemma insert_dummy_node_spec w self dists l end_id :
  planner w = Some self → heap w !! dists = Some (OList l) →
  match _insert_dummy_node dists end_id w with
  | Ok r w' =>
      r = dists ∧
      ∃ m, (∀ e : edge, e ∈ l → e.1.1 ≤ m ∧ e.1.2 ≤ m) ∧
           (∃ e : edge, e ∈ l ∧ (e.1.1 = m ∨ e.1.2 = m)) ∧
           (∃ e : edge, e ∈ l ∧ (e.1.1 = end_id ∨ e.1.2 = end_id)) ∧
           planner w' = Some (set_dummy_id (m + 1) self) ∧
           heap w' = <[dists := OList (l ++ [(user_position_id, m + 1, 1%Z);
                                             (m + 1, end_id, 1%Z)])]> (heap w) ∧
           cache_file w' = cache_file w ∧ searches w' = searches w
  | Raise e w' => (e = AssertionError ∨ e = ValueError) ∧ w' = w
  end.
Proof.
  intros Hself Hl.
  pose proof (lookup_lt_Some _ _ _ Hl) as Hlt.
  unfold _insert_dummy_node, _get_indices_in_dist, _get_max_index_value_in_dists,
    list_append, read_list, get_obj, put_obj, update_self, assert, mbind, M_bind.
  rewrite Hl. simpl.
  case_bool_decide as Hend; simpl; [|auto].
  rewrite Hl. simpl.
  destruct (np_max _) as [m|] eqn:Hmax; simpl; [|auto].
  rewrite Hself. simpl. rewrite Hl. simpl.
  rewrite list_lookup_insert_eq by done. simpl.
  split; [done|]. exists m.
  apply np_max_spec in Hmax as [Hle Hin].
  split; [|split; [|split; [|split; [done|split]]]].
  - intros e He. rewrite Forall_fmap in Hle.
    eapply Forall_forall in Hle; [|exact He]. simpl in Hle. lia.
  - apply list_elem_of_fmap in Hin as (e & Hm & He). exists e. split; [done|]. lia.
  - apply elem_of_elements, elem_of_union in Hend.
    destruct Hend as [H|H]; apply elem_of_list_to_set, list_elem_of_fmap in H
      as (e & -> & He); eauto.
  - by rewrite list_insert_insert_eq, <- app_assoc.
  - done.
Qed.

Lemma rotate_at {A} (l : list A) k x :
  l !! k = Some x → rotate k l = x :: drop (S k) l ++ take k l.
Proof.
  intros Hk. pose proof (lookup_lt_Some _ _ _ Hk) as Hlt.
  unfold rotate. rewrite Nat.mod_small by done.
  by rewrite (drop_S _ _ _ Hk).
Qed.

Lemma rotate_Permutation {A} (l : list A) k : rotate k l ≡ₚ l.
Proof.
  unfold rotate. rewrite Permutation_app_comm. by rewrite take_drop.
Qed.

(** [_roll_route] returns the route rolled so that [start_id] comes first,
    with the same stops; and when the stop that follows [start_id] in the
    cyclic route, or the one that precedes it, is [end_id], the rolled
    route ends with [end_id]. *)
Lemma roll_route_spec start_id end_id route w r w' :
  _roll_route start_id end_id route w = Ok r w' →
  w' = w ∧ head r = Some start_id ∧ r ≡ₚ route ∧
  ∃ k mid, route !! k = Some start_id ∧ rotate k route = start_id :: mid ∧
    (head mid = Some end_id ∨ last mid = Some end_id → last r = Some end_id).
Proof.
  unfold _roll_route, list_index.
  destruct (list_find (start_id =.) route) as [[k x]|] eqn:Hfind; simpl; [|done].
  apply list_find_Some in Hfind as (Hk & <- & _).
  rewrite (rotate_at _ _ _ Hk).
  set (mid := drop (S k) route ++ take k route).
  assert (start_id :: mid ≡ₚ route) as Hperm.
  { unfold mid. rewrite <- (rotate_at _ _ _ Hk). apply rotate_Permutation. }
  destruct mid as [|x mid'] eqn:Hmid; simpl; [done|].
  destruct (decide (x = end_id)) as [->|Hne]; intros [= <- <-].
  - split; [done|].
    assert (rotate 1 (start_id :: end_id :: mid') = (end_id :: mid') ++ [start_id])
      as Hrot.
    { unfold rotate. cbn [length].
      rewrite Nat.mod_small by lia. done. }
    rewrite Hrot, reverse_snoc. split; [done|]. split.
    + rewrite reverse_Permutation. exact Hperm.
    + exists k, (end_id :: mid'). split; [done|].
      split; [by rewrite (rotate_at _ _ _ Hk); fold mid; rewrite Hmid|].
      intros _. rewrite last_cons, last_reverse. done.
  - split; [done|]. split; [done|]. split; [exact Hperm|].
    exists k, (x :: mid'). split; [done|].
    split; [by rewrite (rotate_at _ _ _ Hk); fold mid; rewrite Hmid|].
    intros [Hh|Hl]; [simpl in Hh; congruence|].
    by rewrite last_cons, Hl.
Qed.

(** Whenever a query on a non-empty registry returns, its visit order
    starts with node 0, the current position. *)
Lemma get_path_starts_at_current rta ga user_loc selected end_at_id w self p route w' :
  planner w = Some self → num_products self ≠ 0 →
  get_path rta ga user_loc selected end_at_id w = Ok (p, route) w' →
  head route = Some 0.
Proof.
  intros Hself Hn Hrun. unfold get_path in Hrun.
  apply bind_Ok in Hrun as (self' & w1 & Hget & Hrun).
  unfold get_self in Hget. rewrite Hself in Hget. injection Hget as <- <-.
  apply bind_Ok in Hrun as ([] & w1 & _ & Hrun).
  destruct (list_index end_at_id selected) as [idx|]; [|done].
  rewrite decide_False in Hrun by done.
  apply bind_Ok in Hrun as ([dl paths] & w2 & _ & Hrun).
  apply bind_Ok in Hrun as (dl' & w3 & _ & Hrun).
  apply bind_Ok in Hrun as (dl'' & w4 & _ & Hrun).
  apply bind_Ok in Hrun as (tour & w5 & _ & Hrun).
  apply bind_Ok in Hrun as (mapped & w6 & _ & Hrun).
  apply bind_Ok in Hrun as (rolled & w7 & Hroll & Hrun).
  apply bind_Ok in Hrun as (pth & w8 & _ & Hrun).
  injection Hrun as <- <- <-.
  by apply roll_route_spec in Hroll as (_ & Hhead & _).
Qed.

(** ** The helpers of a query, one by one *)

Lemma wp_Ok {A} (m : M A) (P : A → world → Prop) w :
  wp m P (λ _ _, False) w → ∃ a w', m w = Ok a w' ∧ P a w'.
Proof. unfold wp. destruct (m w) as [a w'|e w']; [eauto|done]. Qed.

Lemma list_index_Some x l k :
  list_index x l = Some k ↔ l !! k = Some x ∧ x ∉ take k l.
Proof.
  unfold list_index. split.
  - destruct (list_find (x =.) l) as [[k' y]|] eqn:Hf; simpl; [|done].
    intros [= ->]. apply list_find_Some in Hf as (Hk & <- & Hbefore).
    split; [done|]. intros Hin. apply list_elem_of_lookup in Hin as (j & Hj).
    pose proof (lookup_lt_Some _ _ _ Hj) as Hlt. rewrite length_take in Hlt.
    rewrite lookup_take_lt in Hj by lia. apply (Hbefore j x); [done|lia|done].
  - intros [Hk Hnot].
    assert (list_find (x =.) l = Some (k, x)) as ->; [|done].
    apply list_find_Some. split; [done|]. split; [done|].
    intros j y Hj Hlt ->. apply Hnot. apply list_elem_of_lookup. exists j.
    by rewrite lookup_take_lt.
Qed.

Lemma list_index_None x l : list_index x l = None ↔ x ∉ l.
Proof.
  unfold list_index. destruct (list_find (x =.) l) as [[k y]|] eqn:Hf; simpl.
  - apply list_find_Some in Hf as (Hk & <- & _). split; [done|].
    intros Hnot. exfalso. apply Hnot. by eapply list_elem_of_lookup_2.
  - split; [|done]. intros _ Hin. apply list_find_None in Hf.
    eapply Forall_forall in Hf; [|exact Hin]. by apply Hf.
Qed.

Lemma list_index_lt x l k : list_index x l = Some k → k < length l.
Proof. intros [H _]%list_index_Some. by eapply lookup_lt_Some. Qed.

(** X2 ([_get_max_index_value_in_dists]): on an empty distance list the
    function raises [ValueError]; on any other list it returns the largest
    node index that occurs in a tuple.  It changes nothing. *)
Theorem get_max_index_value_in_dists_max w dists l :
  heap w !! dists = Some (OList l) →
  (l = [] → _get_max_index_value_in_dists dists w = Raise ValueError w) ∧
  (l ≠ [] → ∃ m, _get_max_index_value_in_dists dists w = Ok m w ∧ is_max_node l m).
Proof.
  intros Hl. unfold _get_max_index_value_in_dists, read_list, get_obj, mbind, M_bind.
  rewrite Hl. simpl. split.
  - by intros ->.
  - intros Hne. destruct (np_max _) as [m|] eqn:Hmax.
    + exists m. split; [done|]. apply np_max_spec in Hmax as [Hle Hin]. split.
      * apply list_elem_of_fmap in Hin as (e & Hm & He). exists e. split; [done|]. lia.
      * intros e He. rewrite Forall_fmap in Hle.
        eapply Forall_forall in Hle; [|exact He]. simpl in Hle. lia.
    + destruct l; [done|]. discriminate.
Qed.

Lemma get_max_index_value_in_dists_max_witness :
  ∃ m, _get_max_index_value_in_dists 0
         (World None [OList [(0, 3, 5%Z); (1, 2, 7%Z)]] None []) =
       Ok m (World None [OList [(0, 3, 5%Z); (1, 2, 7%Z)]] None []) ∧
       is_max_node [(0, 3, 5%Z); (1, 2, 7%Z)] m.
Proof.
  apply (get_max_index_value_in_dists_max
           (World None [OList [(0, 3, 5%Z); (1, 2, 7%Z)]] None []) 0
           [(0, 3, 5%Z); (1, 2, 7%Z)]); [reflexivity|done].
Defined.

(** X3 ([_get_indices_in_dist]): the function returns every node that
    occurs in a tuple of the list, each once, and nothing else; it changes
    nothing. *)
Theorem get_indices_in_dist_nodes w dists l :
  heap w !! dists = Some (OList l) →
  ∃ r, _get_indices_in_dist dists w = Ok r w ∧ NoDup r ∧ ∀ i, i ∈ r ↔ is_node l i.
Proof.
  intros Hl. unfold _get_indices_in_dist, read_list, get_obj, mbind, M_bind.
  rewrite Hl. simpl. eexists. split; [done|]. split; [apply NoDup_elements|].
  intros i. rewrite elem_of_elements, elem_of_union, !elem_of_list_to_set,
    !list_elem_of_fmap. unfold is_node. split.
  - intros [(e & -> & He)|(e & -> & He)]; eauto.
  - intros (e & He & [<-|<-]); eauto.
Qed.

Lemma get_indices_in_dist_nodes_witness :
  ∃ r, _get_indices_in_dist 0 (World None [OList [(0, 3, 5%Z); (3, 2, 7%Z)]] None []) =
       Ok r (World None [OList [(0, 3, 5%Z); (3, 2, 7%Z)]] None []) ∧
       NoDup r ∧ ∀ i, i ∈ r ↔ is_node [(0, 3, 5%Z); (3, 2, 7%Z)] i.
Proof.
  apply (get_indices_in_dist_nodes
           (World None [OList [(0, 3, 5%Z); (3, 2, 7%Z)]] None []) 0). reflexivity.
Defined.

Lemma filter_edges_snoc sel l e :
  filter_edges sel (l ++ [e]) =
  filter_edges sel l ++
    match list_index e.1.1 sel, list_index e.1.2 sel with
    | Some a, Some b => [(a, b, e.2)]
    | _, _ => []
    end.
Proof.
  unfold filter_edges. rewrite omap_app. f_equal. simpl.
  destruct (list_index e.1.1 sel); simpl; [|done].
  by destruct (list_index e.1.2 sel).
Qed.

Lemma length_omap_le {A B} (f : A → option B) (l : list A) :
  length (omap f l) ≤ length l.
Proof.
  induction l as [|x l IH]; [done|].
  change (omap f (x :: l))
    with (match f x with Some y => y :: omap f l | None => omap f l end).
  destruct (f x); simpl; lia.
Qed.

Lemma filter_edges_length sel l : length (filter_edges sel l) ≤ length l.
Proof. apply length_omap_le. Qed.

Lemma filter_edges_elem sel l a b d :
  (a, b, d) ∈ filter_edges sel l ↔
  ∃ s t, (s, t, d) ∈ l ∧ list_index s sel = Some a ∧ list_index t sel = Some b.
Proof.
  unfold filter_edges. rewrite list_elem_of_omap. split.
  - intros ([[s t] d'] & He & Hm). simpl in Hm.
    destruct (list_index s sel) as [a'|] eqn:Ha; simpl in Hm; [|done].
    destruct (list_index t sel) as [b'|] eqn:Hb; simpl in Hm; [|done].
    injection Hm as -> -> ->. eauto.
  - intros (s & t & He & Ha & Hb). exists (s, t, d). split; [done|].
    simpl. rewrite Ha. simpl. by rewrite Hb.
Qed.

(** [_filter_dists], run: it fills a new list and touches nothing else. *)
Lemma filter_dists_run sel dist_list l w :
  heap w !! dist_list = Some (OList l) →
  _filter_dists sel dist_list w =
    Ok (length (heap w)) (set_heap (heap w ++ [OList (filter_edges sel l)]) w).
Proof.
  intros Hl.
  pose proof (lookup_lt_Some _ _ _ Hl) as Hlt.
  cut (wp (_filter_dists sel dist_list)
         (λ r w', r = length (heap w) ∧
                  w' = set_heap (heap w ++ [OList (filter_edges sel l)]) w)
         (λ _ _, False) w).
  { intros (r & w' & Hrun & -> & ->)%wp_Ok. exact Hrun. }
  unfold _filter_dists. apply wp_bind, wp_alloc. apply wp_bind.
  eapply wp_read_list_at.
  { simpl. rewrite lookup_app_l by done. exact Hl. }
  apply wp_bind.
  eapply (wp_mono _
            (λ _ w', w' = set_heap (heap w ++ [OList (filter_edges sel l)]) w) _
            (λ _ _, False)).
  - apply (wp_for_enumerate
             (λ pre w', w' = set_heap (heap w ++ [OList (filter_edges sel pre)]) w)).
    + done.
    + intros pre [[src target] dist] todo w' _ ->.
      rewrite filter_edges_snoc. simpl.
      case_bool_decide as Hs; simpl.
      * case_bool_decide as Ht; simpl.
        -- destruct (list_index src sel) as [a|] eqn:Ha.
           2:{ by apply list_index_None in Ha. }
           destruct (list_index target sel) as [b|] eqn:Hb.
           2:{ by apply list_index_None in Hb. }
           eapply wp_list_append_at.
           { simpl. apply lookup_snoc_last. }
           simpl. unfold set_heap. simpl. by rewrite insert_snoc_last.
        -- apply wp_ret.
           assert (list_index target sel = None) as -> by by apply list_index_None.
           destruct (list_index src sel); by rewrite app_nil_r.
      * apply wp_ret.
        assert (list_index src sel = None) as -> by by apply list_index_None.
        by rewrite app_nil_r.
  - intros _ w' ->. by apply wp_ret.
  - done.
Qed.

(** X1 ([_filter_dists]): the function leaves its argument as it is and
    returns a new list.  A tuple [(a, b, d)] is in the new list exactly
    when the argument holds a tuple [(s, t, d)] whose nodes are both
    selected, [a] and [b] being the first positions of [s] and [t] in the
    selection; so every node of the new list is a position of the
    selection, and the new list is no longer than the argument. *)
Theorem filter_dists_selected sel dist_list l w :
  heap w !! dist_list = Some (OList l) →
  ∃ out,
    _filter_dists sel dist_list w =
      Ok (length (heap w)) (set_heap (heap w ++ [OList out]) w) ∧
    (∀ a b d, (a, b, d) ∈ out ↔
       ∃ s t, (s, t, d) ∈ l ∧ list_index s sel = Some a ∧ list_index t sel = Some b) ∧
    (∀ a b d, (a, b, d) ∈ out →
       ∃ s t, (s, t, d) ∈ l ∧ sel !! a = Some s ∧ sel !! b = Some t) ∧
    length out ≤ length l.
Proof.
  intros Hl. exists (filter_edges sel l). split; [by apply filter_dists_run|].
  split; [apply filter_edges_elem|]. split.
  - intros a b d (s & t & He & Ha%list_index_Some & Hb%list_index_Some)%filter_edges_elem.
    exists s, t. tauto.
  - apply filter_edges_length.
Qed.

Lemma filter_dists_selected_witness :
  ∃ out,
    _filter_dists [0; 3] 0 (World None [OList [(0, 3, 5%Z); (3, 2, 7%Z)]] None []) =
      Ok 1 (World None [OList [(0, 3, 5%Z); (3, 2, 7%Z)]; OList out] None []) ∧
    (0, 1, 5%Z) ∈ out.
Proof.
  destruct (filter_dists_selected [0; 3] 0 [(0, 3, 5%Z); (3, 2, 7%Z)]
              (World None [OList [(0, 3, 5%Z); (3, 2, 7%Z)]] None []) eq_refl)
    as (out & Hrun & Hin & _).
  exists out. split; [exact Hrun|].
  apply Hin. exists 0, 3. split; [by left|]. split; reflexivity.
Defined.

Lemma is_max_node_unique l m m' : is_max_node l m → is_max_node l m' → m = m'.
Proof.
  intros [(e & He & Hm) Hle] [(e' & He' & Hm') Hle'].
  pose proof (Hle _ He'). pose proof (Hle' _ He). lia.
Qed.

Lemma is_node_Permutation l l' i : l ≡ₚ l' → is_node l i → is_node l' i.
Proof. intros Hp (e & He & Hi). exists e. by rewrite <- Hp. Qed.

Lemma is_max_node_Permutation l l' m : l ≡ₚ l' → is_max_node l m → is_max_node l' m.
Proof.
  intros Hp [Hn Hle]. split; [by eapply is_node_Permutation|].
  intros e He. apply Hle. by rewrite Hp.
Qed.

Lemma np_max_is_max (l : list edge) m :
  is_max_node l m → np_max ((λ e : edge, Nat.max e.1.1 e.1.2) <$> l) = Some m.
Proof.
  intros Hm.
  destruct (np_max _) as [m'|] eqn:Hmax.
  - apply np_max_spec in Hmax as [Hle Hin].
    assert (is_max_node l m') as Hm'.
    { split.
      - apply list_elem_of_fmap in Hin as (e & Hm' & He). exists e. split; [done|]. lia.
      - intros e He. rewrite Forall_fmap in Hle.
        eapply Forall_forall in Hle; [|exact He]. simpl in Hle. lia. }
    by rewrite (is_max_node_unique _ _ _ Hm Hm').
  - destruct Hm as [(e & He & _) _]. destruct l; [by apply elem_of_nil in He|done].
Qed.

Lemma get_max_index_run w dists l m :
  heap w !! dists = Some (OList l) → is_max_node l m →
  _get_max_index_value_in_dists dists w = Ok m w.
Proof.
  intros Hl Hm.
  unfold _get_max_index_value_in_dists, read_list, get_obj, mbind, M_bind.
  rewrite Hl. simpl. by rewrite (np_max_is_max _ _ Hm).
Qed.

Lemma is_max_node_exists l : l ≠ [] → ∃ m, is_max_node l m.
Proof.
  intros Hne.
  destruct (np_max ((λ e : edge, Nat.max e.1.1 e.1.2) <$> l)) as [m|] eqn:Hmax;
    [|by destruct l].
  apply np_max_spec in Hmax as [Hle Hin]. exists m. split.
  - apply list_elem_of_fmap in Hin as (e & Hm' & He). exists e. split; [done|]. lia.
  - intros e He. rewrite Forall_fmap in Hle.
    eapply Forall_forall in Hle; [|exact He]. simpl in Hle. lia.
Qed.

Lemma get_indices_run w dists l :
  heap w !! dists = Some (OList l) →
  ∃ r, _get_indices_in_dist dists w = Ok r w ∧ ∀ i, i ∈ r ↔ is_node l i.
Proof.
  intros Hl. unfold _get_indices_in_dist, read_list, get_obj, mbind, M_bind.
  rewrite Hl. simpl. eexists. split; [done|].
  intros i. rewrite elem_of_elements, elem_of_union, !elem_of_list_to_set,
    !list_elem_of_fmap. unfold is_node. split.
  - intros [(e & -> & He)|(e & -> & He)]; eauto.
  - intros (e & He & [<-|<-]); eauto.
Qed.

(** [_insert_dummy_node], run on a list whose largest node is [m] and in
    which [end_id] is a node. *)
Lemma insert_dummy_node_run w self dists l end_id m :
  planner w = Some self → heap w !! dists = Some (OList l) →
  is_node l end_id → is_max_node l m →
  _insert_dummy_node dists end_id w =
    Ok dists
      (World (Some (set_dummy_id (m + 1) self))
         (<[dists := OList (l ++ [(user_position_id, m + 1, 1%Z);
                                  (m + 1, end_id, 1%Z)])]> (heap w))
         (cache_file w) (searches w)).
Proof.
  intros Hself Hl Hend Hm.
  pose proof (lookup_lt_Some _ _ _ Hl) as Hlt.
  destruct (get_indices_run _ _ _ Hl) as (r & Hr & Hin).
  unfold _insert_dummy_node. unfold mbind at 1, M_bind at 1. rewrite Hr.
  rewrite bool_decide_eq_true_2 by by apply Hin.
  unfold assert. unfold mbind at 1, M_bind at 1. simpl.
  unfold mbind at 1, M_bind at 1. rewrite (get_max_index_run _ _ _ _ Hl Hm).
  unfold list_append, read_list, get_obj, put_obj, update_self, mbind, M_bind.
  rewrite Hself. simpl. rewrite Hl. simpl.
  rewrite list_lookup_insert_eq by done. simpl.
  by rewrite list_insert_insert_eq, <- app_assoc.
Qed.

Lemma insert_dummy_node_fail w dists l end_id :
  heap w !! dists = Some (OList l) → ¬ is_node l end_id →
  _insert_dummy_node dists end_id w = Raise AssertionError w.
Proof.
  intros Hl Hend.
  destruct (get_indices_run _ _ _ Hl) as (r & Hr & Hin).
  unfold _insert_dummy_node. unfold mbind at 1, M_bind at 1. rewrite Hr.
  rewrite bool_decide_eq_false_2; [done|]. by rewrite Hin.
Qed.

(** X4 ([_insert_dummy_node]): when [end_id] is no node of the distance
    list (in particular when the list is empty) the function raises
    [AssertionError] and changes nothing.  Otherwise it returns the list
    object it was given, to which it has appended exactly two tuples of
    cost 1, from [user_position_id] to the dummy node and from the dummy
    node to [end_id]; the dummy node is one more than the largest node of
    the list and is stored in [self.dummy_id]. *)
Theorem insert_dummy_node_in_place w self dists l end_id :
  planner w = Some self → heap w !! dists = Some (OList l) →
  (¬ is_node l end_id → _insert_dummy_node dists end_id w = Raise AssertionError w) ∧
  (is_node l end_id →
   ∃ m, is_max_node l m ∧
     _insert_dummy_node dists end_id w =
       Ok dists
         (World (Some (set_dummy_id (m + 1) self))
            (<[dists := OList (l ++ [(user_position_id, m + 1, 1%Z);
                                     (m + 1, end_id, 1%Z)])]> (heap w))
            (cache_file w) (searches w))).
Proof.
  intros Hself Hl. split.
  - by apply insert_dummy_node_fail.
  - intros Hend.
    assert (l ≠ []) as Hne.
    { destruct Hend as (e & He & _). intros ->. by apply elem_of_nil in He. }
    destruct (is_max_node_exists l Hne) as (m & Hm). exists m. split; [done|].
    by apply insert_dummy_node_run.
Qed.

Lemma insert_dummy_node_in_place_witness :
  _insert_dummy_node 0 7
    (World (Some Demo.planner3) [OList [(0, 1, 5%Z)]] None []) =
    Raise AssertionError (World (Some Demo.planner3) [OList [(0, 1, 5%Z)]] None []) ∧
  ∃ m, is_max_node [(0, 1, 5%Z)] m ∧
    _insert_dummy_node 0 1
      (World (Some Demo.planner3) [OList [(0, 1, 5%Z)]] None []) =
    Ok 0 (World (Some (set_dummy_id (m + 1) Demo.planner3))
            [OList [(0, 1, 5%Z); (user_position_id, m + 1, 1%Z); (m + 1, 1, 1%Z)]]
            None []).
Proof.
  destruct (insert_dummy_node_in_place
              (World (Some Demo.planner3) [OList [(0, 1, 5%Z)]] None [])
              Demo.planner3 0 [(0, 1, 5%Z)] 7 eq_refl eq_refl) as [Hfail _].
  destruct (insert_dummy_node_in_place
              (World (Some Demo.planner3) [OList [(0, 1, 5%Z)]] None [])
              Demo.planner3 0 [(0, 1, 5%Z)] 1 eq_refl eq_refl) as [_ Hok].
  split.
  - apply Hfail. intros (e & He & Hn). apply list_elem_of_singleton in He as ->.
    simpl in Hn. lia.
  - apply Hok. exists (0, 1, 5%Z). split; [by left|by right].
Defined.

(** *** Sorting by source node *)

Lemma insert_by_src_Permutation e l : insert_by_src e l ≡ₚ e :: l.
Proof.
  induction l as [|x l IH]; simpl; [done|].
  destruct (decide _); [done|]. rewrite IH. apply Permutation_swap.
Qed.

Lemma sort_by_src_Permutation l : sort_by_src l ≡ₚ l.
Proof.
  induction l as [|x l IH]; simpl; [done|].
  unfold sort_by_src in *. simpl. by rewrite insert_by_src_Permutation, IH.
Qed.

Lemma insert_by_src_Sorted e l :
  Sorted (λ e1 e2 : edge, e1.1.1 ≤ e2.1.1) l →
  Sorted (λ e1 e2 : edge, e1.1.1 ≤ e2.1.1) (insert_by_src e l).
Proof.
  induction l as [|x l IH]; simpl; intros Hs.
  - by repeat constructor.
  - destruct (decide _) as [Hle|Hgt].
    + constructor; [done|]. by constructor.
    + apply Sorted_inv in Hs as [Hs Hx]. constructor; [by apply IH|].
      destruct l as [|y l']; simpl.
      * constructor. lia.
      * destruct (decide _); constructor; [lia|].
        by apply HdRel_inv in Hx.
Qed.

Lemma sort_by_src_Sorted l : Sorted (λ e1 e2 : edge, e1.1.1 ≤ e2.1.1) (sort_by_src l).
Proof.
  induction l as [|x l IH]; [constructor|].
  unfold sort_by_src in *. simpl. by apply insert_by_src_Sorted.
Qed.

Lemma insert_by_src_filter k e l :
  filter (λ x : edge, x.1.1 = k) (insert_by_src e l) =
  filter (λ x : edge, x.1.1 = k) (e :: l).
Proof.
  induction l as [|x l IH]; simpl; [done|].
  destruct (decide (e.1.1 ≤ x.1.1)) as [Hle|Hgt]; [done|].
  rewrite filter_cons, IH, !filter_cons.
  destruct (decide (x.1.1 = k)) as [Hx|Hx]; destruct (decide (e.1.1 = k)) as [He|He];
    try done.
  lia.
Qed.

Lemma sort_by_src_stable k l :
  filter (λ x : edge, x.1.1 = k) (sort_by_src l) = filter (λ x : edge, x.1.1 = k) l.
Proof.
  induction l as [|x l IH]; [done|].
  unfold sort_by_src in *. simpl. rewrite insert_by_src_filter, !filter_cons.
  by rewrite IH.
Qed.

(** [_do_tsp], run on a list whose largest node is [m]. *)
Lemma do_tsp_run ga w dl l m :
  heap w !! dl = Some (OList l) → is_max_node l m →
  _do_tsp ga dl w =
    match ga (sort_by_src l) (m + 1) with
    | Some best_state =>
        Ok best_state (set_heap (<[dl := OList (sort_by_src l)]> (heap w)) w)
    | None => Raise SolverError (set_heap (<[dl := OList (sort_by_src l)]> (heap w)) w)
    end.
Proof.
  intros Hl Hm.
  pose proof (lookup_lt_Some _ _ _ Hl) as Hlt.
  assert (is_max_node (sort_by_src l) m) as Hm'.
  { eapply is_max_node_Permutation; [|exact Hm]. by rewrite sort_by_src_Permutation. }
  unfold _do_tsp, _get_max_index_value_in_dists, read_list, get_obj, put_obj,
    mbind, M_bind.
  rewrite Hl. simpl. rewrite list_lookup_insert_eq by done. simpl.
  rewrite (np_max_is_max _ _ Hm'). simpl.
  rewrite list_lookup_insert_eq by done. simpl.
  by destruct (ga _ _).
Qed.

(** X5 ([_do_tsp]): the function sorts the caller's list object in place,
    stably and by source node (the sorted list has the same tuples, in
    non-decreasing order of their source node, tuples of one source node
    in the order they had), and hands it to the optimiser together with
    the number of nodes, one more than the largest node.  It returns the
    optimiser's tour, and raises when the optimiser raises; on an empty
    list it raises [ValueError]. *)
Theorem do_tsp_sorts_in_place ga w dl l :
  heap w !! dl = Some (OList l) →
  (l = [] → _do_tsp ga dl w = Raise ValueError w) ∧
  (l ≠ [] →
   ∃ sorted m,
     sorted ≡ₚ l ∧ Sorted (λ e1 e2 : edge, e1.1.1 ≤ e2.1.1) sorted ∧
     (∀ k, filter (λ e : edge, e.1.1 = k) sorted = filter (λ e : edge, e.1.1 = k) l) ∧
     is_max_node l m ∧
     _do_tsp ga dl w =
       match ga sorted (m + 1) with
       | Some best_state =>
           Ok best_state (set_heap (<[dl := OList sorted]> (heap w)) w)
       | None => Raise SolverError (set_heap (<[dl := OList sorted]> (heap w)) w)
       end).
Proof.
  intros Hl. split.
  - intros ->. unfold _do_tsp, _get_max_index_value_in_dists, read_list, get_obj,
      put_obj, mbind, M_bind.
    rewrite Hl. simpl. rewrite list_lookup_insert_eq by by eapply lookup_lt_Some.
    simpl. change (sort_by_src []) with (@nil edge).
    rewrite list_insert_id by done. by destruct w.
  - intros Hne. destruct (is_max_node_exists l Hne) as (m & Hm).
    exists (sort_by_src l), m.
    split; [apply sort_by_src_Permutation|].
    split; [apply sort_by_src_Sorted|].
    split; [intros k; apply sort_by_src_stable|].
    split; [done|]. by apply do_tsp_run.
Qed.

Lemma do_tsp_sorts_in_place_witness :
  (∃ sorted m,
     sorted ≡ₚ [(1, 2, 5%Z); (0, 2, 4%Z); (0, 1, 3%Z)] ∧
     Sorted (λ e1 e2 : edge, e1.1.1 ≤ e2.1.1) sorted ∧
     is_max_node [(1, 2, 5%Z); (0, 2, 4%Z); (0, 1, 3%Z)] m ∧
     _do_tsp Demo.exact_tsp 0
       (World None [OList [(1, 2, 5%Z); (0, 2, 4%Z); (0, 1, 3%Z)]] None []) =
       match Demo.exact_tsp sorted (m + 1) with
       | Some best_state => Ok best_state (World None [OList sorted] None [])
       | None => Raise SolverError (World None [OList sorted] None [])
       end) ∧
  _do_tsp Demo.exact_tsp 0
    (World None [OList [(1, 2, 5%Z); (0, 2, 4%Z); (0, 1, 3%Z)]] None []) =
    Ok [0; 1; 2] (World None [OList [(0, 2, 4%Z); (0, 1, 3%Z); (1, 2, 5%Z)]] None []).
Proof.
  split; [|vm_compute; reflexivity].
  destruct (proj2 (do_tsp_sorts_in_place Demo.exact_tsp
                     (World None [OList [(1, 2, 5%Z); (0, 2, 4%Z); (0, 1, 3%Z)]] None [])
                     0 [(1, 2, 5%Z); (0, 2, 4%Z); (0, 1, 3%Z)] eq_refl))
    as (sorted & m & Hperm & Hsorted & _ & Hmax & Hrun); [discriminate|].
  exists sorted, m. split; [exact Hperm|]. split; [exact Hsorted|].
  split; [exact Hmax|exact Hrun].
Defined.

(** *** Rolling the route *)

Lemma list_index_app_first x pre post :
  x ∉ pre → list_index x (pre ++ x :: post) = Some (length pre).
Proof.
  intros Hnot. apply list_index_Some. split.
  - by rewrite lookup_app_at0.
  - by rewrite take_app_length.
Qed.

Lemma rotate_app_length {A} (pre post : list A) :
  rotate (length pre) (pre ++ post) = post ++ pre.
Proof.
  destruct post as [|x post].
  - rewrite !app_nil_r. unfold rotate. destruct pre as [|y pre]; [done|].
    rewrite Nat.Div0.mod_same. by rewrite drop_0, take_0, app_nil_r.
  - unfold rotate. rewrite Nat.mod_small by (rewrite length_app; simpl; lia).
    by rewrite drop_app_length, take_app_length.
Qed.

(** [_roll_route] on a route in which [start_id] occurs, first after the
    stops [pre] and followed by the stops [post]. *)
Lemma roll_route_run start_id end_id pre post w :
  start_id ∉ pre →
  _roll_route start_id end_id (pre ++ start_id :: post) w =
    match post ++ pre with
    | [] => Raise IndexError w
    | x :: mid =>
        Ok (if decide (x = end_id) then start_id :: reverse mid ++ [end_id]
            else start_id :: x :: mid) w
    end.
Proof.
  intros Hnot. unfold _roll_route. rewrite list_index_app_first by done.
  rewrite rotate_app_length. simpl.
  destruct (post ++ pre) as [|x mid]; simpl; [done|].
  destruct (decide (x = end_id)) as [->|Hne]; [|done].
  assert (rotate 1 (start_id :: end_id :: mid) = (end_id :: mid) ++ [start_id]) as ->.
  { unfold rotate. cbn [length]. rewrite Nat.mod_small by lia. done. }
  by rewrite reverse_snoc, reverse_cons.
Qed.

Lemma elem_of_first_split (x : nat) (l : list nat) :
  x ∈ l → ∃ pre post, l = pre ++ x :: post ∧ x ∉ pre.
Proof.
  intros Hin. apply list_index_elem in Hin as [k Hk].
  apply list_index_Some in Hk as [Hk Hnot].
  exists (take k l), (drop (S k) l). split; [|done].
  by rewrite <- (drop_S _ _ _ Hk), take_drop.
Qed.

(** X6 ([_roll_route]): a route in which [start_id] does not occur raises
    [ValueError].  Otherwise the route is rolled so that the first
    [start_id] comes first; when the stop that then follows it is [end_id]
    the rolled route is, in addition, rolled once more and reversed, which
    keeps [start_id] first and puts [end_id] last.  A route that consists
    of [start_id] alone raises [IndexError].  The state is not touched. *)
Theorem roll_route_rolls start_id end_id route w :
  (start_id ∉ route → _roll_route start_id end_id route w = Raise ValueError w) ∧
  (∀ pre post, route = pre ++ start_id :: post → start_id ∉ pre →
     _roll_route start_id end_id route w =
       match post ++ pre with
       | [] => Raise IndexError w
       | x :: mid =>
           Ok (if decide (x = end_id) then start_id :: reverse mid ++ [end_id]
               else start_id :: x :: mid) w
       end).
Proof.
  split.
  - intros Hnot. unfold _roll_route.
    by assert (list_index start_id route = None) as -> by by apply list_index_None.
  - intros pre post -> Hnot. by apply roll_route_run.
Qed.

Lemma roll_route_rolls_witness :
  _roll_route 0 3 [2; 0; 3; 1] (World None [] None []) =
    Ok [0; 2; 1; 3] (World None [] None []).
Proof.
  apply (proj2 (roll_route_rolls 0 3 [2; 0; 3; 1] (World None [] None []))
           [2] [3; 1] eq_refl).
  intros Hin. apply list_elem_of_singleton in Hin. discriminate.
Defined.

(** X7 ([_roll_route]): when, in the cyclic order of the route, the stop
    after the first [start_id] or the stop before it is [end_id], the
    function returns a route with the same stops that starts with
    [start_id] and ends with [end_id]. *)
Theorem roll_route_ends_at_neighbour start_id end_id pre post w :
  start_id ∉ pre →
  head (post ++ pre) = Some end_id ∨ last (post ++ pre) = Some end_id →
  ∃ r, _roll_route start_id end_id (pre ++ start_id :: post) w = Ok r w ∧
       head r = Some start_id ∧ last r = Some end_id ∧
       r ≡ₚ pre ++ start_id :: post.
Proof.
  intros Hnot Hadj. rewrite roll_route_run by done.
  assert (start_id :: post ++ pre ≡ₚ pre ++ start_id :: post) as Hperm.
  { rewrite (Permutation_app_comm pre). done. }
  destruct (post ++ pre) as [|x mid] eqn:Hmid.
  { destruct Hadj; discriminate. }
  eexists. split; [done|]. destruct (decide (x = end_id)) as [->|Hne].
  - split; [done|]. split.
    + by rewrite last_cons, last_snoc.
    + rewrite <- Hperm. constructor.
      rewrite <- Permutation_cons_append. constructor. apply reverse_Permutation.
  - split; [done|]. split; [|done].
    destruct Hadj as [Hh|Hl]; [simpl in Hh; congruence|].
    by rewrite last_cons, Hl.
Qed.

Lemma roll_route_ends_at_neighbour_witness :
  ∃ r, _roll_route 0 3 ([2] ++ 0 :: [3; 1]) (World None [] None []) =
         Ok r (World None [] None []) ∧
       head r = Some 0 ∧ last r = Some 3 ∧ r ≡ₚ [2] ++ 0 :: [3; 1].
Proof.
  apply (roll_route_ends_at_neighbour 0 3 [2] [3; 1] (World None [] None [])).
  - intros Hin. apply list_elem_of_singleton in Hin. discriminate.
  - by left.
Defined.

(** *** From tour positions back to stop ids *)

Lemma argmax_from_le bi b i l :
  Forall (λ x, (x ≤ b)%Z) l → argmax_from bi b i l = bi.
Proof.
  revert bi b i. induction l as [|x l IH]; intros bi b i Hl; simpl; [done|].
  apply Forall_cons in Hl as [Hx Hl]. rewrite decide_False by lia. by apply IH.
Qed.

Lemma argmax_from_first bi b i pre m post :
  (b < m)%Z → Forall (λ x, (x < m)%Z) pre → Forall (λ x, (x ≤ m)%Z) post →
  argmax_from bi b i (pre ++ m :: post) = i + length pre.
Proof.
  revert bi b i. induction pre as [|x pre IH]; intros bi b i Hb Hpre Hpost; simpl.
  - rewrite decide_True by done. rewrite argmax_from_le by done. lia.
  - apply Forall_cons in Hpre as [Hx Hpre]. destruct (decide (b < x)%Z).
    + rewrite IH by done. lia.
    + rewrite IH by done. lia.
Qed.

Lemma argmax_first pre m post :
  Forall (λ x, (x < m)%Z) pre → Forall (λ x, (x ≤ m)%Z) post →
  argmax (pre ++ m :: post) = Some (length pre).
Proof.
  intros Hpre Hpost. destruct pre as [|x pre]; simpl.
  - by rewrite argmax_from_le.
  - apply Forall_cons in Hpre as [Hx Hpre]. by rewrite argmax_from_first.
Qed.

Lemma select_route_points_app sel (l1 : list nat) l2 r1 w :
  Forall2 (λ i s, sel !! i = Some s) l1 r1 →
  select_route_points sel ((Z.of_nat <$> l1) ++ l2) w =
    match select_route_points sel l2 w with
    | Ok r2 w' => Ok (r1 ++ r2) w'
    | Raise e w' => Raise e w'
    end.
Proof.
  induction 1 as [|i s l1 r1 Hi _ IH].
  - simpl. by destruct (select_route_points sel l2 w).
  - rewrite fmap_cons. cbn [app select_route_points].
    rewrite decide_True by lia. rewrite Nat2Z.id, Hi.
    unfold mbind, M_bind. rewrite IH. simpl.
    by destruct (select_route_points sel l2 w).
Qed.

Lemma select_route_points_nat sel (l : list nat) r w :
  Forall2 (λ i s, sel !! i = Some s) l r →
  select_route_points sel (Z.of_nat <$> l) w = Ok r w.
Proof.
  intros H. rewrite <- (app_nil_r (Z.of_nat <$> l)).
  rewrite (select_route_points_app _ _ _ _ _ H). simpl. by rewrite app_nil_r.
Qed.

(** [_map_to_selected_product_id_indices] on a tour whose largest node [m]
    occurs first after [pre]. *)
Lemma map_to_selected_run sel_rest pre m post r w :
  Forall (λ i, i < m) pre → Forall (λ i, i ≤ m) post →
  Forall2 (λ i s, (user_position_id :: sel_rest) !! i = Some s) (pre ++ post) r →
  _map_to_selected_product_id_indices (user_position_id :: sel_rest)
    (pre ++ m :: post) w = Ok r w.
Proof.
  intros Hpre Hpost Hr. unfold _map_to_selected_product_id_indices.
  rewrite bool_decide_eq_true_2 by done. simpl.
  unfold mbind, M_bind. simpl.
  rewrite fmap_app, fmap_cons.
  rewrite argmax_first.
  2:{ apply Forall_fmap. eapply Forall_impl; [exact Hpre|]. simpl. lia. }
  2:{ apply Forall_fmap. eapply Forall_impl; [exact Hpost|]. simpl. lia. }
  rewrite insert_app_at0.
  change (<[0:=(-1)%Z]> (Z.of_nat m :: (Z.of_nat <$> post)))
    with ((-1)%Z :: (Z.of_nat <$> post)).
  apply Forall2_app_inv_l in Hr as (r1 & r2 & H1 & H2 & ->).
  rewrite (select_route_points_app _ _ _ _ _ H1). cbn [select_route_points].
  rewrite decide_False by (intros H; by apply H).
  by rewrite (select_route_points_nat _ _ _ _ H2).
Qed.

(** X8 ([_map_to_selected_product_id_indices]): a selection that does not
    start with [user_position_id] raises [AssertionError], and an empty
    tour raises [ValueError].  On a tour whose other nodes are positions
    of the selection, the first occurrence of the largest node of the tour
    (the dummy node) is left out and every other node is replaced by the
    stop id at that position of the selection, in the order of the tour. *)
Theorem map_to_selected_drops_largest sel_rest w :
  (∀ s0 route, s0 ≠ user_position_id →
     _map_to_selected_product_id_indices (s0 :: sel_rest) route w =
       Raise AssertionError w) ∧
  _map_to_selected_product_id_indices (user_position_id :: sel_rest) [] w =
    Raise ValueError w ∧
  (∀ pre m post r,
     Forall (λ i, i < m) pre → Forall (λ i, i ≤ m) post →
     Forall2 (λ i s, (user_position_id :: sel_rest) !! i = Some s) (pre ++ post) r →
     _map_to_selected_product_id_indices (user_position_id :: sel_rest)
       (pre ++ m :: post) w = Ok r w).
Proof.
  split; [|split].
  - intros s0 route Hs0. unfold _map_to_selected_product_id_indices.
    by rewrite bool_decide_eq_false_2.
  - done.
  - intros pre m post r. apply map_to_selected_run.
Qed.

Lemma map_to_selected_drops_largest_witness :
  _map_to_selected_product_id_indices (user_position_id :: [5; 7]) ([2] ++ 3 :: [0; 1])
    (World None [] None []) = Ok [7; 0; 5] (World None [] None []).
Proof.
  apply (proj2 (proj2 (map_to_selected_drops_largest [5; 7] (World None [] None [])))
           [2] 3 [0; 1] [7; 0; 5]).
  - repeat constructor.
  - repeat constructor.
  - repeat constructor.
Defined.

Lemma lookup_seq_fmap (sel : list nat) :
  Forall2 (λ i s, sel !! i = Some s) (seq 0 (length sel)) sel.
Proof.
  apply Forall2_same_length_lookup_2; [by rewrite length_seq|].
  intros i x y Hx Hy. apply lookup_seq in Hx as [-> _]. done.
Qed.

Lemma Forall2_lookup_Permutation (sel : list nat) l l' r :
  l ≡ₚ l' → Forall2 (λ i s, sel !! i = Some s) l r →
  ∃ r', r ≡ₚ r' ∧ Forall2 (λ i s, sel !! i = Some s) l' r'.
Proof.
  intros Hp. revert r. induction Hp as [|x l l' Hp IH|x y l|l l' l'' Hp1 IH1 Hp2 IH2];
    intros r Hr.
  - apply Forall2_nil_inv_l in Hr as ->. exists []. done.
  - apply Forall2_cons_inv_l in Hr as (s & r0 & Hs & Hr & ->).
    destruct (IH _ Hr) as (r' & Hpr & Hr'). exists (s :: r'). split; [by constructor|].
    by constructor.
  - apply Forall2_cons_inv_l in Hr as (s & r0 & Hs & Hr & ->).
    apply Forall2_cons_inv_l in Hr as (t & r1 & Ht & Hr & ->).
    exists (t :: s :: r1). split; [apply Permutation_swap|]. by repeat constructor.
  - destruct (IH1 _ Hr) as (r' & Hpr & Hr'). destruct (IH2 _ Hr') as (r'' & Hpr' & Hr'').
    exists r''. split; [by etrans|done].
Qed.

(** A tour over the nodes [0 .. n] is split at its largest node [n]. *)
Lemma tour_split n tour :
  tour ≡ₚ seq 0 (S n) →
  ∃ pre post, tour = pre ++ n :: post ∧ Forall (λ i, i < n) pre ∧
              Forall (λ i, i ≤ n) post ∧ pre ++ post ≡ₚ seq 0 n.
Proof.
  intros Hp.
  assert (n ∈ tour) as Hin.
  { rewrite Hp. apply elem_of_seq. lia. }
  apply list_elem_of_split in Hin as (pre & post & ->).
  assert (pre ++ post ≡ₚ seq 0 n) as Hrest.
  { apply (Permutation_cons_inv (a := n)).
    rewrite Permutation_middle, Hp. rewrite seq_S. simpl.
    by rewrite <- Permutation_cons_append. }
  exists pre, post. split; [done|].
  assert (Forall (λ i, i < n) (pre ++ post)) as Hlt.
  { rewrite Hrest. apply Forall_forall. intros i Hi. apply elem_of_seq in Hi. lia. }
  apply Forall_app in Hlt as [H1 H2]. split; [done|]. split; [|done].
  eapply Forall_impl; [exact H2|]. simpl. lia.
Qed.

(** [_map_to_selected_product_id_indices] on a tour that visits every
    position of the selection and the dummy node once. *)
Lemma map_to_selected_tour sel_rest tour w :
  tour ≡ₚ seq 0 (S (S (length sel_rest))) →
  ∃ r, _map_to_selected_product_id_indices (user_position_id :: sel_rest) tour w =
         Ok r w ∧ r ≡ₚ user_position_id :: sel_rest.
Proof.
  intros Hp. apply tour_split in Hp as (pre & post & -> & Hpre & Hpost & Hrest).
  destruct (Forall2_lookup_Permutation (user_position_id :: sel_rest) _ _
              (user_position_id :: sel_rest) (symmetry Hrest))
    as (r & Hr & HF).
  { apply (lookup_seq_fmap (user_position_id :: sel_rest)). }
  exists r. split; [|done]. by apply map_to_selected_run.
Qed.

(** X9 ([_map_to_selected_product_id_indices]): when the selection starts
    with [user_position_id] and the tour visits each of its positions, and
    the dummy node that follows them, exactly once, the function returns
    the stops of the selection, each exactly once. *)
Theorem map_to_selected_is_permutation sel_rest tour w :
  tour ≡ₚ seq 0 (S (S (length sel_rest))) →
  ∃ r, _map_to_selected_product_id_indices (user_position_id :: sel_rest) tour w =
         Ok r w ∧ r ≡ₚ user_position_id :: sel_rest.
Proof. apply map_to_selected_tour. Qed.

Lemma map_to_selected_is_permutation_witness :
  ∃ r, _map_to_selected_product_id_indices (user_position_id :: [5; 7]) [2; 3; 0; 1]
         (World None [] None []) = Ok r (World None [] None []) ∧
       r ≡ₚ user_position_id :: [5; 7].
Proof.
  apply (map_to_selected_is_permutation [5; 7] [2; 3; 0; 1] (World None [] None [])).
  change (seq 0 4) with [0; 1; 2; 3].
  apply (Permutation_trans (l' := [2; 0; 3; 1])).
  - constructor. apply Permutation_swap.
  - apply (Permutation_trans (l' := [0; 2; 3; 1])); [apply Permutation_swap|].
    constructor. apply (Permutation_trans (l' := [2; 1; 3])).
    + constructor. apply Permutation_swap.
    + apply Permutation_swap.
Defined.

(** *** Walking a route backwards *)

Lemma segments_snoc seg x l z :
  segments seg x (l ++ [z]) =
    ps ← segments seg x l; p ← seg (default x (last l)) z; Some (ps ++ [p]).
Proof.
  revert x. induction l as [|t l IH]; intros x; simpl.
  - by destruct (seg x z).
  - rewrite IH. destruct (seg x t) as [p|]; simpl.
    2:{ by destruct (segments seg t l). }
    destruct (segments seg t l) as [ps|]; simpl; [|done].
    assert (default t (last l) = default x (last (t :: l))) as ->.
    { destruct l as [|a l0]; [done|]. rewrite last_cons_cons.
      destruct (proj2 (last_is_Some (a :: l0))) as [y ->]; done. }
    by destruct (seg _ z).
Qed.

Lemma segments_reverse seg x l y l' :
  (∀ a b, seg b a = reverse <$> seg a b) →
  reverse (x :: l) = y :: l' →
  segments seg y l' = (λ ps, reverse (reverse <$> ps)) <$> segments seg x l.
Proof.
  intros Hsym. revert x y l'. induction l as [|t l IH]; intros x y l' Hrev.
  - injection Hrev as <- <-. done.
  - rewrite reverse_cons in Hrev.
    destruct (reverse (t :: l)) as [|y0 l0] eqn:Hr0.
    { apply (f_equal length) in Hr0. rewrite length_reverse in Hr0. done. }
    injection Hrev as <- <-.
    rewrite segments_snoc, (IH t y0 l0 Hr0).
    assert (default y0 (last l0) = t) as ->.
    { assert (last (y0 :: l0) = Some t) as Hl.
      { rewrite <- Hr0, last_reverse. done. }
      destruct l0 as [|a l1]; [simpl in *; congruence|].
      rewrite last_cons_cons in Hl. by rewrite Hl. }
    rewrite (Hsym x t). simpl.
    destruct (seg x t) as [p|]; simpl.
    2:{ by destruct (segments seg t l). }
    destruct (segments seg t l) as [ps|]; simpl; [|done].
    by rewrite reverse_cons.
Qed.

Lemma concat_reverse (ps : list path) :
  concat (reverse (reverse <$> ps)) = reverse (concat ps).
Proof.
  induction ps as [|p ps IH]; [done|].
  rewrite fmap_cons, reverse_cons, concat_app, IH. simpl.
  by rewrite app_nil_r, reverse_app.
Qed.

Lemma segment_one_way h paths a b :
  (∀ a b, is_Some (stored h paths a b) → stored h paths b a = None) →
  segment h paths b a = reverse <$> segment h paths a b.
Proof.
  intros Hone. unfold segment.
  destruct (stored h paths a b) as [p|] eqn:Hab.
  - by rewrite (Hone a b) by (by rewrite Hab).
  - destruct (stored h paths b a) as [q|]; simpl; [|done].
    by rewrite reverse_involutive.
Qed.

Lemma route_to_path_reverse_run w paths x l :
  wf_table (heap w) paths →
  (∀ a b, is_Some (stored (heap w) paths a b) → stored (heap w) paths b a = None) →
  _route_to_path (reverse (x :: l)) paths w =
    match _route_to_path (x :: l) paths w with
    | Ok p w' => Ok (reverse p) w'
    | Raise e w' => Raise e w'
    end.
Proof.
  intros Hwf Hone.
  destruct (reverse (x :: l)) as [|y l'] eqn:Hrev.
  { apply (f_equal length) in Hrev. rewrite length_reverse in Hrev. done. }
  unfold _route_to_path. rewrite !route_to_path_loop_run by done.
  rewrite (segments_reverse _ x l y l'); [|intros a b; by apply segment_one_way|done].
  destruct (segments _ x l) as [ps|]; simpl; [|done].
  by rewrite concat_reverse.
Qed.

(** X10 ([_route_to_path]): when the table stores every pair of stops in
    at most one direction, as the precomputation leaves it, walking a
    route backwards gives the path of the route reversed, coordinate by
    coordinate; and it raises [KeyError] exactly when the route itself
    does. *)
Theorem route_to_path_reverse w paths route :
  wf_table (heap w) paths →
  (∀ a b, is_Some (stored (heap w) paths a b) → stored (heap w) paths b a = None) →
  route ≠ [] →
  _route_to_path (reverse route) paths w =
    match _route_to_path route paths w with
    | Ok p w' => Ok (reverse p) w'
    | Raise e w' => Raise e w'
    end.
Proof.
  intros Hwf Hone Hne. destruct route as [|x l]; [done|].
  by apply route_to_path_reverse_run.
Qed.

Lemma route_to_path_reverse_witness :
  _route_to_path (reverse [1; 2])  0
    (World None [OTable {[1 := 1]}; ODict {[2 := [(0, 0); (0, 1)]%Z]}] None []) =
  Ok [(0, 1); (0, 0)]%Z
    (World None [OTable {[1 := 1]}; ODict {[2 := [(0, 0); (0, 1)]%Z]}] None []).
Proof.
  etrans.
  { apply (route_to_path_reverse
             (World None [OTable {[1 := 1]}; ODict {[2 := [(0, 0); (0, 1)]%Z]}] None [])
             0 [1; 2]).
    - unfold wf_table. simpl. apply map_Forall_singleton. simpl. by eexists.
    - intros a b [p Hp]. unfold stored in *. simpl in *.
      destruct (({[1 := 1]} : gmap nat nat) !! a) as [d|] eqn:Ha; [|done].
      apply lookup_singleton_Some in Ha as [<- <-]. simpl in Hp.
      apply lookup_singleton_Some in Hp as [<- _].
      by rewrite lookup_singleton_ne.
    - done. }
  reflexivity.
Defined.

(** ** The cache file, written and read back *)

Lemma tables_view_Some w v :
  tables_view w = Some v →
  ∃ self t,
    planner w = Some self ∧
    heap w !! inter_product_distances self = Some (OList v.1) ∧
    heap w !! inter_product_paths self = Some (OTable t) ∧
    wf_table (heap w) (inter_product_paths self) ∧
    v.2 = pickle_table (heap w) t.
Proof.
  unfold tables_view. destruct (planner w) as [self|]; [|done].
  destruct (heap w !! inter_product_distances self) as [[l| |]|] eqn:Hl; try done.
  destruct (heap w !! inter_product_paths self) as [[| |t]|] eqn:Ht; try done.
  destruct (decide _) as [Hwf|]; [|done].
  intros [= <-]. by exists self, t.
Qed.

Lemma cache_miss_entries h f data0 : cache_miss h f data0 → data0 = cache_entries f.
Proof.
  unfold cache_miss, cache_entries. destruct f as [[data| |]|]; try done. by intros [-> _].
Qed.

(** [_store_distance_and_paths] on a file that can be read. *)
Lemma store_run_any w self l t :
  planner w = Some self → cache_file w ≠ Some Corrupt →
  heap w !! inter_product_distances self = Some (OList l) →
  heap w !! inter_product_paths self = Some (OTable t) →
  _store_distance_and_paths w =
    Ok tt (set_cache_file
             (Some (Pickled (<[locations_hash self :=
                                 CacheEntry l (pickle_table (heap w) t)]>
                               (cache_entries (cache_file w))))) w).
Proof.
  intros Hself Hcor Hl Ht.
  unfold _store_distance_and_paths, get_self, try_except, pickle_load, read_list,
    read_table, get_obj, get_heap, pickle_dump, mbind, M_bind, cache_entries.
  destruct (cache_file w) as [[data| |]|] eqn:Hc;
    repeat (progress (rewrite ?Hself, ?Hc, ?Hl, ?Ht; simpl)); done.
Qed.

(** [_load_distance_and_paths] on a file with an entry for the hash. *)
Lemma load_hit_view w self data l m :
  planner w = Some self → cache_file w = Some (Pickled data) →
  data !! locations_hash self = Some (CacheEntry l m) →
  ∃ w' d p, _load_distance_and_paths w = Ok true w' ∧
        planner w' = Some (set_tables d p self) ∧
        tables_view w' = Some (l, m) ∧ cache_file w' = cache_file w ∧
        searches w' = searches w ∧ heap w `prefix_of` heap w'.
Proof.
  intros Hself Hc He. rewrite (load_hit w self data _ Hself Hc He).
  cbn [product_distances product_paths].
  eexists _, _, _. split; [done|]. split; [done|].
  split; [apply tables_view_hit|]. split; [done|]. split; [done|].
  by apply prefix_app_r.
Qed.

(** The tables a load binds are objects the load itself has made. *)
Lemma load_hit_fresh w self data l m :
  planner w = Some self → cache_file w = Some (Pickled data) →
  data !! locations_hash self = Some (CacheEntry l m) →
  ∃ w' d p, _load_distance_and_paths w = Ok true w' ∧
        planner w' = Some (set_tables d p self) ∧
        length (heap w) ≤ d ∧ length (heap w) ≤ p ∧
        heap w `prefix_of` heap w' ∧
        tables_view w' = Some (l, m) ∧ cache_file w' = cache_file w ∧
        searches w' = searches w.
Proof.
  intros Hself Hc He. rewrite (load_hit w self data _ Hself Hc He).
  cbn [product_distances product_paths].
  eexists _, _, _. split; [done|]. split; [done|].
  split; [lia|]. split; [lia|]. split; [by apply prefix_app_r|].
  split; [apply tables_view_hit|]. done.
Qed.

(** X11 ([_store_distance_and_paths], [_load_distance_and_paths]): what is
    stored is what is read back, by this planner and by any other planner
    for the same locations.  On a planner with well-formed tables and a
    cache file that is missing, empty or cut short, or a pickled store
    (any file but one on which [pickle.load] raises
    [pickle.UnpicklingError]), storing
    writes the two tables under the planner's hash and keeps every entry
    the file held under another hash.  Loading from the file just written,
    in whatever state a planner with the same hash is and whatever tables
    it holds, succeeds, makes no search and leaves the file as it is; it
    binds the planner's two tables to objects that were not in the heap
    before the load, leaves every object that was there as it was, and
    the content of the new tables is the content that was stored. *)
Theorem store_then_load w self v :
  planner w = Some self → tables_view w = Some v → cache_file w ≠ Some Corrupt →
  ∃ w1,
    _store_distance_and_paths w = Ok tt w1 ∧
    cache_file w1 =
      Some (Pickled (<[locations_hash self := CacheEntry v.1 v.2]>
                       (cache_entries (cache_file w)))) ∧
    (∀ h, h ≠ locations_hash self →
          cache_entries (cache_file w1) !! h = cache_entries (cache_file w) !! h) ∧
    planner w1 = planner w ∧ heap w1 = heap w ∧ searches w1 = searches w ∧
    ∀ wl other,
      planner wl = Some other → locations_hash other = locations_hash self →
      cache_file wl = cache_file w1 →
      ∃ w2 d p,
        _load_distance_and_paths wl = Ok true w2 ∧
        planner w2 = Some (set_tables d p other) ∧
        length (heap wl) ≤ d ∧ length (heap wl) ≤ p ∧
        heap wl `prefix_of` heap w2 ∧
        tables_view w2 = Some v ∧ cache_file w2 = cache_file w1 ∧
        searches w2 = searches wl.
Proof.
  intros Hself Hv Hcor.
  destruct (tables_view_Some _ _ Hv) as (self' & t & Hself' & Hl & Ht & Hwf & Hv2).
  rewrite Hself in Hself'. injection Hself' as <-.
  rewrite (store_run_any w self _ t Hself Hcor Hl Ht), <- Hv2.
  set (w1 := set_cache_file _ w).
  exists w1. split; [done|]. split; [done|]. split.
  { intros h Hh. simpl. by rewrite lookup_insert_ne. }
  split; [done|]. split; [done|]. split; [done|].
  intros wl other Hother Hhash Hfile.
  destruct (load_hit_fresh wl other
              (<[locations_hash self := CacheEntry v.1 v.2]> (cache_entries (cache_file w)))
              v.1 v.2)
    as (w2 & d & p & Hload & Hp2 & Hd & Hp & Hh2 & Hv' & Hc2 & Hs2); [done|done| |].
  { by rewrite Hhash, lookup_insert_eq. }
  exists w2, d, p. split; [done|]. split; [done|]. split; [done|]. split; [done|].
  split; [done|]. split; [by destruct v|]. split; [by rewrite Hc2|done].
Qed.

Lemma store_then_load_witness :
  ∃ w1 w2,
    _store_distance_and_paths Demo.world3 = Ok tt w1 ∧
    tables_view (set_cache_file (cache_file w1) Demo.fresh_world3) = Some ([], ∅) ∧
    _load_distance_and_paths (set_cache_file (cache_file w1) Demo.fresh_world3) =
      Ok true w2 ∧
    tables_view w2 = tables_view Demo.world3 ∧
    heap w2 !! 0 = Some (OList []) ∧ heap w2 !! 1 = Some (OTable ∅).
Proof.
  destruct (tables_view Demo.world3) as [v|] eqn:Hv; [|vm_compute in Hv; discriminate].
  destruct (planner Demo.world3) as [self|] eqn:Hself;
    [|vm_compute in Hself; discriminate].
  pose proof Hself as Hself'. vm_compute in Hself'. injection Hself' as <-.
  destruct (store_then_load Demo.world3 _ v Hself Hv)
    as (w1 & H1 & _ & _ & _ & _ & _ & Hload).
  { vm_compute. discriminate. }
  destruct (Hload (set_cache_file (cache_file w1) Demo.fresh_world3) Demo.planner3
              eq_refl eq_refl eq_refl)
    as (w2 & d & p & H2 & _ & _ & _ & Hpre & H3 & _).
  exists w1, w2. split; [exact H1|]. split; [vm_compute; reflexivity|].
  split; [exact H2|]. split; [exact H3|].
  split; (eapply prefix_lookup_Some; [|exact Hpre]); reflexivity.
Defined.

(** ** Construction and the cache *)

(** The state a construction that hit the cache leaves behind. *)
Lemma init_hit_state rta sha map_image locations w data e :
  cache_file w = Some (Pickled data) → data !! sha locations = Some e →
  ∃ w' self,
    __init__ rta sha map_image locations w = Ok tt w' ∧
    tables_view w' = Some (product_distances e, product_paths e) ∧
    searches w' = searches w ∧ cache_file w' = cache_file w ∧
    planner w' = Some self ∧ self_map self = cost_grid map_image ∧
    product_locations self = locations ∧ num_products self = length locations.
Proof.
  intros Hc He.
  destruct (init_hit rta sha map_image locations w data e Hc He) as (w' & Hinit & Hload).
  destruct e as [l m].
  destruct (load_hit_view (initial_world sha map_image locations w)
              (initial_self sha map_image locations (length (heap w))) data l m)
    as (w2 & d & p & Hload' & Hp & Hv & Hc' & Hs & _); [done|done|done|].
  rewrite Hload in Hload'. injection Hload' as <-.
  exists w', (set_tables d p (initial_self sha map_image locations (length (heap w)))).
  split; [done|]. split; [done|]. split; [done|]. split; [done|]. done.
Qed.

(** X12 ([__init__]): when the cache file has an entry under the hash of
    the locations, construction succeeds without a search and without a
    bounds check, leaves the file as it is, and takes the planner's tables
    from the entry as they are, whatever the map image and the search are. *)
Theorem init_cache_hit rta sha map_image locations w data e :
  cache_file w = Some (Pickled data) → data !! sha locations = Some e →
  ∃ w' self,
    __init__ rta sha map_image locations w = Ok tt w' ∧
    tables_view w' = Some (product_distances e, product_paths e) ∧
    searches w' = searches w ∧ cache_file w' = cache_file w ∧
    planner w' = Some self ∧ self_map self = cost_grid map_image ∧
    product_locations self = locations ∧ num_products self = length locations.
Proof. apply init_hit_state. Qed.

Lemma init_cache_hit_witness :
  ∃ w', __init__ Demo.uniform_search Demo.no_hash [] Demo.stops3
          (World None [] (cache_file Demo.world3) []) = Ok tt w' ∧
        tables_view w' = tables_view Demo.world3 ∧ searches w' = [].
Proof.
  destruct (cache_file Demo.world3) as [[data| |]|] eqn:Hc; try by vm_compute in Hc.
  destruct (data !! Demo.no_hash Demo.stops3) as [e|] eqn:He.
  2:{ vm_compute in Hc. injection Hc as <-. by vm_compute in He. }
  destruct (init_cache_hit Demo.uniform_search Demo.no_hash [] Demo.stops3
              (World None [] (Some (Pickled data)) []) data e eq_refl He)
    as (w' & self & H1 & H2 & H3 & _).
  exists w'. split; [done|]. split; [|done].
  rewrite H2. vm_compute in Hc. injection Hc as <-.
  vm_compute in He. injection He as <-. by vm_compute.
Defined.

Section Twice.

Variable rta rta' : grid → coord → coord → option (path * Z).
Variable sha : list coord → string.

Lemma init_Ok_entry map_image locations w w1 :
  __init__ rta sha map_image locations w = Ok tt w1 →
  ∃ data e, cache_file w1 = Some (Pickled data) ∧ data !! sha locations = Some e ∧
            tables_view w1 = Some (product_distances e, product_paths e).
Proof.
  intros Hinit.
  destruct (cache_cases (sha locations) (cache_file w))
    as [Hcor|[(data & e & Hf & He)|(data0 & Hmiss)]].
  - by rewrite init_corrupt in Hinit.
  - destruct (init_hit_state rta sha map_image locations w data e Hf He)
      as (w' & self & H1 & H2 & _ & H3 & _).
    rewrite Hinit in H1. injection H1 as <-.
    exists data, e. by rewrite H3.
  - pose proof (init_miss rta sha map_image locations w data0 Hmiss) as Hwp.
    cbv zeta in Hwp. unfold wp in Hwp. rewrite Hinit in Hwp.
    destruct Hwp as (w0 & T & E & -> & -> & Hst & Hcb & ->).
    eexists _, (CacheEntry _ _). split; [reflexivity|].
    split; [by rewrite lookup_insert_eq|].
    by apply tables_view_after_miss.
Qed.

(** X13 ([__init__]): a planner that has been constructed once is served
    from the cache afterwards.  After a construction that returned, every
    later construction for the same locations that finds the cache file as
    that construction left it returns too, with tables of the same
    content, without a search, and without writing the file; the map image
    and the search it is given play no part. *)
Theorem init_twice map_image locations w w1 map_image' w2 :
  __init__ rta sha map_image locations w = Ok tt w1 →
  cache_file w2 = cache_file w1 →
  ∃ w3, __init__ rta' sha map_image' locations w2 = Ok tt w3 ∧
        tables_view w3 = tables_view w1 ∧ searches w3 = searches w2 ∧
        cache_file w3 = cache_file w2.
Proof.
  intros Hinit Hc.
  destruct (init_Ok_entry _ _ _ _ Hinit) as (data & e & Hf & He & Hv).
  rewrite Hf in Hc.
  destruct (init_hit_state rta' sha map_image' locations w2 data e Hc He)
    as (w3 & self & H1 & H2 & H3 & H4 & _).
  exists w3. split; [done|]. by rewrite Hv.
Qed.


End Twice.

Lemma init_twice_witness :
  ∃ w3, __init__ Demo.uniform_search Demo.no_hash [] Demo.stops3
          (World None [] (cache_file Demo.world3) []) = Ok tt w3 ∧
        tables_view w3 = tables_view Demo.world3 ∧ searches w3 = [].
Proof.
  destruct (__init__ Demo.uniform_search Demo.no_hash Demo.uniform5 Demo.stops3
              Demo.empty_world) as [[] w1|e w1] eqn:Hinit; [|by vm_compute in Hinit].
  destruct (init_twice Demo.uniform_search Demo.uniform_search Demo.no_hash
              Demo.uniform5 Demo.stops3 Demo.empty_world w1 []
              (World None [] (cache_file w1) []) Hinit eq_refl)
    as (w3 & H1 & H2 & H3 & _).
  assert (w1 = Demo.world3) as ->.
  { unfold Demo.world3. by rewrite Hinit. }
  exists w3. split; [exact H1|]. split; [exact H2|exact H3].
Defined.


(** ** When the precomputation returns *)

Lemma for_enumerate_Ok_inv {A} i0 (l : list A) (body : nat → A → M unit) w w' :
  for_enumerate i0 l body w = Ok tt w' →
  ∀ k x, l !! k = Some x → ∃ w1 w2, body (i0 + k) x w1 = Ok tt w2.
Proof.
  revert i0 w. induction l as [|y l IH]; intros i0 w Hrun k x Hk; [done|].
  simpl in Hrun. apply bind_Ok in Hrun as ([] & w1 & Hbody & Hrest).
  destruct k as [|k]; simpl in Hk.
  - injection Hk as <-. rewrite Nat.add_0_r. eauto.
  - rewrite Nat.add_succ_r. by apply (IH (S i0) w1 Hrest k x).
Qed.

Lemma raise_if_out_of_bounds_Ok g c w u w' :
  raise_if_out_of_bounds (np_shape g) c w = Ok u w' → in_bounds g c.
Proof.
  unfold raise_if_out_of_bounds, in_bounds. case_bool_decide as H; [done|].
  intros _. lia.
Qed.

Section Returns.

Variable rta : grid → coord → coord → option (path * Z).

Lemma inner_body_Ok g ci paths dists i i_end cj w w' :
  (raise_if_out_of_bounds (np_shape g) cj;;
   '(path, cost) ← route_search rta g ci cj;
   assert (bool_decide (cost > 0)%Z);;
   table_set2 paths i i_end path;;
   list_append dists (i, i_end, cost)) w = Ok tt w' →
  in_bounds g cj ∧ ∃ r, rta g ci cj = Some r ∧ (0 < r.2)%Z.
Proof.
  intros Hrun. apply bind_Ok in Hrun as (u & w1 & Hb & Hrun).
  apply raise_if_out_of_bounds_Ok in Hb. split; [done|].
  apply bind_Ok in Hrun as ([p c] & w2 & Hs & Hrun).
  apply bind_Ok in Hrun as (u' & w3 & Ha & _).
  unfold route_search in Hs. destruct (rta g ci cj) as [r|]; [|done].
  injection Hs as -> _. exists (p, c). split; [done|].
  unfold assert in Ha. case_bool_decide as Hc; [simpl; lia|done].
Qed.

(** What a precomputation that returned has checked: every stop with a
    row of its own, and for every pair the end point and the cost. *)
Lemma precomputation_Ok_inv w self r w' :
  planner w = Some self →
  _calculate_inter_product_routes rta w = Ok r w' →
  (∀ i a, i < length (product_locations self) - 1 →
          product_locations self !! i = Some a → in_bounds (self_map self) a) ∧
  (∀ i j a b, i < j → product_locations self !! i = Some a →
     product_locations self !! j = Some b →
     in_bounds (self_map self) b ∧
     ∃ r, rta (self_map self) a b = Some r ∧ (0 < r.2)%Z).
Proof.
  intros Hself Hrun. unfold _calculate_inter_product_routes in Hrun.
  apply bind_Ok in Hrun as (self' & w1 & Hget & Hrun).
  unfold get_self in Hget. rewrite Hself in Hget. injection Hget as <- <-.
  apply bind_Ok in Hrun as (r1 & w1 & _ & Hrun).
  apply bind_Ok in Hrun as (r2 & w2 & _ & Hrun).
  apply bind_Ok in Hrun as (paths & w3 & _ & Hrun).
  apply bind_Ok in Hrun as (dists & w4 & _ & Hrun).
  apply bind_Ok in Hrun as ([] & w5 & Hloop & _).
  pose proof (for_enumerate_Ok_inv _ _ _ _ _ Hloop) as Hrows. clear Hloop.
  assert (∀ i a, i < length (product_locations self) - 1 →
            product_locations self !! i = Some a →
            in_bounds (self_map self) a ∧
            ∀ k b, drop (1 + i) (product_locations self) !! k = Some b →
                   in_bounds (self_map self) b ∧
                   ∃ r, rta (self_map self) a b = Some r ∧ (0 < r.2)%Z) as Hrow.
  { intros i a Hi Ha.
    destruct (Hrows i a) as (wa & wb & Hbody).
    { rewrite lookup_take_lt by done. exact Ha. }
    apply bind_Ok in Hbody as (u & wc & _ & Hbody).
    apply bind_Ok in Hbody as (u' & wd & Hb & Hinner).
    apply raise_if_out_of_bounds_Ok in Hb. split; [done|].
    intros k b Hk.
    destruct (for_enumerate_Ok_inv _ _ _ _ _ Hinner k b Hk) as (we & wf & Hin).
    by apply inner_body_Ok in Hin. }
  split.
  - intros i a Hi Ha. by apply (Hrow i a).
  - intros i j a b Hij Ha Hb.
    pose proof (lookup_lt_Some _ _ _ Hb) as Hj.
    destruct (Hrow i a) as [_ Hk]; [lia|done|].
    apply (Hk (j - (1 + i)) b). rewrite lookup_drop. rewrite <- Hb. f_equal. lia.
Qed.

(** With at most one stop the precomputation has nothing to do. *)
Lemma precomputation_short w self :
  planner w = Some self → length (product_locations self) ≤ 1 →
  _calculate_inter_product_routes rta w =
    Ok (length (heap w) + 3, length (heap w) + 2)
       (set_heap (heap w ++ [OList []; OTable ∅; OTable ∅; OList []]) w).
Proof.
  intros Hself Hlen.
  unfold _calculate_inter_product_routes, get_self, alloc, mbind, M_bind.
  rewrite Hself. simpl.
  replace (take (length (product_locations self) - 1) (product_locations self))
    with (@nil coord).
  2:{ replace (length (product_locations self) - 1) with 0 by lia. by rewrite take_0. }
  simpl. rewrite !length_snoc. unfold set_heap. simpl.
  rewrite <- !app_assoc. simpl. do 2 f_equal; lia.
Qed.

(** X16 ([_calculate_inter_product_routes]): the precomputation returns
    exactly when every pair of stops, the earlier one first, has a path of
    positive cost and, if there are two stops or more, every stop lies in
    the grid.  With fewer than two stops nothing is searched and nothing
    is checked. *)
Theorem precomputation_returns_iff w self :
  planner w = Some self →
  (∃ r w', _calculate_inter_product_routes rta w = Ok r w') ↔
  (2 ≤ length (product_locations self) →
   ∀ c, c ∈ product_locations self → in_bounds (self_map self) c) ∧
  (∀ i j a b, i < j → product_locations self !! i = Some a →
     product_locations self !! j = Some b →
     ∃ r, rta (self_map self) a b = Some r ∧ (0 < r.2)%Z).
Proof.
  intros Hself. split.
  - intros (r & w' & Hrun).
    destruct (precomputation_Ok_inv w self r w' Hself Hrun) as [Hstart Hpair].
    split.
    + intros Hlen c Hc. apply list_elem_of_lookup in Hc as [k Hk].
      pose proof (lookup_lt_Some _ _ _ Hk) as Hlt.
      destruct (decide (k < length (product_locations self) - 1)) as [Hk'|Hk'].
      * by apply (Hstart k c).
      * destruct (lookup_lt_is_Some_2 (product_locations self) 0) as [a Ha]; [lia|].
        apply (Hpair 0 k a c); [lia|done|done].
    + intros i j a b Hij Ha Hb. by apply (Hpair i j a b).
  - intros [Hin Hpos].
    destruct (decide (2 ≤ length (product_locations self))) as [Hlen|Hlen].
    + pose proof (calculate_inter_product_routes_spec rta w self Hself) as Hwp.
      unfold wp in Hwp.
      destruct (_calculate_inter_product_routes rta w) as [r w'|e w']; [eauto|].
      destruct Hwp as [_ Hfail]. exfalso.
      exact (pre_failure_good rta _ _ _ (Hin Hlen) Hpos Hfail).
    + rewrite (precomputation_short w self) by (done || lia). eauto.
Qed.

End Returns.

Lemma precomputation_returns_iff_witness :
  ∃ r w', _calculate_inter_product_routes Demo.uniform_search Demo.fresh_world3 =
          Ok r w'.
Proof.
  apply (precomputation_returns_iff Demo.uniform_search Demo.fresh_world3
           Demo.planner3 eq_refl).
  split.
  - intros _ c Hc.
    apply (proj1 (Forall_forall (in_bounds (cost_grid Demo.uniform5)) Demo.stops3));
      [|exact Hc].
    apply (bool_decide_unpack _). vm_compute. reflexivity.
  - intros [|[|[|i]]] [|[|[|j]]] a b Hij Ha Hb; simpl in Ha, Hb;
      try lia; try discriminate;
      injection Ha as <-; injection Hb as <-;
      (eexists; split; [vm_compute; reflexivity|simpl; lia]).
Defined.

(** ** A registry of fewer than two stops *)

Lemma init_miss_run rta sha map_image locations w data0 d p w1 l t :
  cache_miss (sha locations) (cache_file w) data0 →
  _calculate_inter_product_routes rta (initial_world sha map_image locations w) =
    Ok (d, p) w1 →
  planner w1 = Some (initial_self sha map_image locations (length (heap w))) →
  cache_file w1 = cache_file w →
  heap w1 !! d = Some (OList l) → heap w1 !! p = Some (OTable t) →
  __init__ rta sha map_image locations w =
    Ok tt (set_cache_file
             (Some (Pickled (<[sha locations := CacheEntry l (pickle_table (heap w1) t)]>
                               data0)))
             (set_planner
                (set_tables d p (initial_self sha map_image locations (length (heap w))))
                w1)).
Proof.
  intros Hmiss Hcalc Hp Hc Hl Ht.
  rewrite init_start. unfold mbind at 1, M_bind at 1.
  erewrite load_miss; [|done|exact Hmiss]. simpl.
  unfold mbind at 1, M_bind at 1. rewrite Hcalc.
  unfold mbind at 1, M_bind at 1. unfold update_self. rewrite Hp.
  apply (store_run (set_planner _ w1)
           (set_tables d p (initial_self sha map_image locations (length (heap w))))
           l t data0); try done.
  simpl. by rewrite Hc.
Qed.

(** X15 ([__init__]): with no stop or a single stop, a construction that
    misses the cache always returns: it makes no search and checks no
    bounds (a single stop outside the grid is accepted), and both the
    planner and the cache file get empty tables. *)
Theorem init_single_stop rta sha map_image locations w data0 :
  length locations ≤ 1 → cache_miss (sha locations) (cache_file w) data0 →
  ∃ w', __init__ rta sha map_image locations w = Ok tt w' ∧
        searches w' = searches w ∧ tables_view w' = Some ([], ∅) ∧
        cache_file w' = Some (Pickled (<[sha locations := CacheEntry [] ∅]> data0)).
Proof.
  intros Hlen Hmiss.
  pose proof (precomputation_short rta (initial_world sha map_image locations w)
                (initial_self sha map_image locations (length (heap w))) eq_refl Hlen)
    as Hcalc.
  set (w0 := initial_world sha map_image locations w) in *.
  set (w1 := set_heap _ w0) in Hcalc.
  assert (heap w1 !! (length (heap w0) + 3) = Some (OList [])) as Hl.
  { unfold w1. simpl. apply shape_lookup_3. }
  assert (heap w1 !! (length (heap w0) + 2) = Some (OTable ∅)) as Ht.
  { unfold w1. simpl. apply shape_lookup_2. }
  rewrite (init_miss_run rta sha map_image locations w data0 _ _ w1 [] ∅
             Hmiss Hcalc eq_refl eq_refl Hl Ht).
  eexists. split; [done|]. split; [done|]. split.
  - unfold tables_view, set_cache_file, set_planner, set_tables.
    cbn [planner heap inter_product_distances inter_product_paths].
    rewrite Hl, Ht. rewrite decide_True.
    + unfold pickle_table. by rewrite omap_empty.
    + unfold wf_table. rewrite Ht. apply map_Forall_empty.
  - simpl. unfold pickle_table. by rewrite omap_empty.
Qed.

Lemma init_single_stop_witness :
  ¬ in_bounds (cost_grid Demo.uniform5) (9, 9)%Z ∧
  ∃ w', __init__ Demo.uniform_search Demo.no_hash Demo.uniform5 [(9, 9)%Z]
          Demo.empty_world = Ok tt w' ∧ searches w' = [].
Proof.
  split.
  { intros H. apply (bool_decide_pack _) in H. by vm_compute in H. }
  destruct (init_single_stop Demo.uniform_search Demo.no_hash Demo.uniform5 [(9, 9)%Z]
              Demo.empty_world ∅) as (w' & H1 & H2 & _); [simpl; lia|done|].
  exists w'. split; [exact H1|exact H2].
Defined.

(** ** A query from start to end *)

Section Query.

Variable rta : grid → coord → coord → option (path * Z).
Variable ga : list edge → nat → option (list nat).

(** [_calculate_user_product_routes], run when the search finds a path to
    every registered stop. *)
Lemma user_routes_run user_loc w self t l :
  planner w = Some self →
  heap w !! inter_product_paths self = Some (OTable t) →
  heap w !! inter_product_distances self = Some (OList l) →
  Forall (λ loc, is_Some (rta (self_map self) user_loc loc)) (product_locations self) →
  _calculate_user_product_routes rta user_loc w =
    Ok (S (length (heap w)), length (heap w))
       (World (planner w)
          (heap w ++
             [OTable (<[user_position_id := S (S (length (heap w)))]> t);
              OList (l ++ row_edges rta (self_map self) user_position_id user_loc
                            (product_locations self));
              ODict (dict_of (row_paths rta (self_map self) user_position_id user_loc
                                (product_locations self)))])
          (cache_file w)
          (searches w ++ row_calls user_loc (product_locations self))).
Proof.
  intros Hself Ht Hl Hall.
  pose proof (lookup_lt_Some _ _ _ Ht) as Hlt.
  pose proof (lookup_lt_Some _ _ _ Hl) as Hll.
  set (g := self_map self). set (locs := product_locations self).
  set (t' := <[user_position_id := S (S (length (heap w)))]> t).
  cut (wp (_calculate_user_product_routes rta user_loc)
         (λ r w', r = (S (length (heap w)), length (heap w)) ∧
            w' = World (planner w)
                   (heap w ++
                      [OTable t'; OList (l ++ row_edges rta g user_position_id user_loc locs);
                       ODict (dict_of (row_paths rta g user_position_id user_loc locs))])
                   (cache_file w) (searches w ++ row_calls user_loc locs))
         (λ _ _, False) w).
  { intros (r & w' & Hrun & -> & ->)%wp_Ok. exact Hrun. }
  unfold _calculate_user_product_routes.
  apply wp_bind, wp_get_self; [|congruence].
  intros self' Hself'. assert (self' = self) as -> by congruence. clear Hself'.
  unfold table_copy. rewrite !wp_bind.
  eapply wp_read_table_at; [exact Ht|]. apply wp_alloc.
  unfold list_copy. rewrite !wp_bind.
  eapply wp_read_list_at.
  { simpl. rewrite lookup_app_l by done. exact Hl. }
  apply wp_alloc. simpl.
  unfold table_set_new_dict. rewrite !wp_bind.
  rewrite <- app_assoc, length_snoc. simpl.
  eapply wp_read_table_at.
  { simpl. by rewrite lookup_app_at0. }
  apply wp_bind, wp_alloc. simpl. apply wp_put_obj. simpl.
  rewrite length_app. simpl.
  rewrite <- app_assoc. simpl. rewrite insert_app_at0. simpl.
  replace (length (heap w) + 2) with (S (S (length (heap w)))) by lia.
  fold t'.
  rewrite wp_bind.
  eapply (wp_mono _
    (λ _ w', w' = World (planner w)
                   (heap w ++
                      [OTable t'; OList (l ++ row_edges rta g user_position_id user_loc locs);
                       ODict (dict_of (row_paths rta g user_position_id user_loc locs))])
                   (cache_file w) (searches w ++ row_calls user_loc locs))
    _ (λ _ _, False)).
  - apply (wp_for_enumerate (λ pre w',
      w' = World (planner w)
             (heap w ++
                [OTable t'; OList (l ++ row_edges rta g user_position_id user_loc pre);
                 ODict (dict_of (row_paths rta g user_position_id user_loc pre))])
             (cache_file w) (searches w ++ row_calls user_loc pre))).
    + unfold set_heap. simpl. by rewrite !app_nil_r.
    + intros pre x todo w' Hlist ->.
      assert (is_Some (rta g user_loc x)) as [[pth cost] Hrta].
      { apply (proj1 (Forall_forall _ _) Hall x). fold locs. rewrite Hlist.
        apply elem_of_app. right. left. }
      rewrite !wp_bind. unfold wp at 1, route_search. fold g. rewrite Hrta.
      simpl. unfold table_set2, table_get. rewrite !wp_bind.
      eapply wp_read_table_at.
      { simpl. by rewrite lookup_app_at0. }
      unfold t' at 1. rewrite lookup_insert_eq. rewrite wp_ret, wp_bind.
      eapply wp_read_dict_at.
      { simpl. by rewrite lookup_app_at2. }
      apply wp_put_obj. simpl. rewrite insert_app_at2. simpl.
      eapply wp_list_append_at.
      { simpl. by rewrite lookup_app_at1. }
      simpl. rewrite insert_app_at1. unfold set_heap, log_search. simpl.
      rewrite row_edges_snoc, row_paths_snoc, row_calls_snoc, dict_of_snoc.
      unfold search_result. rewrite Hrta. simpl.
      by rewrite !app_assoc.
  - intros [] w' ->. by rewrite wp_ret.
  - done.
Qed.

End Query.

Lemma bind_run {A B} (m : M A) (f : A → M B) w a w1 :
  m w = Ok a w1 → (m ≫= f) w = f a w1.
Proof. intros H. unfold mbind, M_bind. by rewrite H. Qed.

Lemma NoDup_lookup_not_in_take {A} (l : list A) j x :
  NoDup l → l !! j = Some x → x ∉ take j l.
Proof.
  intros Hnd Hj Hin. apply list_elem_of_lookup in Hin as (i & Hi).
  pose proof (lookup_lt_Some _ _ _ Hi) as Hlt. rewrite length_take in Hlt.
  rewrite lookup_take_lt in Hi by lia.
  pose proof (NoDup_lookup _ _ _ _ Hnd Hi Hj). lia.
Qed.

(** *** The distance list a query hands to the optimiser *)

Section Filtered.

Variable rta : grid → coord → coord → option (path * Z).
Variable g : grid.
Variable user_loc : coord.
Variable locs : list coord.
Variable selected : list nat.
Variable l : list edge.

Hypothesis Hnd : NoDup selected.
Hypothesis Hrange : ∀ s, s ∈ selected → 1 ≤ s ∧ s ≤ length locs.

Lemma selected_index j s :
  selected !! j = Some s → list_index s (user_position_id :: selected) = Some (S j).
Proof.
  intros Hj. apply list_index_Some. split; [done|].
  assert (s ∈ selected) as Hs by by eapply list_elem_of_lookup_2.
  apply Hrange in Hs. simpl. intros [H|H]%elem_of_cons.
  - unfold user_position_id in H. lia.
  - by eapply NoDup_lookup_not_in_take.
Qed.

Lemma filtered_user_edge j s :
  selected !! j = Some s →
  ∃ c, (user_position_id, S j, c) ∈
         filter_edges (user_position_id :: selected)
           (l ++ row_edges rta g user_position_id user_loc locs).
Proof.
  intros Hj.
  assert (s ∈ selected) as Hs by by eapply list_elem_of_lookup_2.
  apply Hrange in Hs.
  destruct (lookup_lt_is_Some_2 locs (s - 1)) as [cj Hcj]; [lia|].
  exists (search_result rta g user_loc cj).2.
  apply filter_edges_elem. exists user_position_id, s. split; [|split].
  - apply elem_of_app. right. apply row_edges_elem. exists (s - 1), cj.
    split; [done|]. do 2 f_equal. unfold user_position_id. lia.
  - reflexivity.
  - by apply selected_index.
Qed.

Lemma filtered_nodes_le a b d :
  (a, b, d) ∈ filter_edges (user_position_id :: selected)
                (l ++ row_edges rta g user_position_id user_loc locs) →
  a ≤ length selected ∧ b ≤ length selected.
Proof.
  intros (s & t & _ & Ha%list_index_lt & Hb%list_index_lt)%filter_edges_elem.
  simpl in *. lia.
Qed.

Lemma filtered_max :
  selected ≠ [] →
  is_max_node (filter_edges (user_position_id :: selected)
                 (l ++ row_edges rta g user_position_id user_loc locs))
    (length selected).
Proof.
  intros Hne.
  destruct (lookup_lt_is_Some_2 selected (length selected - 1)) as [s Hs].
  { destruct selected; [done|simpl; lia]. }
  destruct (filtered_user_edge _ _ Hs) as (c & Hc). split.
  - eexists. split; [exact Hc|]. right. simpl.
    destruct selected; [done|simpl; lia].
  - intros [[a b] d] He. by apply filtered_nodes_le in He.
Qed.

Lemma filtered_node i :
  i < length selected →
  is_node (filter_edges (user_position_id :: selected)
             (l ++ row_edges rta g user_position_id user_loc locs)) i.
Proof.
  intros Hi. destruct i as [|j].
  - destruct (lookup_lt_is_Some_2 selected 0) as [s Hs]; [lia|].
    destruct (filtered_user_edge _ _ Hs) as (c & Hc).
    eexists. split; [exact Hc|]. by left.
  - destruct (lookup_lt_is_Some_2 selected j) as [s Hs]; [lia|].
    destruct (filtered_user_edge _ _ Hs) as (c & Hc).
    eexists. split; [exact Hc|]. by right.
Qed.

End Filtered.

Lemma is_max_node_dummy l m end_id :
  is_max_node l m → is_node l end_id →
  is_max_node (l ++ [(user_position_id, m + 1, 1%Z); (m + 1, end_id, 1%Z)]) (m + 1).
Proof.
  intros [Hn Hle] (e0 & He0 & Hend). split.
  - exists (user_position_id, m + 1, 1%Z). split; [|by right].
    apply elem_of_app. right. by left.
  - intros e [He|He]%elem_of_app.
    + apply Hle in He. lia.
    + pose proof (Hle _ He0).
      apply elem_of_cons in He as [->|He]; [simpl; unfold user_position_id; lia|].
      apply list_elem_of_singleton in He as ->. simpl. lia.
Qed.

(** *** The steps after the optimiser *)

Lemma roll_route_total start_id end_id route w :
  start_id ∈ route → 2 ≤ length route →
  ∃ rest, _roll_route start_id end_id route w = Ok (start_id :: rest) w ∧
          start_id :: rest ≡ₚ route.
Proof.
  intros Hin Hlen. apply elem_of_first_split in Hin as (pre & post & -> & Hnot).
  rewrite roll_route_run by done.
  assert (start_id :: post ++ pre ≡ₚ pre ++ start_id :: post) as Hperm.
  { by rewrite (Permutation_app_comm pre). }
  destruct (post ++ pre) as [|x mid] eqn:Hmid.
  { apply (f_equal length) in Hmid. rewrite !length_app in *. simpl in *. lia. }
  destruct (decide (x = end_id)) as [->|Hne].
  - eexists. split; [done|]. rewrite <- Hperm. constructor.
    rewrite <- Permutation_cons_append. constructor. apply reverse_Permutation.
  - eexists. split; [done|]. done.
Qed.

Lemma segments_ext (seg seg' : nat → nat → option path) x l :
  (∀ a b, a ∈ x :: l → b ∈ l → seg a b = seg' a b) →
  segments seg x l = segments seg' x l.
Proof.
  revert x. induction l as [|t l IH]; intros x Heq; [done|].
  simpl. rewrite (Heq x t) by (by left || by left).
  rewrite (IH t); [done|].
  intros a b Ha Hb. apply Heq; by right.
Qed.

Lemma segments_is_Some (seg : nat → nat → option path) x l :
  NoDup (x :: l) →
  (∀ a b, a ∈ x :: l → b ∈ l → a ≠ b → is_Some (seg a b)) →
  is_Some (segments seg x l).
Proof.
  revert x. induction l as [|t l IH]; intros x Hnd Hall; [by eexists|].
  apply NoDup_cons in Hnd as [Hx Hnd]. simpl.
  destruct (Hall x t) as [p ->]; [by left|by left| |].
  { intros ->. apply Hx. by left. }
  destruct (IH t Hnd) as [ps ->]; [|by eexists].
  intros a b Ha Hb. apply Hall; by right.
Qed.

(** *** The table a query stitches from *)

Lemma query_table_stored h ps t o1 D o3 a b :
  h !! ps = Some (OTable t) → wf_table h ps →
  stored (h ++ [OTable (<[user_position_id := S (S (length h))]> t); o1; ODict D; o3])
    (length h) a b =
  if decide (a = user_position_id) then D !! b else stored h ps a b.
Proof.
  intros Ht Hwf. unfold stored. rewrite lookup_app_at0. simpl. rewrite Ht.
  destruct (decide (a = user_position_id)) as [->|Ha].
  - rewrite lookup_insert_eq. by rewrite lookup_app_at2.
  - rewrite lookup_insert_ne by done.
    destruct (t !! a) as [d|] eqn:Hd; [|done].
    unfold wf_table in Hwf. rewrite Ht in Hwf.
    destruct (Hwf a d Hd) as [m Hm].
    destruct (h !! d) as [o|] eqn:Ho; [|done].
    by rewrite (lookup_app_l_Some _ _ _ _ Ho).
Qed.

Lemma query_table_wf h ps t o1 D o3 :
  h !! ps = Some (OTable t) → wf_table h ps →
  wf_table (h ++ [OTable (<[user_position_id := S (S (length h))]> t); o1; ODict D; o3])
    (length h).
Proof.
  intros Ht Hwf. unfold wf_table. rewrite lookup_app_at0. simpl.
  apply map_Forall_insert_2.
  - rewrite lookup_app_at2. simpl. by eexists.
  - unfold wf_table in Hwf. rewrite Ht in Hwf.
    intros a d Hd. destruct (Hwf a d Hd) as [m Hm].
    destruct (h !! d) as [o|] eqn:Ho; [|done].
    rewrite (lookup_app_l_Some _ _ _ _ Ho). by eexists.
Qed.

Section Run.

Variable rta : grid → coord → coord → option (path * Z).
Variable ga : list edge → nat → option (list nat).

Lemma query_segment_table user_loc w self t o1 o3 a b :
  heap w !! inter_product_paths self = Some (OTable t) →
  wf_table (heap w) (inter_product_paths self) →
  b ≠ user_position_id → b ≤ length (product_locations self) →
  segment
    (heap w ++
       [OTable (<[user_position_id := S (S (length (heap w)))]> t); o1;
        ODict (dict_of (row_paths rta (self_map self) user_position_id user_loc
                          (product_locations self))); o3])
    (length (heap w)) a b =
  query_segment rta w self user_loc a b.
Proof.
  intros Ht Hwf Hb Hle. unfold segment, query_segment.
  rewrite !(query_table_stored _ _ _ _ _ _ _ _ Ht Hwf).
  rewrite (decide_False (P := b = user_position_id)) by done.
  destruct (decide (a = user_position_id)) as [->|Ha]; [|done].
  unfold user_position_id in *. rewrite decide_True by lia.
  replace b with (0 + 1 + (b - 1)) at 1 by lia.
  rewrite row_dict_lookup.
  destruct (lookup_lt_is_Some_2 (product_locations self) (b - 1)) as [cj ->]; [lia|].
  done.
Qed.

(** [get_path] from start to end, on a planner with complete tables, a
    search that reaches every registered stop from the current position,
    and an optimiser that returns a tour of all nodes. *)
Lemma get_path_run user_loc selected end_at_id w self :
  planner w = Some self → tables_complete w self →
  Forall (λ loc, is_Some (rta (self_map self) user_loc loc)) (product_locations self) →
  (∀ dl n, ∃ tour, ga dl n = Some tour ∧ tour ≡ₚ seq 0 n) →
  NoDup selected →
  (∀ s, s ∈ selected → 1 ≤ s ∧ s ≤ length (product_locations self)) →
  end_at_id ∈ selected →
  ∃ p rest ps w',
    get_path rta ga user_loc selected end_at_id w =
      Ok (p, user_position_id :: rest) w' ∧
    rest ≡ₚ selected ∧
    segments (query_segment rta w self user_loc) user_position_id rest = Some ps ∧
    p = concat ps ∧
    planner w' = Some (set_dummy_id (length selected + 1) self) ∧
    searches w' = searches w ++ user_calls user_loc (product_locations self) ∧
    cache_file w' = cache_file w.
Proof.
  intros Hself (Hnum & [v Hv] & Hcomp) Hall Hga Hnd Hrange Hend.
  destruct (tables_view_Some _ _ Hv) as (self' & t & Hself' & Hl & Ht & Hwf & _).
  rewrite Hself in Hself'. injection Hself' as <-.
  assert (selected ≠ []) as Hne.
  { intros ->. by apply elem_of_nil in Hend. }
  assert (0 < length selected) as Hk.
  { destruct selected; [done|simpl; lia]. }
  assert (user_position_id ∉ selected) as H0.
  { intros H%Hrange. unfold user_position_id in H. lia. }
  assert (num_products self ≠ 0) as Hn0.
  { apply Hrange in Hend. lia. }
  destruct (list_index_elem _ _ Hend) as [e_idx He].
  pose proof (list_index_lt _ _ _ He) as Hlt.
  set (n := length (heap w)).
  set (T' := <[user_position_id := S (S n)]> t).
  set (L := v.1 ++ row_edges rta (self_map self) user_position_id user_loc
                     (product_locations self)).
  set (D := dict_of (row_paths rta (self_map self) user_position_id user_loc
                       (product_locations self))).
  set (w1 := World (planner w) (heap w ++ [OTable T'; OList L; ODict D])
               (cache_file w)
               (searches w ++ row_calls user_loc (product_locations self))).
  assert (_calculate_user_product_routes rta user_loc w = Ok (S n, n) w1) as H1.
  { by apply user_routes_run. }
  set (F := filter_edges (user_position_id :: selected) L).
  set (w2 := set_heap (heap w ++ [OTable T'; OList L; ODict D; OList F]) w1).
  assert (_filter_dists (user_position_id :: selected) (S n) w1 = Ok (n + 3) w2) as H2.
  { rewrite (filter_dists_run _ (S n) L w1).
    - f_equal.
      + unfold w1. simpl. rewrite length_app. simpl. done.
      + unfold w2, w1, set_heap. simpl. by rewrite <- app_assoc.
    - unfold w1, n. simpl. by rewrite lookup_app_at1. }
  set (k := length selected) in *.
  set (F' := F ++ [(user_position_id, k + 1, 1%Z); (k + 1, e_idx, 1%Z)]).
  set (w3 := World (Some (set_dummy_id (k + 1) self))
               (heap w ++ [OTable T'; OList L; ODict D; OList F'])
               (cache_file w) (searches w1)).
  assert (is_max_node F k) as Hmax.
  { by apply filtered_max. }
  assert (is_node F e_idx) as Hnode.
  { by apply filtered_node. }
  assert (_insert_dummy_node (n + 3) e_idx w2 = Ok (n + 3) w3) as H3.
  { rewrite (insert_dummy_node_run w2 self (n + 3) F e_idx k); try done.
    - unfold w3, w2, w1, set_heap. simpl. do 2 f_equal.
      by rewrite (insert_app_at (heap w) _ 3).
    - unfold w2, w1, set_heap. simpl. by rewrite (lookup_app_at (heap w) _ 3). }
  set (w4 := set_heap (heap w ++ [OTable T'; OList L; ODict D; OList (sort_by_src F')])
               w3).
  destruct (Hga (sort_by_src F') (k + 1 + 1)) as (tour & Htour & Hperm).
  assert (_do_tsp ga (n + 3) w3 = Ok tour w4) as H4.
  { rewrite (do_tsp_run ga w3 (n + 3) F' (k + 1)).
    - rewrite Htour. unfold w4, w3, set_heap. simpl. do 2 f_equal.
      by rewrite (insert_app_at (heap w) _ 3).
    - unfold w3. simpl. by rewrite (lookup_app_at (heap w) _ 3).
    - by apply is_max_node_dummy. }
  destruct (map_to_selected_tour selected tour w4) as (r & H5 & Hr).
  { rewrite Hperm. by replace (k + 1 + 1) with (S (S k)) by lia. }
  destruct (roll_route_total user_position_id e_idx r w4) as (rest & H6 & Hrest).
  { rewrite Hr. by left. }
  { rewrite Hr. simpl. lia. }
  assert (rest ≡ₚ selected) as Hrs.
  { apply (Permutation_cons_inv (a := user_position_id)). by rewrite Hrest. }
  assert (NoDup (user_position_id :: rest)) as Hndr.
  { rewrite Hrs. by apply NoDup_cons. }
  assert (wf_table (heap w4) n) as Hwf4.
  { unfold w4, T'. simpl. by apply (query_table_wf _ (inter_product_paths self)). }
  assert (segments (segment (heap w4) n) user_position_id rest =
          segments (query_segment rta w self user_loc) user_position_id rest) as Hseg.
  { apply segments_ext. intros a b _ Hb. rewrite Hrs in Hb.
    unfold w4, T', D. simpl. apply query_segment_table; try done.
    - intros ->. done.
    - by apply Hrange. }
  destruct (segments_is_Some (query_segment rta w self user_loc) user_position_id rest
              Hndr) as [ps Hps].
  { intros a b Ha Hb Hab. rewrite Hrs in Ha, Hb.
    pose proof (Hrange _ Hb) as Hbr. unfold query_segment.
    destruct (decide (a = user_position_id)) as [->|Ha0].
    - rewrite decide_True by lia.
      destruct (lookup_lt_is_Some_2 (product_locations self) (b - 1)) as [cj ->];
        [lia|]. by eexists.
    - apply elem_of_cons in Ha as [->|Ha]; [done|].
      pose proof (Hrange _ Ha) as Har. unfold segment.
      destruct (decide (a < b)) as [Hlt'|Hge].
      + destruct (Hcomp a b) as [p ->]; [lia..|]. by eexists.
      + destruct (stored _ _ a b) as [p|]; [by eexists|].
        destruct (Hcomp b a) as [p ->]; [lia..|]. by eexists. }
  exists (concat ps), rest, ps, w4.
  split; [|by repeat split].
  unfold get_path.
  rewrite (bind_run _ _ w self w) by (unfold get_self; by rewrite Hself).
  rewrite (bool_decide_eq_true_2 (end_at_id ∈ selected)) by done.
  rewrite (bind_run _ _ w tt w) by done.
  rewrite He. rewrite decide_False by done.
  rewrite (bool_decide_eq_true_2 (user_position_id ∉ selected)) by done.
  change ([user_position_id] ++ selected) with (user_position_id :: selected).
  rewrite (bind_run _ _ _ _ _ H1). cbn beta iota.
  rewrite (bind_run _ _ _ _ _ H2).
  rewrite (bind_run _ _ _ _ _ H3).
  rewrite (bind_run _ _ _ _ _ H4).
  rewrite (bind_run _ _ _ _ _ H5).
  rewrite (bind_run _ _ _ _ _ H6).
  unfold _route_to_path. unfold mbind, M_bind.
  rewrite route_to_path_loop_run by done.
  by rewrite Hseg, Hps.
Qed.

End Run.

(** ** Node 0, on every query *)

Section Recomputed.

Variable rta : grid → coord → coord → option (path * Z).
Variable ga : list edge → nat → option (list nat).

(** A query whose searches from the current position all find a path has
    made exactly these searches when it ends, whether it returns or one of
    the later steps raises. *)
Lemma get_path_searches user_loc selected end_at_id w self v :
  planner w = Some self → tables_view w = Some v →
  Forall (λ loc, is_Some (rta (self_map self) user_loc loc)) (product_locations self) →
  end_at_id ∈ selected → num_products self ≠ 0 →
  searches (final (get_path rta ga user_loc selected end_at_id w)) =
    searches w ++ user_calls user_loc (product_locations self).
Proof.
  intros Hself Hv Hall Hend Hn.
  destruct (tables_view_Some _ _ Hv) as (self' & t & Hself' & Hl & Ht & _).
  rewrite Hself in Hself'. injection Hself' as <-.
  destruct (list_index_elem _ _ Hend) as [e_idx He].
  pose proof (user_routes_run rta user_loc w self t v.1 Hself Ht Hl Hall) as H1.
  set (w1 := World _ _ _ _) in H1.
  set (sl := searches w ++ user_calls user_loc (product_locations self)).
  assert (fr w sl w1) as Hfr.
  { split; [|done]. unfold w1. repeat split; simpl.
    - by apply prefix_app_r.
    - apply same_attrs_refl.
    - by apply prefix_app_r. }
  unfold get_path.
  rewrite (bind_run _ _ w self w) by (unfold get_self; by rewrite Hself).
  rewrite (bool_decide_eq_true_2 (end_at_id ∈ selected)) by done.
  rewrite (bind_run _ _ w tt w) by done.
  rewrite He. rewrite decide_False by done. cbv zeta.
  rewrite (bind_run _ _ _ _ _ H1). cbn beta iota.
  match goal with
  | |- searches (final (?m w1)) = _ =>
      cut (wp m (λ _, fr w sl) (λ _, fr w sl) w1);
        [unfold wp; destruct (m w1); intros [_ H]; exact H|]
  end.
  rewrite wp_bind.
  eapply (wp_mono _ (λ f w', fr w sl w' ∧ length (heap w) ≤ f) _ (λ _, fr w sl)).
  { by apply filter_dists_frame. }
  2:{ auto. }
  intros f w2 [Hw2 Hf]. rewrite wp_bind.
  eapply (wp_mono _ (λ r w', fr w sl w' ∧ r = f) _ (λ _, fr w sl)).
  { by apply insert_dummy_node_frame. }
  2:{ auto. }
  intros ? w3 [Hw3 ->]. rewrite wp_bind.
  eapply (wp_mono _ (λ _, fr w sl) _ (λ _, fr w sl)).
  { by apply do_tsp_frame. }
  2:{ auto. }
  intros route w4 Hw4. rewrite wp_bind.
  apply wp_read_only; [apply read_only_map_to_selected| |intros; apply Hw4].
  intros route'. rewrite wp_bind.
  apply wp_read_only; [apply read_only_roll_route| |intros; apply Hw4].
  intros rolled. rewrite wp_bind.
  apply wp_read_only; [apply read_only_route_to_path| |intros; apply Hw4].
  intros pth. by rewrite wp_ret.
Qed.

End Recomputed.

(** C4: in every reachable state, the persisted cache and the planner's
    pairwise tables hold only distance tuples and segments between regular
    stops, indexed from 1 (node 0 occurs in none of them).  The
    current-position step of a query searches from the current position to
    every registered stop on every call, and puts the resulting tuples,
    all with source node 0, in a list allocated for that call.  A query,
    whether it returns or raises, leaves the cache file and the planner's
    tables as they were, and, when it returns with a non-empty registry, it
    has made exactly these searches.  The step is made on every query:
    whenever the search finds a path from the current position to every
    registered stop, the current-position step returns, having made these
    searches anew; and a query for a stop of a non-empty registry has made
    exactly these searches when it ends, whether it returns or a later
    step raises. *)
Theorem C4_current_position_never_cached rta ga sha w :
  reachable rta ga sha w →
  cache_clean (cache_file w) ∧
  (∀ self, planner w = Some self →
     ∃ l t, tables_view w = Some (l, t) ∧ entry_clean (CacheEntry l t)) ∧
  (∀ self user_loc dists paths w',
     planner w = Some self →
     _calculate_user_product_routes rta user_loc w = Ok (dists, paths) w' →
     ∃ l t, tables_view w = Some (l, t) ∧
       length (heap w) ≤ dists ∧ length (heap w) ≤ paths ∧
       heap w' !! dists =
         Some (OList (l ++ user_edges rta (self_map self) user_loc
                             (product_locations self))) ∧
       Forall (λ e : edge, e.1.1 = user_position_id ∧ 1 ≤ e.1.2)
         (user_edges rta (self_map self) user_loc (product_locations self)) ∧
       searches w' = searches w ++ user_calls user_loc (product_locations self) ∧
       cache_file w' = cache_file w) ∧
  (∀ user_loc selected end_at_id,
     cache_file (final (get_path rta ga user_loc selected end_at_id w)) = cache_file w ∧
     tables_view (final (get_path rta ga user_loc selected end_at_id w)) =
       tables_view w ∧
     ∀ self res w',
       planner w = Some self → num_products self ≠ 0 →
       get_path rta ga user_loc selected end_at_id w = Ok res w' →
       searches w' = searches w ++ user_calls user_loc (product_locations self)) ∧
  (∀ self user_loc,
     planner w = Some self →
     Forall (λ loc, is_Some (rta (self_map self) user_loc loc))
       (product_locations self) →
     (∃ dists paths w',
        _calculate_user_product_routes rta user_loc w = Ok (dists, paths) w' ∧
        searches w' = searches w ++ user_calls user_loc (product_locations self)) ∧
     ∀ selected end_at_id,
       end_at_id ∈ selected → num_products self ≠ 0 →
       searches (final (get_path rta ga user_loc selected end_at_id w)) =
         searches w ++ user_calls user_loc (product_locations self)).
Proof.
  intros Hreach. pose proof (reachable_inv _ _ _ _ Hreach) as Hinv.
  pose proof Hinv as [Hc Hp]. split; [exact Hc|]. split; [|split; [|split]].
  - intros self Hself. rewrite Hself in Hp. apply Hp.
  - intros self user_loc dists paths w' Hself Hrun.
    pose proof (calculate_user_product_routes_spec rta user_loc w self Hself) as Hwp.
    unfold wp in Hwp. rewrite Hrun in Hwp.
    destruct Hwp as (t & l & D & Ht & Hl & -> & -> & Hh & _ & Hcf & Hs).
    rewrite Hself in Hp. destruct Hp as (_ & l0 & t0 & Hv & _).
    exists l0, t0. split; [exact Hv|].
    assert (l0 = l) as ->.
    { unfold tables_view in Hv. rewrite Hself, Hl, Ht in Hv.
      case_decide; congruence. }
    split; [lia|]. split; [lia|]. split.
    + rewrite Hh. by rewrite lookup_app_at1.
    + split; [apply user_edges_src|]. split; [exact Hs|exact Hcf].
  - intros user_loc selected end_at_id. split; [|split].
    + apply (get_path_ext rta ga user_loc selected end_at_id w).
    + by apply tables_view_final_get_path.
    + intros self res w' Hself Hn Hrun.
      pose proof (get_path_frame rta ga user_loc selected end_at_id w) as Hwp.
      unfold wp in Hwp. rewrite Hrun in Hwp. destruct Hwp as [_ Hwp].
      specialize (Hwp self Hself). by rewrite decide_False in Hwp.
  - intros self user_loc Hself Hall.
    rewrite Hself in Hp. destruct Hp as (_ & l & t & Hv & _). split.
    + destruct (tables_view_Some _ _ Hv) as (self' & t' & Hself' & Hl & Ht & _).
      rewrite Hself in Hself'. injection Hself' as <-.
      rewrite (user_routes_run rta user_loc w self t' l Hself Ht Hl Hall).
      eexists _, _, _. split; [reflexivity|]. reflexivity.
    + intros selected end_at_id Hend Hn.
      by apply (get_path_searches rta ga user_loc selected end_at_id w self (l, t)).
Qed.

Lemma C4_current_position_never_cached_witness :
  reachable Demo.uniform_search Demo.exact_tsp Demo.no_hash Demo.world3 ∧
  cache_clean (cache_file Demo.world3) ∧
  (∃ dists paths w',
     _calculate_user_product_routes Demo.uniform_search (0, 4)%Z Demo.world3 =
       Ok (dists, paths) w' ∧
     searches w' =
       searches Demo.world3 ++ [((0, 4), (0, 0)); ((0, 4), (4, 4)); ((0, 4), (2, 2))]%Z) ∧
  searches (final (get_path Demo.uniform_search Demo.exact_tsp (0, 4)%Z [1; 2; 3] 3
                     Demo.world3)) =
    searches Demo.world3 ++ [((0, 4), (0, 0)); ((0, 4), (4, 4)); ((0, 4), (2, 2))]%Z.
Proof.
  assert (reachable Demo.uniform_search Demo.exact_tsp Demo.no_hash Demo.world3)
    as Hreach.
  { apply (reach_init _ _ _ Demo.empty_world). apply reach_boot. }
  destruct (C4_current_position_never_cached Demo.uniform_search Demo.exact_tsp
              Demo.no_hash Demo.world3 Hreach) as (Hclean & _ & _ & _ & Hquery).
  destruct (planner Demo.world3) as [self|] eqn:Hself;
    [|vm_compute in Hself; discriminate].
  pose proof Hself as Hself'. vm_compute in Hself'. injection Hself' as <-.
  destruct (Hquery _ (0, 4)%Z eq_refl) as [(dists & paths & w' & Hrun & Hs) Hall].
  { apply (bool_decide_unpack _). vm_compute. exact I. }
  split; [exact Hreach|]. split; [exact Hclean|]. split.
  - exists dists, paths, w'. split; [exact Hrun|exact Hs].
  - apply (Hall [1; 2; 3] 3).
    + apply (bool_decide_unpack _). vm_compute. exact I.
    + discriminate.
Defined.

Section Planned.

Variable rta : grid → coord → coord → option (path * Z).
Variable ga : list edge → nat → option (list nat).
Variable sha : list coord → string.

(** X17 ([get_path]): a query for distinct registered stops returns, and
    visits every requested stop exactly once.  On a planner whose tables
    hold a segment for every pair of registered stops, with a search that
    finds a path from the current position to every registered stop and an
    optimiser that returns a tour of all the nodes it is given, the visit
    order is node 0 followed by the requested stops in some order, and the
    path is the concatenation, along the visit order, of the segments
    between consecutive nodes. *)
Theorem get_path_visits_every_stop user_loc selected end_at_id w self :
  planner w = Some self → tables_complete w self →
  Forall (λ loc, is_Some (rta (self_map self) user_loc loc)) (product_locations self) →
  (∀ dl n, ∃ tour, ga dl n = Some tour ∧ tour ≡ₚ seq 0 n) →
  NoDup selected →
  (∀ s, s ∈ selected → 1 ≤ s ∧ s ≤ length (product_locations self)) →
  end_at_id ∈ selected →
  ∃ p rest ps w',
    get_path rta ga user_loc selected end_at_id w =
      Ok (p, user_position_id :: rest) w' ∧
    rest ≡ₚ selected ∧
    segments (query_segment rta w self user_loc) user_position_id rest = Some ps ∧
    p = concat ps ∧
    planner w' = Some (set_dummy_id (length selected + 1) self) ∧
    searches w' = searches w ++ user_calls user_loc (product_locations self) ∧
    cache_file w' = cache_file w.
Proof. apply get_path_run. Qed.

(** The state a construction that missed the cache leaves behind. *)
Lemma init_miss_state map_image locations w0 data0 w :
  cache_miss (sha locations) (cache_file w0) data0 →
  __init__ rta sha map_image locations w0 = Ok tt w →
  ∃ self,
    planner w = Some self ∧ self_map self = cost_grid map_image ∧
    product_locations self = locations ∧ num_products self = length locations ∧
    is_Some (tables_view w) ∧
    ∀ i j p, stored (heap w) (inter_product_paths self) i j = Some p ↔
      ∃ ci cj, 1 ≤ i < j ∧ locations !! (i - 1) = Some ci ∧
               locations !! (j - 1) = Some cj ∧
               p = (search_result rta (cost_grid map_image) ci cj).1.
Proof.
  intros Hmiss Hinit.
  pose proof (init_miss rta sha map_image locations w0 data0 Hmiss) as Hwp.
  cbv zeta in Hwp. unfold wp in Hwp. rewrite Hinit in Hwp.
  destruct Hwp as (w1 & T & E & -> & -> & Hst & Hcb & ->).
  eexists. split; [reflexivity|]. split; [done|]. split; [done|]. split; [done|].
  split.
  - eexists. by apply tables_view_after_miss.
  - intros i j p. simpl.
    apply (pre_state_stored rta (cost_grid map_image) _ locations _ _ w1 i j p Hst).
Qed.

Lemma init_miss_complete map_image locations w0 data0 w self :
  cache_miss (sha locations) (cache_file w0) data0 →
  __init__ rta sha map_image locations w0 = Ok tt w →
  planner w = Some self → tables_complete w self.
Proof.
  intros Hmiss Hinit Hself.
  destruct (init_miss_state _ _ _ _ _ Hmiss Hinit)
    as (self' & Hself' & Hmap & Hlocs & Hnum & Hv & Hstored).
  rewrite Hself in Hself'. injection Hself' as <-.
  split; [by rewrite Hlocs|]. split; [done|].
  intros i j Hi Hij Hj. rewrite Hlocs in Hj.
  destruct (lookup_lt_is_Some_2 locations (i - 1)) as [ci Hci]; [lia|].
  destruct (lookup_lt_is_Some_2 locations (j - 1)) as [cj Hcj]; [lia|].
  eexists. apply Hstored. exists ci, cj. split; [lia|]. done.
Qed.

Lemma query_segment_search map_image locations w0 data0 w self user_loc a b :
  cache_miss (sha locations) (cache_file w0) data0 →
  __init__ rta sha map_image locations w0 = Ok tt w →
  planner w = Some self →
  1 ≤ b → b ≤ length locations → (a = user_position_id ∨ 1 ≤ a ∧ a ≤ length locations) →
  query_segment rta w self user_loc a b =
  search_segment rta (cost_grid map_image) locations user_loc a b.
Proof.
  intros Hmiss Hinit Hself Hb1 Hb2 Ha.
  destruct (init_miss_state _ _ _ _ _ Hmiss Hinit)
    as (self' & Hself' & Hmap & Hlocs & Hnum & Hv & Hstored).
  rewrite Hself in Hself'. injection Hself' as <-.
  unfold query_segment, search_segment. rewrite Hmap, Hlocs.
  destruct (decide (a = user_position_id)) as [->|Ha0]; [done|].
  destruct Ha as [Ha|[Ha1 Ha2]]; [done|].
  destruct (lookup_lt_is_Some_2 locations (a - 1)) as [ca Hca]; [lia|].
  destruct (lookup_lt_is_Some_2 locations (b - 1)) as [cb Hcb]; [lia|].
  rewrite Hca, Hcb. simpl. unfold segment.
  destruct (decide (a < b)) as [Hab|Hab].
  - assert (stored (heap w) (inter_product_paths self) a b =
            Some (search_result rta (cost_grid map_image) ca cb).1) as ->; [|done].
    apply Hstored. exists ca, cb. split; [lia|done].
  - destruct (stored (heap w) (inter_product_paths self) a b) as [p|] eqn:Hp.
    { apply Hstored in Hp as (? & ? & ? & _). lia. }
    destruct (decide (1 ≤ b ∧ b < a)) as [Hba|Hba].
    + assert (stored (heap w) (inter_product_paths self) b a =
              Some (search_result rta (cost_grid map_image) cb ca).1) as ->; [|done].
      apply Hstored. exists cb, ca. split; [lia|done].
    + destruct (stored (heap w) (inter_product_paths self) b a) as [p|] eqn:Hq; [|done].
      apply Hstored in Hq as (? & ? & ? & _). lia.
Qed.

(** X18 ([__init__], [get_path]): construct, then query.  After a
    construction that missed the cache and returned, a query for distinct
    registered stops returns whenever the search finds a path from the
    current position to every registered stop and the optimiser returns a
    tour of all its nodes.  The visit order is node 0 followed by the
    requested stops, each once; the path is made of the paths the search
    found: from the current position to the first stop, then from stop to
    stop, where the path between two stops is the one searched from the
    stop of lower index, walked backwards when the route goes from the
    higher index to the lower. *)
Theorem construct_then_query map_image locations w0 data0 w
    user_loc selected end_at_id :
  cache_miss (sha locations) (cache_file w0) data0 →
  __init__ rta sha map_image locations w0 = Ok tt w →
  Forall (λ loc, is_Some (rta (cost_grid map_image) user_loc loc)) locations →
  (∀ dl n, ∃ tour, ga dl n = Some tour ∧ tour ≡ₚ seq 0 n) →
  NoDup selected →
  (∀ s, s ∈ selected → 1 ≤ s ∧ s ≤ length locations) →
  end_at_id ∈ selected →
  ∃ p rest ps w',
    get_path rta ga user_loc selected end_at_id w =
      Ok (p, user_position_id :: rest) w' ∧
    rest ≡ₚ selected ∧
    segments (search_segment rta (cost_grid map_image) locations user_loc)
      user_position_id rest = Some ps ∧
    p = concat ps.
Proof.
  intros Hmiss Hinit Hall Hga Hnd Hrange Hend.
  destruct (init_miss_state _ _ _ _ _ Hmiss Hinit)
    as (self & Hself & Hmap & Hlocs & Hnum & Hv & Hstored).
  destruct (get_path_run rta ga user_loc selected end_at_id w self)
    as (p & rest & ps & w' & Hrun & Hrs & Hps & Hp & _); try done.
  - by eapply init_miss_complete.
  - by rewrite Hmap, Hlocs.
  - by rewrite Hlocs.
  - exists p, rest, ps, w'. split; [done|]. split; [done|]. split; [|done].
    rewrite <- Hps. symmetry. apply segments_ext.
    intros a b Ha Hb. rewrite Hrs in Ha, Hb.
    pose proof (Hrange _ Hb) as [Hb1 Hb2].
    eapply query_segment_search; try done.
    apply elem_of_cons in Ha as [->|Ha]; [by left|right].
    by apply Hrange.
Qed.

End Planned.

Lemma foldl_select {A} (c : A → A → bool) s ss :
  foldl (λ best t, if c t best then t else best) s ss ∈ s :: ss.
Proof.
  revert s. induction ss as [|t ss IH]; intros s; simpl; [by left|].
  destruct (c t s).
  - right. apply IH.
  - specialize (IH s). apply elem_of_cons in IH as [->|IH]; [by left|].
    right. by right.
Qed.

Lemma exact_tsp_Permutation dl n :
  ∃ tour, Demo.exact_tsp dl n = Some tour ∧ tour ≡ₚ seq 0 n.
Proof.
  unfold Demo.exact_tsp.
  pose proof (permutations_refl (seq 0 n)) as Hin.
  destruct (permutations (seq 0 n)) as [|s ss] eqn:Hp; [by apply elem_of_nil in Hin|].
  eexists. split; [done|]. symmetry. apply permutations_Permutation.
  rewrite Hp. apply (foldl_select (λ t best,
    Demo.better (Demo.tour_cost dl t) (Demo.tour_cost dl best))).
Qed.

Lemma construct_then_query_witness :
  ∃ p rest w',
    get_path Demo.uniform_search Demo.exact_tsp (0, 4)%Z [1; 2; 3] 3 Demo.world3 =
      Ok (p, user_position_id :: rest) w' ∧
    rest ≡ₚ [1; 2; 3].
Proof.
  destruct (construct_then_query Demo.uniform_search Demo.exact_tsp Demo.no_hash
              Demo.uniform5 Demo.stops3 Demo.empty_world ∅ Demo.world3
              (0, 4)%Z [1; 2; 3] 3)
    as (p & rest & ps & w' & Hrun & Hrs & _).
  - reflexivity.
  - vm_compute. reflexivity.
  - apply (bool_decide_unpack _). vm_compute. exact I.
  - apply exact_tsp_Permutation.
  - apply (bool_decide_unpack _). vm_compute. exact I.
  - apply (proj1 (Forall_forall (λ s, 1 ≤ s ∧ s ≤ length Demo.stops3) _)).
    apply (bool_decide_unpack _). vm_compute. exact I.
  - by do 2 right; left.
  - exists p, rest, w'. split; [exact Hrun|exact Hrs].
Defined.

Lemma get_path_visits_every_stop_witness :
  ∃ p rest w',
    get_path Demo.uniform_search Demo.exact_tsp (0, 4)%Z [3; 1] 1 Demo.world3 =
      Ok (p, user_position_id :: rest) w' ∧
    rest ≡ₚ [3; 1].
Proof.
  destruct (planner Demo.world3) as [self|] eqn:Hself; [|by vm_compute in Hself].
  assert (__init__ Demo.uniform_search Demo.no_hash Demo.uniform5 Demo.stops3
            Demo.empty_world = Ok tt Demo.world3) as Hinit by (vm_compute; reflexivity).
  assert (product_locations self = Demo.stops3 ∧
          self_map self = cost_grid Demo.uniform5) as [Hlocs Hmap].
  { vm_compute in Hself. injection Hself as <-. split; vm_compute; reflexivity. }
  destruct (get_path_visits_every_stop Demo.uniform_search Demo.exact_tsp
              (0, 4)%Z [3; 1] 1 Demo.world3 self Hself)
    as (p & rest & ps & w' & Hrun & Hrs & _).
  - by apply (init_miss_complete Demo.uniform_search Demo.no_hash Demo.uniform5
                Demo.stops3 Demo.empty_world ∅).
  - rewrite Hlocs, Hmap. apply (bool_decide_unpack _). vm_compute. exact I.
  - apply exact_tsp_Permutation.
  - apply (bool_decide_unpack _). vm_compute. exact I.
  - rewrite Hlocs.
    apply (proj1 (Forall_forall (λ s, 1 ≤ s ∧ s ≤ length Demo.stops3) _)).
    apply (bool_decide_unpack _). vm_compute. exact I.
  - by right; left.
  - exists p, rest, w'. split; [exact Hrun|exact Hrs].
Defined.

(** *** What a query that returned has needed *)

Lemma user_routes_Ok_inv rta user_loc w self r w' :
  planner w = Some self →
  _calculate_user_product_routes rta user_loc w = Ok r w' →
  Forall (λ loc, is_Some (rta (self_map self) user_loc loc)) (product_locations self).
Proof.
  intros Hself Hrun. unfold _calculate_user_product_routes in Hrun.
  apply bind_Ok in Hrun as (self' & w1 & Hget & Hrun).
  unfold get_self in Hget. rewrite Hself in Hget. injection Hget as <- <-.
  apply bind_Ok in Hrun as (paths & w1 & _ & Hrun).
  apply bind_Ok in Hrun as (dists & w2 & _ & Hrun).
  apply bind_Ok in Hrun as ([] & w3 & _ & Hrun).
  apply bind_Ok in Hrun as ([] & w4 & Hloop & _).
  apply Forall_lookup. intros k loc Hk.
  destruct (for_enumerate_Ok_inv _ _ _ _ _ Hloop k loc Hk) as (wa & wb & Hbody).
  apply bind_Ok in Hbody as ([p c] & wc & Hs & _).
  unfold route_search in Hs.
  destruct (rta (self_map self) user_loc loc); [by eexists|done].
Qed.

(** X21 ([get_path]): a query returns only if the mandatory end is among
    the requested stops and, unless the registry is empty, the search has
    found a path from the current position to every registered stop, also
    to the stops that were not requested. *)
Theorem get_path_returns_only_if rta ga user_loc selected end_at_id w self r w' :
  planner w = Some self →
  get_path rta ga user_loc selected end_at_id w = Ok r w' →
  end_at_id ∈ selected ∧
  (num_products self ≠ 0 →
   Forall (λ loc, is_Some (rta (self_map self) user_loc loc)) (product_locations self)).
Proof.
  intros Hself Hrun. unfold get_path in Hrun.
  apply bind_Ok in Hrun as (self' & w1 & Hget & Hrun).
  unfold get_self in Hget. rewrite Hself in Hget. injection Hget as <- <-.
  apply bind_Ok in Hrun as ([] & w1 & Hassert & Hrun).
  unfold assert, raise in Hassert.
  destruct (bool_decide (end_at_id ∈ selected)) eqn:Hend; [|done].
  apply bool_decide_eq_true in Hend. injection Hassert as <-.
  split; [done|]. intros Hn.
  destruct (list_index end_at_id selected) as [idx|]; [|done].
  rewrite decide_False in Hrun by done.
  apply bind_Ok in Hrun as ([dl paths] & w2 & Huser & _).
  by eapply user_routes_Ok_inv.
Qed.

Lemma get_path_returns_only_if_witness :
  Forall (λ loc, is_Some (Demo.uniform_search (cost_grid Demo.uniform5) (0, 4)%Z loc))
    Demo.stops3.
Proof.
  destruct (get_path Demo.uniform_search Demo.exact_tsp (0, 4)%Z [1; 2; 3] 3 Demo.world3)
    as [r w'|e w'] eqn:Hrun; [|by vm_compute in Hrun].
  destruct (planner Demo.world3) as [self|] eqn:Hself; [|by vm_compute in Hself].
  destruct (get_path_returns_only_if Demo.uniform_search Demo.exact_tsp (0, 4)%Z
              [1; 2; 3] 3 Demo.world3 self r w' Hself Hrun) as [_ Hall].
  vm_compute in Hself. injection Hself as <-. apply Hall. simpl. lia.
Defined.


(** ** A planner served from the cache *)

Lemma stored_of_view w self l m i j :
  planner w = Some self → tables_view w = Some (l, m) →
  stored (heap w) (inter_product_paths self) i j = m !! i ≫= λ d, d !! j.
Proof.
  intros Hself Hv.
  destruct (tables_view_Some _ _ Hv) as (self' & t & Hself' & _ & Ht & _ & Hm).
  rewrite Hself in Hself'. injection Hself' as <-. simpl in Hm. subst m.
  symmetry. by apply pickle_table_stored.
Qed.

Section Cached.

Variable rta rta' : grid → coord → coord → option (path * Z).
Variable ga : list edge → nat → option (list nat).
Variable sha : list coord → string.

(** A construction that hits the entry an earlier construction wrote has
    the stored segments of that construction. *)
Lemma init_hit_stored map_image locations w0 data0 w1 map_image' w2 w3 self1 self3 i j :
  cache_miss (sha locations) (cache_file w0) data0 →
  __init__ rta sha map_image locations w0 = Ok tt w1 →
  cache_file w2 = cache_file w1 →
  __init__ rta' sha map_image' locations w2 = Ok tt w3 →
  planner w1 = Some self1 → planner w3 = Some self3 →
  stored (heap w3) (inter_product_paths self3) i j =
  stored (heap w1) (inter_product_paths self1) i j.
Proof.
  intros Hmiss Hinit1 Hc Hinit3 Hself1 Hself3.
  destruct (init_Ok_entry rta sha _ _ _ _ Hinit1) as (data & e & Hf & He & Hv1).
  rewrite Hf in Hc.
  destruct (init_hit_state rta' sha map_image' locations w2 data e Hc He)
    as (w3' & self & H1 & Hv3 & _).
  rewrite Hinit3 in H1. injection H1 as <-.
  by rewrite (stored_of_view _ _ _ _ _ _ Hself3 Hv3),
             (stored_of_view _ _ _ _ _ _ Hself1 Hv1).
Qed.

(** X22 ([__init__], [get_path]): a planner served from the cache answers
    with the segments of the construction that wrote the cache.  When a
    construction computed and stored the tables, and a later construction
    for the same locations, possibly with another map image, took them
    from the cache file, a query on the later planner returns under the
    conditions of a query on the first; its path goes from the current
    position to the first stop along the path searched on the later
    planner's grid, and from stop to stop along the paths searched on the
    grid of the first construction. *)
Theorem query_after_cache_hit map_image locations w0 data0 w1 map_image' w2 w3
    user_loc selected end_at_id :
  cache_miss (sha locations) (cache_file w0) data0 →
  __init__ rta sha map_image locations w0 = Ok tt w1 →
  cache_file w2 = cache_file w1 →
  __init__ rta' sha map_image' locations w2 = Ok tt w3 →
  Forall (λ loc, is_Some (rta' (cost_grid map_image') user_loc loc)) locations →
  (∀ dl n, ∃ tour, ga dl n = Some tour ∧ tour ≡ₚ seq 0 n) →
  NoDup selected →
  (∀ s, s ∈ selected → 1 ≤ s ∧ s ≤ length locations) →
  end_at_id ∈ selected →
  ∃ p rest ps w',
    get_path rta' ga user_loc selected end_at_id w3 =
      Ok (p, user_position_id :: rest) w' ∧
    rest ≡ₚ selected ∧
    segments (cached_segment rta' (cost_grid map_image') rta (cost_grid map_image)
                locations user_loc)
      user_position_id rest = Some ps ∧
    p = concat ps ∧
    searches w' = searches w2 ++ user_calls user_loc locations.
Proof.
  intros Hmiss Hinit1 Hc Hinit3 Hall Hga Hnd Hrange Hend.
  destruct (init_miss_state rta sha _ _ _ _ _ Hmiss Hinit1)
    as (self1 & Hself1 & Hmap1 & Hlocs1 & Hnum1 & Hv1 & Hstored1).
  destruct (init_Ok_entry rta sha _ _ _ _ Hinit1) as (data & e & Hf & He & _).
  pose proof Hc as Hc'. rewrite Hf in Hc'.
  destruct (init_hit_state rta' sha map_image' locations w2 data e Hc' He)
    as (w3' & self3 & H1 & Hv3 & Hs3 & _ & Hself3 & Hmap3 & Hlocs3 & Hnum3).
  rewrite Hinit3 in H1. injection H1 as <-.
  assert (∀ i j, stored (heap w3) (inter_product_paths self3) i j =
                 stored (heap w1) (inter_product_paths self1) i j) as Hsame.
  { intros i j. by eapply init_hit_stored. }
  assert (tables_complete w3 self3) as Hcomp.
  { split; [by rewrite Hlocs3|]. split; [by eexists|].
    intros i j Hi Hij Hj. rewrite Hsame.
    pose proof (init_miss_complete rta sha _ _ _ _ _ _ Hmiss Hinit1 Hself1)
      as (_ & _ & Hc1).
    apply Hc1; [done|done|]. by rewrite Hlocs1, <- Hlocs3. }
  destruct (get_path_run rta' ga user_loc selected end_at_id w3 self3)
    as (p & rest & ps & w' & Hrun & Hrs & Hps & Hp & _ & Hs & _); try done.
  - by rewrite Hmap3, Hlocs3.
  - by rewrite Hlocs3.
  - exists p, rest, ps, w'. split; [done|]. split; [done|]. split; [|split; [done|]].
    + rewrite <- Hps. symmetry. apply segments_ext.
      intros a b Ha Hb. rewrite Hrs in Ha, Hb.
      pose proof (Hrange _ Hb) as [Hb1 Hb2].
      unfold cached_segment, query_segment.
      destruct (decide (a = user_position_id)) as [->|Ha0].
      * unfold search_segment.
        rewrite (decide_True (P := user_position_id = user_position_id)) by done.
        by rewrite Hmap3, Hlocs3.
      * apply elem_of_cons in Ha as [->|Ha]; [done|].
        pose proof (Hrange _ Ha) as [Ha1 Ha2].
        unfold segment. rewrite !Hsame.
        pose proof (query_segment_search rta sha _ _ _ _ _ _ user_loc a b
                      Hmiss Hinit1 Hself1 Hb1 Hb2 (or_intror (conj Ha1 Ha2))) as Hq.
        unfold query_segment in Hq. rewrite decide_False in Hq by done.
        exact Hq.
    + by rewrite Hs, Hs3, Hlocs3.
Qed.

End Cached.

Lemma query_after_cache_hit_witness :
  ∃ p rest w',
    get_path Demo.uniform_search Demo.exact_tsp (0, 4)%Z [2; 3] 3
      (final (__init__ Demo.uniform_search Demo.no_hash Demo.uniform5 Demo.stops3
                (World None [] (cache_file Demo.world3) []))) =
      Ok (p, user_position_id :: rest) w' ∧
    rest ≡ₚ [2; 3].
Proof.
  destruct (__init__ Demo.uniform_search Demo.no_hash Demo.uniform5 Demo.stops3
              (World None [] (cache_file Demo.world3) [])) as [[] w3|e w3] eqn:Hinit3;
    [|by vm_compute in Hinit3].
  destruct (query_after_cache_hit Demo.uniform_search Demo.uniform_search
              Demo.exact_tsp Demo.no_hash Demo.uniform5 Demo.stops3 Demo.empty_world ∅
              Demo.world3 Demo.uniform5 (World None [] (cache_file Demo.world3) []) w3
              (0, 4)%Z [2; 3] 3)
    as (p & rest & ps & w' & Hrun & Hrs & _).
  - reflexivity.
  - vm_compute. reflexivity.
  - reflexivity.
  - exact Hinit3.
  - apply (bool_decide_unpack _). vm_compute. exact I.
  - apply exact_tsp_Permutation.
  - apply (bool_decide_unpack _). vm_compute. exact I.
  - apply (proj1 (Forall_forall (λ s, 1 ≤ s ∧ s ≤ length Demo.stops3) _)).
    apply (bool_decide_unpack _). vm_compute. exact I.
  - by right; left.
  - exists p, rest, w'. split; [exact Hrun|exact Hrs].
Defined.

(** ** app/main.py: which way to the goal tag *)

Lemma tag_index_Some t l k :
  tag_index t l = Some k ↔ l !! k = Some t ∧ t ∉ take k l.
Proof.
  unfold tag_index. split.
  - destruct (list_find (t =.) l) as [[k' y]|] eqn:Hf; simpl; [|done].
    intros [= ->]. apply list_find_Some in Hf as (Hk & <- & Hbefore).
    split; [done|]. intros Hin. apply list_elem_of_lookup in Hin as (j & Hj).
    pose proof (lookup_lt_Some _ _ _ Hj) as Hlt. rewrite length_take in Hlt.
    rewrite lookup_take_lt in Hj by lia. apply (Hbefore j t); [done|lia|done].
  - intros [Hk Hnot].
    assert (list_find (t =.) l = Some (k, t)) as ->; [|done].
    apply list_find_Some. split; [done|]. split; [done|].
    intros j y Hj Hlt ->. apply Hnot. apply list_elem_of_lookup. exists j.
    by rewrite lookup_take_lt.
Qed.

Lemma tag_index_None t l : tag_index t l = None ↔ t ∉ l.
Proof.
  unfold tag_index. destruct (list_find (t =.) l) as [[k y]|] eqn:Hf; simpl.
  - apply list_find_Some in Hf as (Hk & <- & _). split; [done|].
    intros Hnot. exfalso. apply Hnot. by eapply list_elem_of_lookup_2.
  - split; [|done]. intros _ Hin. apply list_find_None in Hf.
    eapply Forall_forall in Hf; [|exact Hin]. by apply Hf.
Qed.

Lemma known_index_inj a b k :
  tag_index a known_tags = Some k → tag_index b known_tags = Some k → a = b.
Proof. intros [Ha _]%tag_index_Some [Hb _]%tag_index_Some. congruence. Qed.

Lemma known_index_lt t k : tag_index t known_tags = Some k → k < 5.
Proof. intros [H _]%tag_index_Some. by apply lookup_lt_Some in H. Qed.

Lemma direction_loop_first_known g detected :
  direction_loop g detected =
    t ← head (filter (λ t, t ∈ known_tags) detected);
    c ← tag_index t known_tags;
    Some (Z.of_nat g - Z.of_nat c)%Z.
Proof.
  induction detected as [|t rest IH]; [done|].
  simpl. rewrite filter_cons.
  destruct (tag_index t known_tags) as [c|] eqn:Hc.
  - rewrite decide_True.
    + simpl. by rewrite Hc.
    + apply tag_index_Some in Hc as [Hc _]. by eapply list_elem_of_lookup_2.
  - rewrite decide_False by by apply tag_index_None. exact IH.
Qed.

Lemma get_left_right_direction_first_known_eq detected goal_tag :
  get_left_right_direction detected goal_tag =
    g ← tag_index goal_tag known_tags;
    t ← head (filter (λ t, t ∈ known_tags) detected);
    c ← tag_index t known_tags;
    Some (Z.of_nat g - Z.of_nat c)%Z.
Proof.
  unfold get_left_right_direction.
  destruct (tag_index goal_tag known_tags) as [g|]; [|done].
  apply direction_loop_first_known.
Qed.

(** X19 ([get_left_right_direction]): the answer is decided by the first
    detected tag that is known; detected tags that are not known are
    skipped.  It is the shelf position of the goal tag minus the shelf
    position of that tag, and there is no answer when the goal tag is not
    known or no detected tag is. *)
Theorem get_left_right_direction_first_known detected goal_tag :
  get_left_right_direction detected goal_tag =
    g ← tag_index goal_tag known_tags;
    t ← head (filter (λ t, t ∈ known_tags) detected);
    c ← tag_index t known_tags;
    Some (Z.of_nat g - Z.of_nat c)%Z.
Proof. apply get_left_right_direction_first_known_eq. Qed.

(** X20 ([get_left_right_direction]): an answer lies between -4 and 4; it
    is 0 exactly when the first known detected tag is the goal tag; and
    seen from the other side it changes sign: if standing at tag [a] the
    goal [b] is [d] positions away, then standing at [b] the goal [a] is
    [-d] positions away. *)
Theorem get_left_right_direction_range detected goal_tag d :
  get_left_right_direction detected goal_tag = Some d →
  (-4 ≤ d ≤ 4)%Z ∧
  (d = 0%Z ↔ head (filter (λ t, t ∈ known_tags) detected) = Some goal_tag) ∧
  ∀ t, head (filter (λ t, t ∈ known_tags) detected) = Some t →
       get_left_right_direction [goal_tag] t = Some (- d)%Z.
Proof.
  rewrite get_left_right_direction_first_known_eq.
  destruct (tag_index goal_tag known_tags) as [g|] eqn:Hg; [|done]. simpl.
  destruct (head (filter _ detected)) as [t|] eqn:Ht; [|done]. simpl.
  destruct (tag_index t known_tags) as [c|] eqn:Hc; [|done]. simpl.
  intros [= <-].
  pose proof (known_index_lt _ _ Hg). pose proof (known_index_lt _ _ Hc).
  split; [lia|]. split.
  - split.
    + intros Hd. assert (g = c) as -> by lia.
      f_equal. by eapply known_index_inj.
    + intros [= ->]. rewrite Hg in Hc. injection Hc as <-. lia.
  - intros t' [= <-]. unfold get_left_right_direction. rewrite Hc. simpl.
    rewrite Hg. f_equal. lia.
Qed.

Lemma get_left_right_direction_range_witness :
  get_left_right_direction ["9999999"; "0000305"] "0119704" = Some 2%Z ∧
  get_left_right_direction ["0119704"] "0000305" = Some (- 2)%Z.
Proof.
  split; [reflexivity|].
  apply (get_left_right_direction_range ["9999999"; "0000305"] "0119704" 2 eq_refl).
  by vm_compute.
Defined.
